(** * Hold'em MVP: the authoritative hand/table engine of server.js

    A shallow embedding of the server's room state machine (deck, seat
    resolver, pot accountant, betting round engine, hand lifecycle and
    showdown resolver, the view of a room that is sent to a client, room
    codes) together with the properties the specification states about it
    and further properties that the code shows.

    Conventions of the embedding.
    - Chips, bets and blinds are JavaScript numbers that only ever hold
      integers here; they are modelled in [Z].
    - A player object is referred to by its position in [room.players]
      (JavaScript passes the object itself; in-place mutation becomes an
      update at that position).
    - [null] seats are [None]; arithmetic on a [null] seat follows
      JavaScript ([null + 1] is [1]).
    - An uncaught JavaScript exception is [None] in the [option] monad.
    - [Math.random] is an explicit argument (a function giving the raw draw
      of each loop iteration of the shuffle).
    - Timers set with [setTimeout] are collected in a list of pending
      timers and fired by an explicit event.
    - Wall-clock fields ([createdAt], [lastActionAt], [handOverAt], the time
      prefix of log lines), the bot scheduling handle and the sending of
      broadcasts carry no game state and are left out; of the object that
      a broadcast carries ([sanitizeFor]) the [players] array and the
      equity table are modelled.
    - The hand evaluator (package pokersolver) is external: it is a
      parameter [strength] that ranks a set of cards. *)

From Stdlib Require Import ZArith List Bool String Lia Permutation.
From stdpp Require Import base tactics option list numbers strings sorting.
Import ListNotations.
Local Open Scope Z_scope.

(** ** Configuration *)

Definition MAX_PLAYERS : nat := 8.
Definition STARTING_STACK : Z := 2000.

(** ** Cards and the deck *)

Inductive Suit := Spades | Hearts | Diamonds | Clubs.

Inductive Rank :=
  | R2 | R3 | R4 | R5 | R6 | R7 | R8 | R9 | RT | RJ | RQ | RK | RA.

(** A card is the two-character string [r + s]; [Undefined] is what
    [Array.prototype.pop] returns on an empty array. *)
Inductive Card :=
  | Face (r : Rank) (s : Suit)
  | Undefined.

#[global] Instance Suit_eq_dec : EqDecision Suit.
Proof. solve_decision. Defined.
#[global] Instance Rank_eq_dec : EqDecision Rank.
Proof. solve_decision. Defined.
#[global] Instance Card_eq_dec : EqDecision Card.
Proof. solve_decision. Defined.

Definition SUITS : list Suit := [Spades; Hearts; Diamonds; Clubs].
Definition RANKS : list Rank :=
  [R2; R3; R4; R5; R6; R7; R8; R9; RT; RJ; RQ; RK; RA].

(** The deck before shuffling: [for r of RANKS for s of SUITS push (r+s)]. *)
Definition orderedDeck : list Card :=
  flat_map (fun r => map (Face r) SUITS) RANKS.

(** [[arr[i], arr[j]] = [arr[j], arr[i]]] *)
Definition swap {A} (i j : nat) (arr : list A) : list A :=
  match arr !! i, arr !! j with
  | Some x, Some y => <[i := y]> (<[j := x]> arr)
  | _, _ => arr
  end.

(** The Fisher-Yates loop [for (i = len - 1; i > 0; i--)]; [rnd i] is the
    raw draw at index [i] and [j = floor (random * (i + 1))] ranges over
    [0 .. i]. *)
Fixpoint shuffleFrom (rnd : nat -> nat) (i : nat) (arr : list Card) : list Card :=
  match i with
  | O => arr
  | S i' => shuffleFrom rnd i' (swap i (rnd i mod (i + 1))%nat arr)
  end.

Definition shuffleInPlace (rnd : nat -> nat) (arr : list Card) : list Card :=
  shuffleFrom rnd (length arr - 1)%nat arr.

Definition freshDeck (rnd : nat -> nat) : list Card :=
  shuffleInPlace rnd orderedDeck.

(** [deck.pop()]: the last element, and the array without it. *)
Definition pop (deck : list Card) : Card * list Card :=
  (List.last deck Undefined, removelast deck).

(** ** Players and rooms *)

Inductive LastAction :=
  | LaFold
  | LaCheck
  | LaCall (allin : bool) (paid : Z)
  | LaAllIn (to : Z)
  | LaBet (isRaise : bool) (allin : bool) (to : Z)
  | LaDisconnectFold.

Record Player := mkPlayer {
  pid : string;
  name : string;
  seat : nat;
  stack : Z;
  connected : bool;
  folded : bool;
  allIn : bool;
  betThisRound : Z;
  committed : Z;
  hole : list Card;
  hasActed : bool;
  lastAction : option LastAction;
  bot : bool
}.

Definition set_stack (v : Z) (p : Player) : Player :=
  {| pid := pid p; name := name p; seat := seat p; stack := v;
     connected := connected p; folded := folded p; allIn := allIn p;
     betThisRound := betThisRound p; committed := committed p;
     hole := hole p; hasActed := hasActed p; lastAction := lastAction p;
     bot := bot p |}.

Definition set_connected (v : bool) (p : Player) : Player :=
  {| pid := pid p; name := name p; seat := seat p; stack := stack p;
     connected := v; folded := folded p; allIn := allIn p;
     betThisRound := betThisRound p; committed := committed p;
     hole := hole p; hasActed := hasActed p; lastAction := lastAction p;
     bot := bot p |}.

Definition set_folded (v : bool) (p : Player) : Player :=
  {| pid := pid p; name := name p; seat := seat p; stack := stack p;
     connected := connected p; folded := v; allIn := allIn p;
     betThisRound := betThisRound p; committed := committed p;
     hole := hole p; hasActed := hasActed p; lastAction := lastAction p;
     bot := bot p |}.

Definition set_allIn (v : bool) (p : Player) : Player :=
  {| pid := pid p; name := name p; seat := seat p; stack := stack p;
     connected := connected p; folded := folded p; allIn := v;
     betThisRound := betThisRound p; committed := committed p;
     hole := hole p; hasActed := hasActed p; lastAction := lastAction p;
     bot := bot p |}.

Definition set_betThisRound (v : Z) (p : Player) : Player :=
  {| pid := pid p; name := name p; seat := seat p; stack := stack p;
     connected := connected p; folded := folded p; allIn := allIn p;
     betThisRound := v; committed := committed p; hole := hole p;
     hasActed := hasActed p; lastAction := lastAction p; bot := bot p |}.

Definition set_committed (v : Z) (p : Player) : Player :=
  {| pid := pid p; name := name p; seat := seat p; stack := stack p;
     connected := connected p; folded := folded p; allIn := allIn p;
     betThisRound := betThisRound p; committed := v; hole := hole p;
     hasActed := hasActed p; lastAction := lastAction p; bot := bot p |}.

Definition set_hole (v : list Card) (p : Player) : Player :=
  {| pid := pid p; name := name p; seat := seat p; stack := stack p;
     connected := connected p; folded := folded p; allIn := allIn p;
     betThisRound := betThisRound p; committed := committed p; hole := v;
     hasActed := hasActed p; lastAction := lastAction p; bot := bot p |}.

Definition set_hasActed (v : bool) (p : Player) : Player :=
  {| pid := pid p; name := name p; seat := seat p; stack := stack p;
     connected := connected p; folded := folded p; allIn := allIn p;
     betThisRound := betThisRound p; committed := committed p;
     hole := hole p; hasActed := v; lastAction := lastAction p;
     bot := bot p |}.

Definition set_lastAction (v : option LastAction) (p : Player) : Player :=
  {| pid := pid p; name := name p; seat := seat p; stack := stack p;
     connected := connected p; folded := folded p; allIn := allIn p;
     betThisRound := betThisRound p; committed := committed p;
     hole := hole p; hasActed := hasActed p; lastAction := v;
     bot := bot p |}.

Inductive State := Lobby | Hand | Reveal | Showdown.
Inductive Stage := Preflop | Flop | Turn | River.

#[global] Instance State_eq_dec : EqDecision State.
Proof. solve_decision. Defined.
#[global] Instance Stage_eq_dec : EqDecision Stage.
Proof. solve_decision. Defined.

(** Lines of the room log, one constructor per message of the source. *)
Inductive LogMsg :=
  | MsgCreated (who : string)
  | MsgJoined (who : string) (seat : nat)
  | MsgBotJoined (who : string) (seat : nat)
  | MsgBlindsSet (sb bb : Z)
  | MsgGameStarted
  | MsgChat (who text : string)
  | MsgNeedTwo
  | MsgWaitingTwo
  | MsgBlindsPosted (sbSeat bbSeat : option nat) (sb bb : Z)
  | MsgHandStarted (dealer current : option nat)
  | MsgBettingStarts (first : option nat)
  | MsgFlop (cards : list Card)
  | MsgTurn (card : option Card)
  | MsgRiver (card : option Card)
  | MsgReveal
  | MsgFolds (who : string)
  | MsgChecks (who : string)
  | MsgCalls (who : string) (paid : Z) (allin : bool)
  | MsgAllIn (who : string) (to : Z)
  | MsgBets (who : string) (isRaise : bool) (to : Z) (allin : bool)
  | MsgWinsPot (who : string) (pot : Z)
  | MsgShows (who : string) (cards : list Card)
  | MsgPotNote (amount : Z) (winners : list string)
  | MsgDisconnected (who : string)
  | MsgLeftLobby (who : string)
  | MsgAutoFold (who : string)
  | MsgNewHost (who : string).

Record WinnerInfo := mkWinnerInfo {
  playerIds : list string;
  wonAmount : Z
}.

Record Room := mkRoom {
  code : string;
  hostId : string;
  state : State;
  stage : Stage;
  dealerSeat : option nat;
  smallBlind : Z;
  bigBlind : Z;
  pot : Z;
  community : list Card;
  deck : list Card;
  currentSeat : option nat;
  currentBet : Z;
  minRaise : Z;
  lastAggressorSeat : option nat;
  log : list LogMsg;
  winnerInfo : option WinnerInfo;
  players : list Player
}.

Definition set_hostId (v : string) (r : Room) : Room :=
  {| code := code r; hostId := v; state := state r; stage := stage r;
     dealerSeat := dealerSeat r; smallBlind := smallBlind r;
     bigBlind := bigBlind r; pot := pot r; community := community r;
     deck := deck r; currentSeat := currentSeat r;
     currentBet := currentBet r; minRaise := minRaise r;
     lastAggressorSeat := lastAggressorSeat r; log := log r;
     winnerInfo := winnerInfo r; players := players r |}.

Definition set_state (v : State) (r : Room) : Room :=
  {| code := code r; hostId := hostId r; state := v; stage := stage r;
     dealerSeat := dealerSeat r; smallBlind := smallBlind r;
     bigBlind := bigBlind r; pot := pot r; community := community r;
     deck := deck r; currentSeat := currentSeat r;
     currentBet := currentBet r; minRaise := minRaise r;
     lastAggressorSeat := lastAggressorSeat r; log := log r;
     winnerInfo := winnerInfo r; players := players r |}.

Definition set_stage (v : Stage) (r : Room) : Room :=
  {| code := code r; hostId := hostId r; state := state r; stage := v;
     dealerSeat := dealerSeat r; smallBlind := smallBlind r;
     bigBlind := bigBlind r; pot := pot r; community := community r;
     deck := deck r; currentSeat := currentSeat r;
     currentBet := currentBet r; minRaise := minRaise r;
     lastAggressorSeat := lastAggressorSeat r; log := log r;
     winnerInfo := winnerInfo r; players := players r |}.

Definition set_dealerSeat (v : option nat) (r : Room) : Room :=
  {| code := code r; hostId := hostId r; state := state r; stage := stage r;
     dealerSeat := v; smallBlind := smallBlind r; bigBlind := bigBlind r;
     pot := pot r; community := community r; deck := deck r;
     currentSeat := currentSeat r; currentBet := currentBet r;
     minRaise := minRaise r; lastAggressorSeat := lastAggressorSeat r;
     log := log r; winnerInfo := winnerInfo r; players := players r |}.

Definition set_smallBlind (v : Z) (r : Room) : Room :=
  {| code := code r; hostId := hostId r; state := state r; stage := stage r;
     dealerSeat := dealerSeat r; smallBlind := v; bigBlind := bigBlind r;
     pot := pot r; community := community r; deck := deck r;
     currentSeat := currentSeat r; currentBet := currentBet r;
     minRaise := minRaise r; lastAggressorSeat := lastAggressorSeat r;
     log := log r; winnerInfo := winnerInfo r; players := players r |}.

Definition set_bigBlind (v : Z) (r : Room) : Room :=
  {| code := code r; hostId := hostId r; state := state r; stage := stage r;
     dealerSeat := dealerSeat r; smallBlind := smallBlind r; bigBlind := v;
     pot := pot r; community := community r; deck := deck r;
     currentSeat := currentSeat r; currentBet := currentBet r;
     minRaise := minRaise r; lastAggressorSeat := lastAggressorSeat r;
     log := log r; winnerInfo := winnerInfo r; players := players r |}.

Definition set_pot (v : Z) (r : Room) : Room :=
  {| code := code r; hostId := hostId r; state := state r; stage := stage r;
     dealerSeat := dealerSeat r; smallBlind := smallBlind r;
     bigBlind := bigBlind r; pot := v; community := community r;
     deck := deck r; currentSeat := currentSeat r;
     currentBet := currentBet r; minRaise := minRaise r;
     lastAggressorSeat := lastAggressorSeat r; log := log r;
     winnerInfo := winnerInfo r; players := players r |}.

Definition set_community (v : list Card) (r : Room) : Room :=
  {| code := code r; hostId := hostId r; state := state r; stage := stage r;
     dealerSeat := dealerSeat r; smallBlind := smallBlind r;
     bigBlind := bigBlind r; pot := pot r; community := v; deck := deck r;
     currentSeat := currentSeat r; currentBet := currentBet r;
     minRaise := minRaise r; lastAggressorSeat := lastAggressorSeat r;
     log := log r; winnerInfo := winnerInfo r; players := players r |}.

Definition set_deck (v : list Card) (r : Room) : Room :=
  {| code := code r; hostId := hostId r; state := state r; stage := stage r;
     dealerSeat := dealerSeat r; smallBlind := smallBlind r;
     bigBlind := bigBlind r; pot := pot r; community := community r;
     deck := v; currentSeat := currentSeat r; currentBet := currentBet r;
     minRaise := minRaise r; lastAggressorSeat := lastAggressorSeat r;
     log := log r; winnerInfo := winnerInfo r; players := players r |}.

Definition set_currentSeat (v : option nat) (r : Room) : Room :=
  {| code := code r; hostId := hostId r; state := state r; stage := stage r;
     dealerSeat := dealerSeat r; smallBlind := smallBlind r;
     bigBlind := bigBlind r; pot := pot r; community := community r;
     deck := deck r; currentSeat := v; currentBet := currentBet r;
     minRaise := minRaise r; lastAggressorSeat := lastAggressorSeat r;
     log := log r; winnerInfo := winnerInfo r; players := players r |}.

Definition set_currentBet (v : Z) (r : Room) : Room :=
  {| code := code r; hostId := hostId r; state := state r; stage := stage r;
     dealerSeat := dealerSeat r; smallBlind := smallBlind r;
     bigBlind := bigBlind r; pot := pot r; community := community r;
     deck := deck r; currentSeat := currentSeat r; currentBet := v;
     minRaise := minRaise r; lastAggressorSeat := lastAggressorSeat r;
     log := log r; winnerInfo := winnerInfo r; players := players r |}.

Definition set_minRaise (v : Z) (r : Room) : Room :=
  {| code := code r; hostId := hostId r; state := state r; stage := stage r;
     dealerSeat := dealerSeat r; smallBlind := smallBlind r;
     bigBlind := bigBlind r; pot := pot r; community := community r;
     deck := deck r; currentSeat := currentSeat r;
     currentBet := currentBet r; minRaise := v;
     lastAggressorSeat := lastAggressorSeat r; log := log r;
     winnerInfo := winnerInfo r; players := players r |}.

Definition set_lastAggressorSeat (v : option nat) (r : Room) : Room :=
  {| code := code r; hostId := hostId r; state := state r; stage := stage r;
     dealerSeat := dealerSeat r; smallBlind := smallBlind r;
     bigBlind := bigBlind r; pot := pot r; community := community r;
     deck := deck r; currentSeat := currentSeat r;
     currentBet := currentBet r; minRaise := minRaise r;
     lastAggressorSeat := v; log := log r; winnerInfo := winnerInfo r;
     players := players r |}.

Definition set_log (v : list LogMsg) (r : Room) : Room :=
  {| code := code r; hostId := hostId r; state := state r; stage := stage r;
     dealerSeat := dealerSeat r; smallBlind := smallBlind r;
     bigBlind := bigBlind r; pot := pot r; community := community r;
     deck := deck r; currentSeat := currentSeat r;
     currentBet := currentBet r; minRaise := minRaise r;
     lastAggressorSeat := lastAggressorSeat r; log := v;
     winnerInfo := winnerInfo r; players := players r |}.

Definition set_winnerInfo (v : option WinnerInfo) (r : Room) : Room :=
  {| code := code r; hostId := hostId r; state := state r; stage := stage r;
     dealerSeat := dealerSeat r; smallBlind := smallBlind r;
     bigBlind := bigBlind r; pot := pot r; community := community r;
     deck := deck r; currentSeat := currentSeat r;
     currentBet := currentBet r; minRaise := minRaise r;
     lastAggressorSeat := lastAggressorSeat r; log := log r; winnerInfo := v;
     players := players r |}.

Definition set_players (v : list Player) (r : Room) : Room :=
  {| code := code r; hostId := hostId r; state := state r; stage := stage r;
     dealerSeat := dealerSeat r; smallBlind := smallBlind r;
     bigBlind := bigBlind r; pot := pot r; community := community r;
     deck := deck r; currentSeat := currentSeat r;
     currentBet := currentBet r; minRaise := minRaise r;
     lastAggressorSeat := lastAggressorSeat r; log := log r;
     winnerInfo := winnerInfo r; players := v |}.


(** Timers armed with [setTimeout]. [ShowdownTimer] is the 3000 ms callback
    that resolves the showdown and arms the 3500 ms [NextHandTimer]; the
    flag tells the copy of the callback written in the disconnect handler
    (which clears [folded] for everybody) from the other three copies (which
    fold players without chips). *)
Inductive Timer :=
  | ShowdownTimer (fromDisconnect : bool)
  | NextHandTimer (fromDisconnect : bool).

(** ** Small helpers *)

Fixpoint findIndex {A} (f : A -> bool) (l : list A) : option nat :=
  match l with
  | [] => None
  | x :: l' => if f x then Some O else S <$> findIndex f l'
  end.

(** Positions of the elements that satisfy [f], counted from [k]. *)
Fixpoint indexesFrom {A} (f : A -> bool) (k : nat) (l : list A) : list nat :=
  match l with
  | [] => []
  | x :: l' =>
      if f x then k :: indexesFrom f (S k) l' else indexesFrom f (S k) l'
  end.

Definition sumZ (l : list Z) : Z := fold_right Z.add 0 l.

(** [room.players.find(x => x.seat === seat)], as a position. *)
Definition findBySeat (room : Room) (s : option nat) : option nat :=
  match s with
  | None => None
  | Some s => findIndex (fun x => (seat x =? s)%nat) (players room)
  end.

(** [room.players.find(p => p.id === id)], as a position. *)
Definition findById (room : Room) (i : string) : option nat :=
  findIndex (fun x => String.eqb (pid x) i) (players room).

Definition updPlayer (room : Room) (i : nat) (f : Player -> Player) : Room :=
  set_players (alter f i (players room)) room.

(** ** Seat/turn resolver *)

Record Opts := mkOpts {
  includeFolded : bool;
  includeAllIn : bool;
  requireStack : bool
}.

Fixpoint scanSeats (ps : list Player) (opts : Opts) (from : nat) (n : nat)
  : option nat :=
  match n with
  | O => None
  | S n' =>
      let s := ((from + 1) mod MAX_PLAYERS)%nat in
      match List.find (fun x => (seat x =? s)%nat) ps with
      | None => scanSeats ps opts s n'
      | Some p =>
          if negb (includeFolded opts) && folded p then
            scanSeats ps opts s n'
          else if negb (includeAllIn opts) && allIn p then
            scanSeats ps opts s n'
          else if requireStack opts && (stack p <=? 0) then
            scanSeats ps opts s n'
          else Some s
      end
  end.

(** [nextActiveSeat(room, fromSeat, opts)]; a [null] seat counts as [0]
    in [seat + 1]. *)
Definition nextActiveSeat (room : Room) (fromSeat : option nat) (opts : Opts)
  : option nat :=
  if (length (players room) =? 0)%nat then None
  else scanSeats (players room) opts (default O fromSeat) MAX_PLAYERS.

Definition seatLe (a b : Player) : Prop := (seat a <= seat b)%nat.

#[global] Instance seatLe_dec : RelDecision seatLe.
Proof. intros a b. unfold seatLe. apply _. Defined.

(** [[...room.players].sort((a,b) => a.seat - b.seat)] *)
Definition seatedPlayers (room : Room) : list Player :=
  merge_sort seatLe (players room).

Definition activeSeats (room : Room) : list nat :=
  map seat (List.filter (fun p => 0 <? stack p) (seatedPlayers room)).

Definition addLog (room : Room) (msg : LogMsg) : Room :=
  let l := log room ++ [msg] in
  set_log (if (200 <? length l)%nat then tail l else l) room.

Definition assignSeat (room : Room) : option nat :=
  List.find
    (fun s => negb (existsb (Nat.eqb s) (map seat (players room))))
    (seq 0 MAX_PLAYERS).

(** ** Pot accountant: committing chips *)

(** The effect of [commitChips] on the player object, once [pay] is known. *)
Definition payChips (pay : Z) (p : Player) : Player :=
  let p := set_stack (stack p - pay) p in
  let p := set_betThisRound (betThisRound p + pay) p in
  let p := set_committed (committed p + pay) p in
  if stack p =? 0 then set_allIn true p else p.

(** [commitChips(room, player, wanted)]; reading [player.stack] of an
    undefined player throws. Returns the room and [pay]. *)
Definition commitChips (room : Room) (i : nat) (wanted : Z)
  : option (Room * Z) :=
  p ← players room !! i;
  let pay := Z.max 0 (Z.min wanted (stack p)) in
  Some (set_pot (pot room + pay) (updPlayer room i (payChips pay)), pay).

(** ** Hand lifecycle *)

(** The per-player reset of [resetForNewHand] (and of the timer callbacks
    that return a room to the lobby). *)
Definition resetPlayer (p : Player) : Player :=
  set_lastAction None
    (set_hasActed false
      (set_hole []
        (set_committed 0
          (set_betThisRound 0
            (set_allIn false
              (set_folded (stack p <=? 0) p)))))).

Definition resetForNewHand (rnd : nat -> nat) (room : Room) : Room :=
  let room := set_state Hand room in
  let room := set_stage Preflop room in
  let room := set_community [] room in
  let room := set_deck (freshDeck rnd) room in
  let room := set_pot 0 room in
  let room := set_currentBet 0 room in
  let room := set_minRaise (bigBlind room) room in
  let room := set_lastAggressorSeat None room in
  let room := set_currentSeat None room in
  let room := set_winnerInfo None room in
  set_players (map resetPlayer (players room)) room.

Definition canAct (p : Player) : bool := negb (folded p) && negb (allIn p).

Definition bettingOpts : Opts := mkOpts false false false.
Definition actorOpts : Opts := mkOpts false false true.
Definition dealOpts : Opts := mkOpts true true true.

Definition startBettingRound (room : Room) : Room :=
  let room := set_currentBet 0 room in
  let room := set_minRaise (bigBlind room) room in
  let room := set_lastAggressorSeat None room in
  let room :=
    set_players
      (map (fun p =>
              if canAct p then set_hasActed false (set_betThisRound 0 p)
              else p)
           (players room)) room in
  let first := nextActiveSeat room (dealerSeat room) bettingOpts in
  addLog (set_currentSeat first room) (MsgBettingStarts first).

Definition shouldEndBettingRound (room : Room) : bool :=
  let ps := List.filter canAct (players room) in
  if (length ps =? 0)%nat then true
  else
    let allMatched := forallb (fun p => betThisRound p =? currentBet room) ps in
    let allActed := forallb hasActed ps in
    allMatched && allActed.

Definition countNotFolded (room : Room) : nat :=
  length (List.filter (fun p => negb (folded p)) (players room)).

(** [loneSurvivor(room)]: the one player that has not folded, or [null]. *)
Definition loneSurvivor (room : Room) : option nat :=
  match indexesFrom (fun p => negb (folded p)) O (players room) with
  | [i] => Some i
  | _ => None
  end.

(** One iteration of the dealing loop: the player on [s], if any and if
    [stack >= 0], receives the top card. *)
Definition dealOne (room : Room) (s : option nat) : Room :=
  match findBySeat room s with
  | None => room
  | Some i =>
      match players room !! i with
      | None => room
      | Some p =>
          if 0 <=? stack p then
            let '(c, d) := pop (deck room) in
            set_deck d (updPlayer room i (fun p => set_hole (hole p ++ [c]) p))
          else room
      end
  end.

(** The inner loop [for (i = 0; i < seats.length; i++)]. *)
Fixpoint dealPass (n : nat) (room : Room) (s : option nat)
  : Room * option nat :=
  match n with
  | O => (room, s)
  | S n' =>
      let room := dealOne room s in
      dealPass n' room (nextActiveSeat room s dealOpts)
  end.

Definition dealHoleCards (room : Room) : Room :=
  let seats := activeSeats room in
  if (length seats <? 2)%nat then room
  else
    let s := nextActiveSeat room (dealerSeat room) dealOpts in
    let '(room, s) := dealPass (length seats) room s in
    let '(room, _) := dealPass (length seats) room s in
    room.

(** [postBlinds(room)]: the room, and the returned object
    [{ sbSeat, bbSeat }] or [undefined] (inner [None]). *)
Definition postBlinds (room : Room)
  : option (Room * option (option nat * option nat)) :=
  let seats := activeSeats room in
  if (length seats <? 2)%nat then Some (room, None)
  else
    let sbSeat :=
      if (length seats =? 2)%nat then dealerSeat room
      else nextActiveSeat room (dealerSeat room) dealOpts in
    let bbSeat := nextActiveSeat room sbSeat dealOpts in
    sb ← findBySeat room sbSeat;
    bb ← findBySeat room bbSeat;
    '(room, _) ← commitChips room sb (smallBlind room);
    '(room, _) ← commitChips room bb (bigBlind room);
    sbP ← players room !! sb;
    bbP ← players room !! bb;
    let room := set_currentBet (Z.max (betThisRound sbP) (betThisRound bbP)) room in
    let room := set_minRaise (bigBlind room) room in
    let room := set_lastAggressorSeat bbSeat room in
    let room :=
      set_players
        (map (fun p => if canAct p then set_hasActed false p else p)
             (players room)) room in
    let room := addLog room (MsgBlindsPosted sbSeat bbSeat (smallBlind room) (bigBlind room)) in
    Some (room, Some (sbSeat, bbSeat)).

Definition firstToActPreflop (room : Room) (bbSeat : option nat)
  : option nat :=
  let seats := activeSeats room in
  if (length seats =? 2)%nat then dealerSeat room
  else nextActiveSeat room bbSeat actorOpts.

(** [advanceStage(room)]: the room and the timers it arms. *)
Definition advanceStage (room : Room) : Room * list Timer :=
  match stage room with
  | Preflop =>
      let room := set_stage Flop room in
      let '(c1, d) := pop (deck room) in
      let '(c2, d) := pop d in
      let '(c3, d) := pop d in
      let room := set_community (community room ++ [c1; c2; c3]) (set_deck d room) in
      let room := addLog room (MsgFlop (community room)) in
      (startBettingRound room, [])
  | Flop =>
      let room := set_stage Turn room in
      let '(c, d) := pop (deck room) in
      let room := set_community (community room ++ [c]) (set_deck d room) in
      let room := addLog room (MsgTurn (community room !! 3%nat)) in
      (startBettingRound room, [])
  | Turn =>
      let room := set_stage River room in
      let '(c, d) := pop (deck room) in
      let room := set_community (community room ++ [c]) (set_deck d room) in
      let room := addLog room (MsgRiver (community room !! 4%nat)) in
      (startBettingRound room, [])
  | River =>
      let room := set_state Reveal room in
      let room := set_currentSeat None room in
      let room := addLog room MsgReveal in
      (room, [ShowdownTimer false])
  end.

(** ** Side pots *)

Record Pot := mkPot {
  amount : Z;
  eligible : list string
}.

(** [[...new Set(xs)]]: the distinct values, in order of first occurrence. *)
Definition setOf (xs : list Z) : list Z :=
  fold_left (fun acc x => if existsb (Z.eqb x) acc then acc else acc ++ [x])
            xs [].

(** The loop [for (const level of levels)] with its running [prev]. *)
Fixpoint potsFrom (contrib : list Player) (prev : Z) (levels : list Z)
  : list Pot :=
  match levels with
  | [] => []
  | level :: rest =>
      let inThis := List.filter (fun p => level <=? committed p) contrib in
      let amount := (level - prev) * Z.of_nat (length inThis) in
      let eligible :=
        map pid (List.filter (fun p => negb (folded p)) inThis) in
      mkPot amount eligible :: potsFrom contrib level rest
  end.

Definition buildSidePots (players : list Player) : list Pot :=
  let contrib := List.filter (fun p => 0 <? committed p) players in
  if (length contrib =? 0)%nat then []
  else
    let levels := merge_sort Z.le (setOf (map committed contrib)) in
    potsFrom contrib 0 levels.

(** ** JavaScript [Map] with string keys, in insertion order *)

Fixpoint mapGet {V} (k : string) (m : list (string * V)) : option V :=
  match m with
  | [] => None
  | (k', v) :: m' => if String.eqb k' k then Some v else mapGet k m'
  end.

Fixpoint mapSet {V} (k : string) (v : V) (m : list (string * V))
  : list (string * V) :=
  match m with
  | [] => [(k, v)]
  | (k', v') :: m' =>
      if String.eqb k' k then (k, v) :: m' else (k', v') :: mapSet k v m'
  end.

(** [payouts.set(k, (payouts.get(k) || 0) + x)] *)
Definition mapAdd (k : string) (x : Z) (m : list (string * Z))
  : list (string * Z) :=
  mapSet k (default 0 (mapGet k m) + x) m.

(** ** Showdown *)

Section Showdown.

(** The external evaluator: [strength cards] stands for the rank that
    [Hand.solve(cards)] computes, larger is better, equal is a tie. *)
Variable strength : list Card -> nat.

(** Modelled from the spec: [Hand.winners] of package pokersolver is not
    part of the repository; it returns the subset of the given hands that
    achieves the maximum rank, ties included. *)
Definition bestStrength (hands : list (list Card)) : nat :=
  fold_right Nat.max O (map strength hands).

Definition handWins (hands : list (list Card)) (h : list Card) : bool :=
  (strength h =? bestStrength hands)%nat.

(** [solvedById]: the solved hand of every player that has not folded. *)
Definition solveHands (room : Room) : list (string * list Card) :=
  fold_left
    (fun m p =>
       if folded p then m
       else mapSet (pid p) (community room ++ hole p) m)
    (players room) [].

Definition prettyName (room : Room) (i : string) : string :=
  match List.find (fun p => String.eqb (pid p) i) (players room) with
  | Some p => name p
  | None => i
  end.

(** The state threaded through the loop over the pots: the payouts, the
    notes for the log, and the first winner record. *)
Record Tally := mkTally {
  payouts : list (string * Z);
  notes : list LogMsg;
  firstWin : option WinnerInfo
}.

(** One iteration of [for (const pot of pots)]. With no winner the
    division is by zero and nothing is paid. *)
Definition settlePot (room : Room) (solved : list (string * list Card))
           (t : Tally) (pot : Pot) : Tally :=
  let elig :=
    List.filter (fun i => bool_decide (is_Some (mapGet i solved)))
                (eligible pot) in
  if (length elig =? 0)%nat then t
  else
    let entries := map (fun i => (i, default [] (mapGet i solved))) elig in
    let hands := map snd entries in
    let potWinners :=
      map fst (List.filter (fun e => handWins hands (snd e)) entries) in
    let n := Z.of_nat (length potWinners) in
    let share := amount pot / n in
    let remainder := amount pot - share * n in
    let paid :=
      fold_left (fun m wid => mapAdd wid share m) potWinners (payouts t) in
    let paid :=
      match potWinners with
      | w0 :: _ => if 0 <? remainder then mapAdd w0 remainder paid else paid
      | [] => paid
      end in
    mkTally paid
      (notes t ++ [MsgPotNote (amount pot) (map (prettyName room) potWinners)])
      (match firstWin t with
       | None => Some (mkWinnerInfo potWinners (amount pot))
       | w => w
       end).

(** [for (const [id, amt] of payouts.entries())] *)
Definition applyPayout (room : Room) (e : string * Z) : Room :=
  match findById room (fst e) with
  | Some i => updPlayer room i (fun p => set_stack (stack p + snd e) p)
  | None => room
  end.

Definition resolveShowdown (room : Room) : Room :=
  let pots := buildSidePots (players room) in
  let solved := solveHands room in
  let t := fold_left (settlePot room solved) pots (mkTally [] [] None) in
  let room := fold_left applyPayout (payouts t) room in
  let room :=
    fold_left
      (fun r p => if folded p then r else addLog r (MsgShows (name p) (hole p)))
      (players room) room in
  let room := fold_left addLog (notes t) room in
  match firstWin t with
  | Some w => set_winnerInfo (Some w) room
  | None => room
  end.

End Showdown.

(** [awardPotTo(room, player)]: the room and the timer it arms. *)
Definition awardPotTo (room : Room) (i : nat) : option (Room * list Timer) :=
  p ← players room !! i;
  let room := updPlayer room i (fun p => set_stack (stack p + pot room) p) in
  let room := addLog room (MsgWinsPot (name p) (pot room)) in
  let room := set_state Reveal room in
  let room := set_currentSeat None room in
  let room := set_winnerInfo (Some (mkWinnerInfo [pid p] (pot room))) room in
  Some (room, [ShowdownTimer false]).

Definition beginHand (rnd : nat -> nat) (room : Room) : option Room :=
  let seats := activeSeats room in
  if (length seats <? 2)%nat then
    Some (addLog (set_state Lobby room) MsgNeedTwo)
  else
    let room :=
      match dealerSeat room with
      | None => set_dealerSeat (head seats) room
      | Some d =>
          if existsb (Nat.eqb d) seats then
            set_dealerSeat (nextActiveSeat room (Some d) dealOpts) room
          else set_dealerSeat (head seats) room
      end in
    let room := resetForNewHand rnd room in
    '(room, blinds) ← postBlinds room;
    '(_, bbSeat) ← blinds;
    let room := dealHoleCards room in
    let room := set_currentSeat (firstToActPreflop room bbSeat) room in
    Some (addLog room (MsgHandStarted (dealerSeat room) (currentSeat room))).

Definition moveToNextActor (room : Room) : Room :=
  set_currentSeat (nextActiveSeat room (currentSeat room) actorOpts) room.

(** ** Betting round engine: [handlePlayerAction] *)

(** The [action] argument as JavaScript sees it: a string, a falsy value
    (for which [(action || "")] is the empty string), or a truthy value
    without a [toLowerCase] method (calling it throws a [TypeError]). *)
Inductive ActionArg :=
  | ActString (s : string)
  | ActFalsy
  | ActOther.

Definition toLowerChar (c : Ascii.ascii) : Ascii.ascii :=
  let n := Ascii.nat_of_ascii c in
  if ((65 <=? n) && (n <=? 90))%nat then Ascii.ascii_of_nat (n + 32) else c.

(** [String.prototype.toLowerCase], on ASCII strings. *)
Fixpoint toLowerCase (s : string) : string :=
  match s with
  | EmptyString => EmptyString
  | String c s' => String (toLowerChar c) (toLowerCase s')
  end.

(** [(action || "").toLowerCase()] *)
Definition actionWord (a : ActionArg) : option string :=
  match a with
  | ActString s => Some (toLowerCase s)
  | ActFalsy => Some EmptyString
  | ActOther => None
  end.

(** The loop that reopens the action for everybody but the raiser. *)
Definition resetOthers (room : Room) (p : Player) : Room :=
  set_players
    (map (fun other =>
            if String.eqb (pid other) (pid p) then other
            else if folded other || allIn other then other
            else set_hasActed false other)
         (players room)) room.

(** The block [if (total > prevBet) { ... }] shared by the all-in and the
    bet/raise branches. *)
Definition raiseTo (room : Room) (p : Player) (total prevBet : Z) : Room :=
  if prevBet <? total then
    let room := set_currentBet total room in
    let raiseSize := total - prevBet in
    let room :=
      if minRaise room <=? raiseSize then set_minRaise raiseSize room
      else room in
    let room := set_lastAggressorSeat (Some (seat p)) room in
    resetOthers room p
  else room.

(** The branches of the handler. The outer [option] is an exception, the
    inner one is [None] when the branch returns without acting. The player
    [p] is the object at position [i] on entry. *)

Definition actFold (room : Room) (i : nat) (p : Player) : Room :=
  let room :=
    updPlayer room i
      (fun p => set_lastAction (Some LaFold)
                  (set_hasActed true (set_folded true p))) in
  addLog room (MsgFolds (name p)).

Definition actCheck (room : Room) (i : nat) (p : Player) : Room :=
  let room :=
    updPlayer room i
      (fun p => set_lastAction (Some LaCheck) (set_hasActed true p)) in
  addLog room (MsgChecks (name p)).

Definition actCall (room : Room) (i : nat) (p : Player) (callAmount : Z)
  : option Room :=
  if callAmount =? 0 then Some (actCheck room i p)
  else
    '(room, paid) ← commitChips room i callAmount;
    p' ← players room !! i;
    let room :=
      updPlayer room i
        (fun p => set_lastAction (Some (LaCall (allIn p) paid))
                    (set_hasActed true p)) in
    Some (addLog room (MsgCalls (name p) paid (allIn p'))).

Definition actAllIn (room : Room) (i : nat) (p : Player)
  : option (option Room) :=
  let desiredTotal := betThisRound p + stack p in
  if desiredTotal <=? 0 then Some None
  else
    let prevBet := currentBet room in
    let toPay := Z.min (stack p) (Z.max 0 (desiredTotal - betThisRound p)) in
    if toPay <=? 0 then Some None
    else
      '(room, _) ← commitChips room i toPay;
      let room := raiseTo room p desiredTotal prevBet in
      let room :=
        updPlayer room i
          (fun p => set_lastAction (Some (LaAllIn (currentBet room)))
                      (set_hasActed true p)) in
      Some (Some (addLog room (MsgAllIn (name p) (currentBet room)))).

(** [amount] stands for [Math.floor(Number(amount) || 0)]; an infinite
    amount behaves as one beyond the player's chips. *)
Definition actBetRaise (room : Room) (i : nat) (p : Player) (isRaise : bool)
           (amount : Z) : option (option Room) :=
  let desiredTotal := amount in
  if desiredTotal <=? 0 then Some None
  else
    let prevBet := currentBet room in
    let minTo :=
      if prevBet =? 0 then bigBlind room else prevBet + minRaise room in
    let maxTotalPossible := betThisRound p + stack p in
    let clamped := Z.min desiredTotal maxTotalPossible in
    if (clamped <? minTo) && negb (clamped =? maxTotalPossible) then Some None
    else
      let toPay := clamped - betThisRound p in
      if toPay <=? 0 then Some None
      else
        '(room, _) ← commitChips room i toPay;
        let room := raiseTo room p clamped prevBet in
        p' ← players room !! i;
        let room :=
          updPlayer room i
            (fun p => set_lastAction
                        (Some (LaBet isRaise (allIn p) (currentBet room)))
                        (set_hasActed true p)) in
        Some (Some (addLog room
                      (MsgBets (name p) (negb (prevBet =? 0))
                               (currentBet room) (allIn p')))).

Definition applyAction (room : Room) (i : nat) (p : Player) (word : string)
           (amount : Z) : option (option Room) :=
  let callAmount := Z.max 0 (currentBet room - betThisRound p) in
  if String.eqb word "fold" then Some (Some (actFold room i p))
  else if String.eqb word "check" then
    if negb (callAmount =? 0) then Some None
    else Some (Some (actCheck room i p))
  else if String.eqb word "call" then Some <$> actCall room i p callAmount
  else if String.eqb word "all-in" then actAllIn room i p
  else if String.eqb word "bet" then actBetRaise room i p false amount
  else if String.eqb word "raise" then actBetRaise room i p true amount
  else Some None.

Definition stillCanAct (room : Room) : bool :=
  existsb (fun x => negb (folded x) && negb (allIn x) && (0 <=? stack x))
          (players room).

(** One turn of the run-out loop, past its [break] tests. *)
Definition runOutStreet (room : Room) : Room :=
  match stage room with
  | Preflop =>
      let '(c1, d) := pop (deck room) in
      let '(c2, d) := pop d in
      let '(c3, d) := pop d in
      let room := set_community (community room ++ [c1; c2; c3]) (set_deck d room) in
      let room := addLog room (MsgFlop (community room)) in
      set_stage Flop room
  | Flop =>
      let '(c, d) := pop (deck room) in
      let room := set_community (community room ++ [c]) (set_deck d room) in
      let room := addLog room (MsgTurn (community room !! 3%nat)) in
      set_stage Turn room
  | Turn =>
      let '(c, d) := pop (deck room) in
      let room := set_community (community room ++ [c]) (set_deck d room) in
      let room := addLog room (MsgRiver (community room !! 4%nat)) in
      set_stage River room
  | River =>
      let room := set_state Reveal room in
      let room := set_currentSeat None room in
      addLog room MsgReveal
  end.

(** [while (room.state === "hand") { ... }]: when nobody can act any more
    the remaining streets are dealt back to back. Each turn moves the stage
    forward, so four turns always suffice. *)
Fixpoint runOut (fuel : nat) (room : Room) : Room :=
  match fuel with
  | O => room
  | S fuel' =>
      if bool_decide (state room = Hand) then
        if stillCanAct room then room
        else
          let room := runOutStreet room in
          if bool_decide (state room = Showdown) then room
          else runOut fuel' room
      else room
  end.

(** What follows the branches: lone survivor, round closure, next actor. *)
Definition afterAction (room : Room) : option (Room * list Timer) :=
  match loneSurvivor room with
  | Some s => awardPotTo room s
  | None =>
      if shouldEndBettingRound room then
        let room := runOut 4 room in
        let '(room, armed) :=
          if bool_decide (state room = Hand) then advanceStage room
          else (room, []) in
        if bool_decide (state room = Reveal) then
          Some (room, armed ++ [ShowdownTimer false])
        else Some (room, armed)
      else Some (moveToNextActor room, [])
  end.

Definition handlePlayerAction (room : Room) (i : nat) (action : ActionArg)
           (amount : Z) : option (Room * list Timer) :=
  match players room !! i with
  | None => Some (room, [])
  | Some p =>
      if negb (bool_decide (state room = Hand)) then Some (room, [])
      else
        match currentSeat room with
        | None => Some (room, [])
        | Some cs =>
            if negb (seat p =? cs)%nat then Some (room, [])
            else if folded p || allIn p then Some (room, [])
            else
              word ← actionWord action;
              acted ← applyAction room i p word amount;
              match acted with
              | None => Some (room, [])
              | Some room' => afterAction room'
              end
        end
  end.

(** ** The server: socket handlers and timer callbacks *)

Definition newPlayer (sock nm : string) (s : nat) (isBot : bool) : Player :=
  {| pid := sock; name := nm; seat := s; stack := STARTING_STACK;
     connected := true; folded := false; allIn := false; betThisRound := 0;
     committed := 0; hole := []; hasActed := false; lastAction := None;
     bot := isBot |}.

Definition createLobby (c sock nm : string) : Room :=
  let room :=
    {| code := c; hostId := sock; state := Lobby; stage := Preflop;
       dealerSeat := Some O; smallBlind := 10; bigBlind := 20; pot := 0;
       community := []; deck := []; currentSeat := None; currentBet := 0;
       minRaise := 20; lastAggressorSeat := None; log := [];
       winnerInfo := None; players := [newPlayer sock nm O false] |} in
  addLog room (MsgCreated nm).

Definition joinLobby (room : Room) (sock nm : string) : Room :=
  if (MAX_PLAYERS <=? length (players room))%nat then room
  else if negb (bool_decide (state room = Lobby)) then room
  else
    match assignSeat room with
    | None => room
    | Some s =>
        let room := set_players (players room ++ [newPlayer sock nm s false]) room in
        addLog room (MsgJoined nm s)
    end.

(** [setBlinds]: an argument is [None] when [Number(x)] is [0] or [NaN]
    (the room's blind is used instead), and otherwise its floor. *)
Definition setBlinds (room : Room) (sock : string) (sb bb : option Z) : Room :=
  if negb (String.eqb sock (hostId room)) then room
  else
    let sb := Z.max 1 (default (smallBlind room) sb) in
    let bb := Z.max (sb + 1) (default (bigBlind room) bb) in
    addLog (set_bigBlind bb (set_smallBlind sb room)) (MsgBlindsSet sb bb).

Definition startGame (rnd : nat -> nat) (room : Room) (sock : string)
  : option Room :=
  if negb (String.eqb sock (hostId room)) then Some room
  else if negb (bool_decide (state room = Lobby))
          && negb (bool_decide (state room = Showdown)) then Some room
  else beginHand rnd (addLog room MsgGameStarted).

Definition addBot (room : Room) (sock botId botName : string) : Room :=
  if negb (String.eqb sock (hostId room)) then room
  else
    match assignSeat room with
    | None => room
    | Some s =>
        let room := set_players (players room ++ [newPlayer botId botName s true]) room in
        addLog room (MsgBotJoined botName s)
    end.

(** [chat]: [message] is the trimmed, truncated text. *)
Definition chat (room : Room) (sock message : string) : Room :=
  match findById room sock with
  | None => room
  | Some i =>
      match players room !! i with
      | None => room
      | Some p =>
          if stack p <=? 0 then room
          else if String.eqb message "" then room
          else addLog room (MsgChat (name p) message)
      end
  end.

Definition playerAction (room : Room) (sock : string) (action : ActionArg)
           (amount : Z) : option (Room * list Timer) :=
  match findById room sock with
  | None => Some (room, [])
  | Some i => handlePlayerAction room i action amount
  end.

(** The callback armed by [scheduleBotIfNeeded]; [r1] and [r2] are the
    outcomes of [Math.random() < 0.35] and [Math.random() < 0.25]. *)
Definition botTurn (room : Room) (r1 r2 : bool) : option (Room * list Timer) :=
  match findBySeat room (currentSeat room) with
  | None => Some (room, [])
  | Some i =>
      match players room !! i with
      | None => Some (room, [])
      | Some b =>
          if folded b || allIn b then Some (room, [])
          else
            let callAmount := Z.max 0 (currentBet room - betThisRound b) in
            if callAmount =? 0 then
              if r1 && (bigBlind room <? stack b) then
                let desired :=
                  Z.min (betThisRound b + bigBlind room)
                        (betThisRound b + stack b) in
                handlePlayerAction room i (ActString "bet") desired
              else handlePlayerAction room i (ActString "call") 0
            else if (callAmount <=? Z.max 1 (stack b / 4)) || r2 then
              handlePlayerAction room i (ActString "call") 0
            else handlePlayerAction room i (ActString "fold") 0
      end
  end.

(** The world of one room code: [rooms.get(code)] and the pending timers. *)
Record World := mkWorld {
  rooms : option Room;
  pending : list Timer
}.

Inductive Event :=
  | CreateLobby (c sock nm : string)
  | JoinLobby (sock nm : string)
  | SetBlinds (sock : string) (sb bb : option Z)
  | StartGame (sock : string) (rnd : nat -> nat)
  | AddBot (sock botId botName : string)
  | Chat (sock message : string)
  | PlayerAction (sock : string) (action : ActionArg) (amount : Z)
  | BotTurn (r1 r2 : bool)
  | Disconnect (sock : string)
  | Fire (k : nat) (rnd : nat -> nat).

Section Server.

Variable strength : list Card -> nat.

(** The 3500 ms callback: back to the lobby, then a new hand if two
    players have chips. *)
Definition nextHandTimer (fromDisconnect : bool) (rnd : nat -> nat)
           (room : Room) : option Room :=
  let room := set_state Lobby room in
  let room := set_stage Preflop room in
  let room :=
    set_players
      (map (fun pl =>
              if fromDisconnect then set_folded false (resetPlayer pl)
              else resetPlayer pl)
           (players room)) room in
  let seats := activeSeats room in
  if (2 <=? length seats)%nat then beginHand rnd (set_state Hand room)
  else Some (addLog room MsgWaitingTwo).

(** The 3000 ms callback. *)
Definition showdownTimer (room : Room) : Room :=
  let room := resolveShowdown strength room in
  let room := set_state Showdown room in
  set_currentSeat None room.

(** The [disconnect] handler on a room that holds the socket's player at
    position [idx]: the room ([None] once deleted) and the timers armed. *)
Definition disconnect (room : Room) (sock : string) (idx : nat) (p : Player)
  : option (option Room * list Timer) :=
  let room := updPlayer room idx (set_connected false) in
  let room := addLog room (MsgDisconnected (name p)) in
  '(room, armed) ←
    (if bool_decide (state room = Lobby) then
       let room := set_players (delete idx (players room)) room in
       Some (addLog room (MsgLeftLobby (name p)), [])
     else if bool_decide (state room = Hand)
             && bool_decide (currentSeat room = Some (seat p))
             && negb (folded p) && negb (allIn p) then
       let room :=
         updPlayer room idx
           (fun p => set_lastAction (Some LaDisconnectFold)
                       (set_hasActed true (set_folded true p))) in
       let room := addLog room (MsgAutoFold (name p)) in
       match loneSurvivor room with
       | Some s => awardPotTo room s
       | None =>
           if shouldEndBettingRound room then
             let '(room, armed) := advanceStage room in
             if bool_decide (state room = Reveal) then
               Some (room, armed ++ [ShowdownTimer true])
             else if bool_decide (state room = Showdown) then
               Some (resolveShowdown strength room, armed)
             else Some (room, armed)
           else Some (moveToNextActor room, [])
       end
     else Some (room, []));
  let room :=
    if String.eqb (hostId room) sock then
      match players room with
      | h :: _ => addLog (set_hostId (pid h) room) (MsgNewHost (name h))
      | [] => room
      end
    else room in
  if (length (players room) =? 0)%nat then Some (None, armed)
  else Some (Some room, armed).

(** Firing the [k]-th pending timer. *)
Definition fire (w : World) (k : nat) (rnd : nat -> nat) : option World :=
  match pending w !! k with
  | None => Some w
  | Some t =>
      let rest := delete k (pending w) in
      match rooms w with
      | None => Some (mkWorld None rest)
      | Some room =>
          match t with
          | ShowdownTimer d =>
              Some (mkWorld (Some (showdownTimer room))
                            (rest ++ [NextHandTimer d]))
          | NextHandTimer d =>
              room ← nextHandTimer d rnd room;
              Some (mkWorld (Some room) rest)
          end
      end
  end.

(** One event of the server, on the world of one room code. [None] is an
    uncaught exception. *)
Definition step (w : World) (e : Event) : option World :=
  match e, rooms w with
  | Fire k rnd, _ => fire w k rnd
  | CreateLobby c sock nm, None =>
      Some (mkWorld (Some (createLobby c sock nm)) (pending w))
  | _, None => Some w
  | CreateLobby _ _ _, Some _ => Some w
  | JoinLobby sock nm, Some room =>
      Some (mkWorld (Some (joinLobby room sock nm)) (pending w))
  | SetBlinds sock sb bb, Some room =>
      Some (mkWorld (Some (setBlinds room sock sb bb)) (pending w))
  | StartGame sock rnd, Some room =>
      room ← startGame rnd room sock;
      Some (mkWorld (Some room) (pending w))
  | AddBot sock botId botName, Some room =>
      Some (mkWorld (Some (addBot room sock botId botName)) (pending w))
  | Chat sock message, Some room =>
      Some (mkWorld (Some (chat room sock message)) (pending w))
  | PlayerAction sock action amount, Some room =>
      '(room, armed) ← playerAction room sock action amount;
      Some (mkWorld (Some room) (pending w ++ armed))
  | BotTurn r1 r2, Some room =>
      '(room, armed) ← botTurn room r1 r2;
      Some (mkWorld (Some room) (pending w ++ armed))
  | Disconnect sock, Some room =>
      match findById room sock with
      | None => Some w
      | Some idx =>
          p ← players room !! idx;
          '(room, armed) ← disconnect room sock idx p;
          Some (mkWorld room (pending w ++ armed))
      end
  end.

Definition initialWorld : World := mkWorld None [].

Fixpoint run (w : World) (es : list Event) : option World :=
  match es with
  | [] => Some w
  | e :: es' => w' ← step w e; run w' es'
  end.

Inductive reachable : World -> Prop :=
  | reach_init : reachable initialWorld
  | reach_step w e w' :
      reachable w -> step w e = Some w' -> reachable w'.

End Server.

(** ** Vocabulary of the specification *)

(** The levels of a player list: its distinct positive committed amounts,
    in ascending order. *)
Definition levelsOf (players : list Player) (levels : list Z) : Prop :=
  StronglySorted Z.lt levels /\
  forall x, In x levels <-> 0 < x /\ exists p, In p players /\ committed p = x.

(** The pot of level [L] with predecessor [P]. *)
Definition potAt (players : list Player) (P L : Z) : Pot :=
  let inThis := List.filter (fun p => L <=? committed p) players in
  mkPot ((L - P) * Z.of_nat (length inThis))
        (map pid (List.filter (fun p => negb (folded p)) inThis)).

(** The predecessor of the [k]-th level. *)
Definition levelBefore (levels : list Z) (k : nat) : Z :=
  match k with
  | O => 0
  | S k' => default 0 (levels !! k')
  end.

(** A player that has committed [c] chips and has not folded. *)
Definition contributor (i : string) (s : nat) (c : Z) : Player :=
  {| pid := i; name := i; seat := s; stack := STARTING_STACK - c;
     connected := true; folded := false; allIn := false; betThisRound := 0;
     committed := c; hole := []; hasActed := true; lastAction := None;
     bot := false |}.

Definition committed_100_100_300 : list Player :=
  [contributor "A" 0 100; contributor "B" 1 100; contributor "C" 2 300].

Definition committed_100_300_300 : list Player :=
  [contributor "A" 0 100; contributor "B" 1 300; contributor "C" 2 300].

(** ** Example runs *)

(** Draws that leave the deck in its initial order ([j = i] at each step). *)
Definition noShuffle (i : nat) : nat := i.

(** Ann creates a lobby, Bob joins, Ann starts the game: a heads-up hand
    with blinds 10/20 and Bob on the button. *)
Definition headsUpStart : list Event :=
  [CreateLobby "ROOM" "a" "Ann"; JoinLobby "b" "Bob"; StartGame "a" noShuffle].

(** The hand [headsUpStart] leads to (the evaluator plays no part in it). *)
Definition headsUpHand : Room :=
  Eval vm_compute in
    default (createLobby "ROOM" "a" "Ann")
            (w ← run (fun _ => O) initialWorld headsUpStart; rooms w).

(** The total of the players' stacks. *)
Definition totalStacks (room : Room) : Z := sumZ (map stack (players room)).

(** A stand-in for the external evaluator in the example runs: a hand is
    worth the sum of the ranks of its cards. *)
Definition rankValue (r : Rank) : nat :=
  match r with
  | R2 => 2 | R3 => 3 | R4 => 4 | R5 => 5 | R6 => 6 | R7 => 7 | R8 => 8
  | R9 => 9 | RT => 10 | RJ => 11 | RQ => 12 | RK => 13 | RA => 14
  end.

Definition cardValue (c : Card) : nat :=
  match c with
  | Face r _ => rankValue r
  | Undefined => O
  end.

Definition rankSum (cards : list Card) : nat :=
  fold_right Nat.add O (map cardValue cards).

(** Three players; Bob moves all-in before the flop, Cy calls, Ann folds;
    the showdown timer and then the next-hand timer fire. *)
Definition threeWayBust : list Event :=
  [CreateLobby "ROOM" "a" "Ann"; JoinLobby "b" "Bob"; JoinLobby "c" "Cy";
   StartGame "a" noShuffle;
   PlayerAction "b" (ActString "all-in") 0;
   PlayerAction "c" (ActString "call") 0;
   PlayerAction "a" (ActString "fold") 0;
   Fire 0 noShuffle; Fire 0 noShuffle].

(** The world [threeWayBust] leads to, under the stand-in evaluator. *)
Definition bustWorld : World :=
  Eval vm_compute in
    default initialWorld (run rankSum initialWorld threeWayBust).

(** The world after [headsUpStart]. *)
Definition headsUpWorld : World := mkWorld (Some headsUpHand) [].

(** The room of [bustWorld]: a hand in which Bob has no chips. *)
Definition bustRoom : Room :=
  Eval vm_compute in default headsUpHand (rooms bustWorld).

(** The hand that [beginHand] starts from [bustRoom]. *)
Definition afterBustHand : Room :=
  Eval vm_compute in default headsUpHand (beginHand noShuffle bustRoom).

(** Heads-up after [headsUpStart]: Bob completes the small blind, Ann
    checks, the flop comes, Ann bets 100. *)
Definition betOnFlop : list Event :=
  [PlayerAction "b" (ActString "call") 0;
   PlayerAction "a" (ActString "check") 0;
   PlayerAction "a" (ActString "bet") 100].

(** The chips in play: the stacks and the pot. *)
Definition chipsInPlay (room : Room) : Z := totalStacks room + pot room.

(** Heads-up after [headsUpStart]: Bob, on the button, folds; then the
    showdown timer fires. *)
Definition foldedWorld : World :=
  Eval vm_compute in
    default initialWorld
      (step rankSum headsUpWorld (PlayerAction "b" (ActString "fold") 0)).

Definition foldedShowdownWorld : World :=
  Eval vm_compute in
    default initialWorld (step rankSum foldedWorld (Fire 0 noShuffle)).

(** Heads-up after [headsUpStart] and [betOnFlop]; then Bob folds; then the
    showdown timer fires. *)
Definition betWorld : World :=
  Eval vm_compute in
    default initialWorld (run rankSum headsUpWorld betOnFlop).

Definition betFoldedWorld : World :=
  Eval vm_compute in
    default initialWorld
      (step rankSum betWorld (PlayerAction "b" (ActString "fold") 0)).

Definition betShowdownWorld : World :=
  Eval vm_compute in
    default initialWorld (step rankSum betFoldedWorld (Fire 0 noShuffle)).

(** The room of a world, for worlds that hold one. *)
Definition roomOf (w : World) : Room := default headsUpHand (rooms w).

(** The stack of the player at position [i]. *)
Definition stackAt (w : World) (i : nat) : option Z :=
  stack <$> players (roomOf w) !! i.

(** ** Invariants of a room *)

(** The hole cards of all players, and all the cards of the room. *)
Definition holeCards (room : Room) : list Card := flat_map hole (players room).

Definition cardsOf (room : Room) : list Card :=
  deck room ++ holeCards room ++ community room.

(** The number of board cards of each street. *)
Definition boardSize (s : Stage) : nat :=
  match s with
  | Preflop => 0
  | Flop => 3
  | Turn => 4
  | River => 5
  end.

(** Seats are distinct and within the table. *)
Definition seatsOk (room : Room) : Prop :=
  NoDup (map seat (players room)) /\
  Forall (fun p => (seat p < MAX_PLAYERS)%nat) (players room).

(** A player without chips is all-in, or sits out the hand: folded, with
    no hole cards. *)
Definition chiplessOk (p : Player) : Prop :=
  stack p <= 0 -> allIn p = true \/ (folded p = true /\ hole p = []).

(** Nobody on the current seat has folded. *)
Definition actorOk (room : Room) : Prop :=
  forall p s, In p (players room) -> currentSeat room = Some s ->
              seat p = s -> folded p = false.

Record RoomInv (room : Room) : Prop := mkRoomInv {
  inv_seats : seatsOk room;
  inv_chipless : state room = Hand -> Forall chiplessOk (players room);
  inv_actor : state room = Hand -> actorOk room;
  inv_cards :
    state room = Hand \/ state room = Reveal -> cardsOf room ≡ₚ orderedDeck;
  inv_board :
    state room = Hand ->
    length (community room) = boardSize (stage room) /\
    (length (holeCards room) <= 2 * MAX_PLAYERS)%nat
}.

Definition WorldInv (w : World) : Prop :=
  forall room, rooms w = Some room -> RoomInv room.

(** What a handler may do to a player while a hand is played: the seat, the
    identity and the hole cards stay, and a player without chips stays
    all-in or sitting out. *)
Definition acts (p p' : Player) : Prop :=
  seat p' = seat p /\ pid p' = pid p /\ hole p' = hole p /\
  (chiplessOk p -> chiplessOk p').

(** What the start of a hand does to a player. *)
Definition begun (p p' : Player) : Prop :=
  seat p' = seat p /\ pid p' = pid p /\
  folded p' = (stack p <=? 0) /\
  (stack p <= 0 ->
     stack p' = stack p /\ allIn p' = false /\ hole p' = []) /\
  chiplessOk p'.

(** The parts of the room that the betting branches leave alone. *)
Definition sameTable (room room' : Room) : Prop :=
  state room' = state room /\ stage room' = stage room /\
  deck room' = deck room /\ community room' = community room /\
  dealerSeat room' = dealerSeat room /\ currentSeat room' = currentSeat room.

(** The invariants that hold between the branches of the handler and the
    choice of the next actor. *)
Record TableInv (room : Room) : Prop := mkTableInv {
  tab_seats : seatsOk room;
  tab_chipless : Forall chiplessOk (players room);
  tab_cards : cardsOf room ≡ₚ orderedDeck;
  tab_board : length (community room) = boardSize (stage room);
  tab_holes : (length (holeCards room) <= 2 * MAX_PLAYERS)%nat
}.

(** What posting the blinds does to a player. *)
Definition blinded (q q' : Player) : Prop :=
  acts q q' /\ folded q' = folded q /\
  (stack q <= 0 -> stack q' = stack q /\ allIn q' = allIn q).

(** What dealing the hole cards does to a player. *)
Definition dealt (q q' : Player) : Prop :=
  seat q' = seat q /\ pid q' = pid q /\ folded q' = folded q /\
  stack q' = stack q /\ allIn q' = allIn q /\
  (stack q <= 0 -> hole q' = hole q).

(** The first player on seat [s], if any, has chips. *)
Definition fundedSeat (room : Room) (s : option nat) : Prop :=
  forall s0 x, s = Some s0 ->
    List.find (fun y => (seat y =? s0)%nat) (players room) = Some x ->
    0 < stack x.

(** The parts of the room that dealing leaves alone. *)
Definition sameStreet (room room' : Room) : Prop :=
  state room' = state room /\ stage room' = stage room /\
  community room' = community room /\ dealerSeat room' = dealerSeat room /\
  currentSeat room' = currentSeat room.

(** Two player records that differ only in bookkeeping. *)
Definition sameGame (p p' : Player) : Prop :=
  seat p' = seat p /\ hole p' = hole p /\ stack p' = stack p /\
  allIn p' = allIn p /\ folded p' = folded p.

(** C8 as the specification states it, for the server run with a given
    evaluator: in every reachable room a player with no chips is all-in. *)
Definition brokeMeansAllIn (strength : list Card -> nat) : Prop :=
  forall w room p,
    reachable strength w -> rooms w = Some room ->
    In p (players room) -> stack p = 0 -> allIn p = true.

(** The streets still to be dealt by the run-out loop, the reveal included. *)
Definition streetsLeft (s : Stage) : nat :=
  match s with
  | Preflop => 4
  | Flop => 3
  | Turn => 2
  | River => 1
  end.

(** ** Further helpers of the seat resolver *)

(** The loop of [nextSeat]: [seats.includes(seat)]. *)
Fixpoint scanTaken (seats : list nat) (from : nat) (n : nat) : option nat :=
  match n with
  | O => None
  | S n' =>
      let s := ((from + 1) mod MAX_PLAYERS)%nat in
      if existsb (Nat.eqb s) seats then Some s else scanTaken seats s n'
  end.

(** [nextSeat(room, fromSeat)]: the next seat that holds a player, folded
    or not. *)
Definition nextSeat (room : Room) (fromSeat : option nat) : option nat :=
  let seats := merge_sort Nat.le (map seat (players room)) in
  if (length seats =? 0)%nat then None
  else scanTaken seats (default O fromSeat) MAX_PLAYERS.

Definition actingPlayers (room : Room) : list Player :=
  List.filter (fun p => negb (folded p) && negb (allIn p) && (0 <? stack p))
              (players room).

Definition livePlayers (room : Room) : list Player :=
  List.filter (fun p => negb (folded p)) (players room).

(** [seatOfPlayer(room, playerId)]: the seat, or [null]. *)
Definition seatOfPlayer (room : Room) (playerId : string) : option nat :=
  seat <$> List.find (fun p => String.eqb (pid p) playerId) (players room).

(** The filters of [nextActiveSeat] on one player. *)
Definition passes (opts : Opts) (p : Player) : bool :=
  negb (negb (includeFolded opts) && folded p)
  && negb (negb (includeAllIn opts) && allIn p)
  && negb (requireStack opts && (stack p <=? 0)).

(** Seat [s] holds a player, and the first such player of the list passes
    the filters. *)
Definition passesAt (ps : list Player) (opts : Opts) (s : nat) : bool :=
  match List.find (fun x => (seat x =? s)%nat) ps with
  | Some p => passes opts p
  | None => false
  end.

Definition seatPasses (room : Room) (opts : Opts) (s : nat) : bool :=
  passesAt (players room) opts s.

(** The seat [k] steps clockwise from [from]; a [null] seat counts as 0. *)
Definition seatAfter (from : option nat) (k : nat) : nat :=
  ((default O from + k) mod MAX_PLAYERS)%nat.

(** Every filter switched off: any seated player will do. *)
Definition anyOpts : Opts := mkOpts true true false.

(** ** The dealing order on the eight seats *)

(** Which seats of the table pass the filters, seat by seat. *)
Definition seatMask (ps : list Player) (opts : Opts) : list bool :=
  map (passesAt ps opts) (seq 0 MAX_PLAYERS).

(** [nextActiveSeat] read on a mask of the passing seats. *)
Definition nextOn (m : list bool) (from : option nat) : option nat :=
  (fun k => ((default O from + k) mod MAX_PLAYERS)%nat)
  <$> List.find
        (fun k => nth ((default O from + k) mod MAX_PLAYERS)%nat m false)
        (seq 1 MAX_PLAYERS).

(** The seats that [n] turns of the dealing loop deal to, starting on [s],
    and the seat the loop stops on. *)
Fixpoint walk (m : list bool) (s : option nat) (n : nat)
  : list (option nat) * option nat :=
  match n with
  | O => ([], s)
  | S n' => let '(l, e) := walk m (nextOn m s) n' in (s :: l, e)
  end.

(** All masks of [n] seats. *)
Fixpoint masks (n : nat) : list (list bool) :=
  match n with
  | O => [[]]
  | S n' => flat_map (fun m => [true :: m; false :: m]) (masks n')
  end.

Definition countTrue (m : list bool) : nat := length (List.filter id m).

(** How often the loop dealt to seat [s]. *)
Definition timesDealt (l : list (option nat)) (s : option nat) : nat :=
  length (List.filter (fun x => bool_decide (x = s)) l).

(** One pass of the dealing loop, begun on the seat after [from] and as
    long as there are passing seats: it deals once to every passing seat, to
    no other seat, and stops on the seat it began on. *)
Definition passOk (m : list bool) (from : option nat) : bool :=
  let s0 := nextOn m from in
  let '(l, e) := walk m s0 (countTrue m) in
  bool_decide (e = s0)
  && (timesDealt l None =? 0)%nat
  && forallb
       (fun s => (timesDealt l (Some s) =? if nth s m false then 1 else 0)%nat)
       (seq 0 MAX_PLAYERS).

(** The seats a scan may start from: [null], or a seat of the table. *)
Definition startSeats : list (option nat) :=
  None :: map Some (seq 0 MAX_PLAYERS).

(** What dealing does to a player: [k] more hole cards, nothing else. *)
Definition dealtCards (k : nat) (p p' : Player) : Prop :=
  exists cs, length cs = k /\ p' = set_hole (hole p ++ cs) p.

(** ** Vocabulary of the showdown *)

(** The chips held in a payout map. *)
Definition mapSum (m : list (string * Z)) : Z := sumZ (map snd m).

(** The pots that somebody can win: those with an eligible player. *)
Definition contested (pot : Pot) : bool :=
  match eligible pot with
  | [] => false
  | _ :: _ => true
  end.

Definition contestedPots (players : list Player) : list Pot :=
  List.filter contested (buildSidePots players).

(** ** Bookkeeping invariants *)

(** What the players have committed to the hand. *)
Definition committedTotal (room : Room) : Z :=
  sumZ (map committed (players room)).

(** No stack, commitment or pot is negative. *)
Definition chipsOk (room : Room) : Prop :=
  Forall (fun p => 0 <= stack p /\ 0 <= committed p) (players room) /\
  0 <= pot room.

Definition logOk (room : Room) : Prop := (length (log room) <= 200)%nat.

Definition blindsOk (room : Room) : Prop :=
  1 <= smallBlind room < bigBlind room.

(** The host is one of the players (so the room is not empty). *)
Definition hostOk (room : Room) : Prop :=
  In (hostId room) (map pid (players room)).

Record Sound (room : Room) : Prop := mkSound {
  snd_chips : chipsOk room;
  snd_pot :
    state room = Hand \/ state room = Reveal ->
    pot room = committedTotal room;
  snd_blinds : blindsOk room;
  snd_host : hostOk room;
  snd_log : logOk room
}.

Definition WorldSound (w : World) : Prop :=
  forall room, rooms w = Some room -> Sound room.

(** What the engine of a hand may do to a room: the players keep their
    ids, the host and the blinds stay, the pot moves with the commitments,
    and no stack, commitment or pot turns negative. *)
Definition keeps (room room' : Room) : Prop :=
  map pid (players room') = map pid (players room) /\
  hostId room' = hostId room /\
  smallBlind room' = smallBlind room /\ bigBlind room' = bigBlind room /\
  pot room' - committedTotal room' = pot room - committedTotal room /\
  (chipsOk room -> chipsOk room') /\
  (logOk room -> logOk room').

(** A hand is being played or revealed. *)
Definition inPlay (room : Room) : Prop :=
  state room = Hand \/ state room = Reveal.

(** ** The view of a room *)

(** [getAllRemainingCards(board, players)]: the cards of the deck, in deck
    order, that are neither on the board nor in a hand of [players]. *)
Definition getAllRemainingCards (board : list Card) (ps : list Player)
  : list Card :=
  let used := board ++ flat_map hole ps in
  List.filter (fun card => negb (existsb (fun u => bool_decide (u = card)) used))
              orderedDeck.

(** [getHandRank(community, hole)]: [null] unless there are two hole
    cards; otherwise the rank that the evaluator gives to the cards
    [[...community, ...hole]], which stand for it here. *)
Definition getHandRank (community hole : list Card) : option (list Card) :=
  if negb (length hole =? 2)%nat then None else Some (community ++ hole).

(** In [sanitizeFor]: [viewer && viewer.stack <= 0]. *)
Definition isSpectator (room : Room) (viewerId : string) : bool :=
  match List.find (fun p => String.eqb (pid p) viewerId) (players room) with
  | Some viewer => stack viewer <=? 0
  | None => false
  end.

(** A card as a client is sent it: the card, or ["??"]. *)
Inductive ShownCard :=
  | FaceUp (c : Card)
  | FaceDown.

(** An entry of the [players] array that [sanitizeFor] builds. *)
Record PlayerView := mkPlayerView {
  vId : string;
  vName : string;
  vSeat : nat;
  vStack : Z;
  vFolded : bool;
  vAllIn : bool;
  vBetThisRound : Z;
  vCommitted : Z;
  vConnected : bool;
  vHole : list ShownCard;
  vHandRank : option (list Card)
}.

Definition viewOf (room : Room) (viewerId : string) (p : Player)
  : PlayerView :=
  let spectator := isSpectator room viewerId in
  {| vId := pid p; vName := name p; vSeat := seat p; vStack := stack p;
     vFolded := folded p; vAllIn := allIn p;
     vBetThisRound := betThisRound p; vCommitted := committed p;
     vConnected := connected p;
     vHole :=
       if bool_decide (state room = Showdown)
          || bool_decide (state room = Reveal)
          || String.eqb (pid p) viewerId || spectator
       then map FaceUp (hole p)
       else if negb (length (hole p) =? 0)%nat then [FaceDown; FaceDown]
            else [];
     vHandRank :=
       if spectator && bool_decide (state room = Hand)
          && (length (hole p) =? 2)%nat && negb (folded p)
       then getHandRank (community room) (hole p)
       else None |}.

(** The [players] field of [sanitizeFor(room, viewerId)]. *)
Definition sanitizedPlayers (room : Room) (viewerId : string)
  : list PlayerView :=
  map (viewOf room viewerId) (seatedPlayers room).

(** The hole cards of the players that have folded. *)
Definition foldedCards (room : Room) : list Card :=
  flat_map hole (List.filter folded (players room)).

(** ** Hand equity for spectators *)

(** A row of the result of [calculateHandEquity]. The solved hand (and
    with it its name and description) is stood for by the cards that were
    handed to the evaluator. *)
Record EquityRow := mkEquityRow {
  ePlayerId : string;
  ePlayerName : string;
  eHand : list Card;
  eEquity : Z
}.

Definition set_eEquity (v : Z) (r : EquityRow) : EquityRow :=
  {| ePlayerId := ePlayerId r; ePlayerName := ePlayerName r;
     eHand := eHand r; eEquity := v |}.

(** [Math.round(a / b)] for integers [a >= 0] and [b > 0]: the quotient
    rounded to the nearest integer, halves upwards. (With [b = 0] the
    quotient is not a number.) The operands here are below [2^20], far
    inside the range where the floating-point quotient rounds the same
    way. *)
Definition roundDiv (a b : Z) : Z := (2 * a + b) / (2 * b).

Section Equity.

Variable strength : list Card -> nat.

(** The loop [while (remaining.length > 0)]: each round gives the best
    hands that remain as many points as hands remain. *)
Fixpoint rankRounds (fuel : nat) (remaining : list EquityRow)
  : list (string * Z) :=
  match fuel with
  | O => []
  | S fuel' =>
      if (length remaining =? 0)%nat then []
      else
        let hands := map eHand remaining in
        let wins r := handWins strength hands (eHand r) in
        map (fun r => (ePlayerId r, Z.of_nat (length remaining)))
            (List.filter wins remaining)
        ++ rankRounds fuel' (List.filter (fun r => negb (wins r)) remaining)
  end.

(** [equityPoints.find(e => e.playerId === id)] *)
Definition pointsOf (points : list (string * Z)) (i : string) : option Z :=
  snd <$> List.find (fun e => String.eqb (fst e) i) points.

(** One trial of the Monte Carlo loop; [rnd] gives the draws of its
    shuffle. The rows of [results] are made from players of the room, so
    [room.players.find] finds the player of each row; [slice] with a
    negative end counts from the end of the array. *)
Definition equityTrial (room : Room) (results : list EquityRow)
           (remainingCards : list Card) (rnd : nat -> nat)
           (wins : list (string * Z)) : list (string * Z) :=
  let board := community room in
  let shuffled := shuffleInPlace rnd remainingCards in
  let boardCopy :=
    board
    ++ (if (length board <=? 5)%nat then take (5 - length board) shuffled
        else take (length shuffled - (length board - 5)) shuffled) in
  let hands :=
    map (fun r =>
           (ePlayerId r,
            boardCopy
            ++ match List.find (fun p => String.eqb (pid p) (ePlayerId r))
                               (players room) with
               | Some p => hole p
               | None => []
               end))
        results in
  fold_left
    (fun w h =>
       if handWins strength (map snd hands) (snd h)
          && negb (String.eqb (fst h) "")
       then mapAdd (fst h) 1 w else w)
    hands wins.

(** [calculateHandEquity(room)]; [rnd t] gives the draws of the shuffle of
    trial [t]. *)
Definition calculateHandEquity (rnd : nat -> nat -> nat) (room : Room)
  : list EquityRow :=
  let remainingPlayers := List.filter (fun p => negb (folded p)) (players room) in
  if (length remainingPlayers <? 2)%nat then []
  else
    let board := community room in
    let remainingCards := getAllRemainingCards board remainingPlayers in
    let results :=
      map (fun p => mkEquityRow (pid p) (name p) (board ++ hole p) 0)
          remainingPlayers in
    if (length remainingCards =? 0)%nat || (5 <? length remainingCards)%nat
    then
      let equityPoints := rankRounds (length results) results in
      let totalPoints := sumZ (map snd equityPoints) in
      map (fun result =>
             match pointsOf equityPoints (ePlayerId result) with
             | Some points => set_eEquity (roundDiv (points * 100) totalPoints) result
             | None => set_eEquity 0 result
             end)
          results
    else
      let trials := Z.to_nat (Z.min 5000 (2 ^ Z.of_nat (length remainingCards))) in
      let wins0 :=
        fold_left (fun m r => mapSet (ePlayerId r) 0 m) results [] in
      let wins :=
        fold_left (fun w t => equityTrial room results remainingCards (rnd t) w)
                  (seq 0 trials) wins0 in
      map (fun r =>
             set_eEquity
               (roundDiv (default 0 (mapGet (ePlayerId r) wins) * 100)
                         (Z.of_nat trials))
               r)
          results.

End Equity.

(** ** Room codes *)

Definition ROOM_ALPHABET : string := "ABCDEFGHJKLMNPQRSTUVWXYZ23456789".

(** [ROOM_ALPHABET[k]] as [out += ...] appends it: a one-character string,
    or ["undefined"] beyond the alphabet. *)
Definition alphabetAt (k : nat) : string :=
  match String.get k ROOM_ALPHABET with
  | Some c => String c EmptyString
  | None => "undefined"
  end.

(** [makeRoomCode(len)]; [bytes] is the buffer that
    [crypto.randomBytes(len)] returned, [len] its length. *)
Definition makeRoomCode (bytes : list nat) : string :=
  fold_left
    (fun out b =>
       (out ++ alphabetAt (b mod String.length ROOM_ALPHABET))%string)
    bytes EmptyString.

Definition toUpperChar (c : Ascii.ascii) : Ascii.ascii :=
  let n := Ascii.nat_of_ascii c in
  if ((97 <=? n) && (n <=? 122))%nat then Ascii.ascii_of_nat (n - 32) else c.

(** [String.prototype.toUpperCase], on ASCII strings. *)
Fixpoint toUpperCase (s : string) : string :=
  match s with
  | EmptyString => EmptyString
  | String c s' => String (toUpperChar c) (toUpperCase s')
  end.

(** The characters that [replace(/[^A-Z0-9]/g, "")] keeps. *)
Definition isCodeChar (c : Ascii.ascii) : bool :=
  let n := Ascii.nat_of_ascii c in
  ((65 <=? n) && (n <=? 90) || (48 <=? n) && (n <=? 57))%nat.

Fixpoint keepCodeChars (s : string) : string :=
  match s with
  | EmptyString => EmptyString
  | String c s' =>
      if isCodeChar c then String c (keepCodeChars s') else keepCodeChars s'
  end.

(** The room code that [joinLobby] looks up:
    [code.toUpperCase().replace(/[^A-Z0-9]/g, "").slice(0, 10)]. *)
Definition joinCode (code : string) : string :=
  String.substring 0 10 (keepCodeChars (toUpperCase code)).

(** The [k]-th character of the alphabet. *)
Definition alphabetChar (k : nat) : Ascii.ascii :=
  default Ascii.zero (String.get k ROOM_ALPHABET).

(** What a character of a room code has to satisfy. *)
Definition codeCharOk (k : nat) : bool :=
  let c := alphabetChar k in
  String.eqb (alphabetAt k) (String c EmptyString)
  && isCodeChar c
  && bool_decide (toUpperChar c = c)
  && bool_decide (toUpperChar (toLowerChar c) = c).


(** ** Further example rooms *)

(** The heads-up hand with both players all-in. *)
Definition allInRoom : Room :=
  set_players (map (set_allIn true) (players headsUpHand)) headsUpHand.

(** The lobby that Ann has created. *)
Definition annLobby : Room := createLobby "ROOM" "a" "Ann".


(** ** Tactics *)

(** Reduce projections of updated records. *)
Ltac rsimpl :=
  cbn [players state stage deck community currentSeat dealerSeat pot
       currentBet minRaise bigBlind smallBlind hostId log winnerInfo
       lastAggressorSeat code
       set_players set_state set_stage set_deck set_community
       set_currentSeat set_dealerSeat set_pot set_currentBet set_minRaise
       set_bigBlind set_smallBlind set_hostId set_log set_winnerInfo
       set_lastAggressorSeat updPlayer addLog] in *.

(** * Properties *)

(** ** Round closure *)

(** C3: [shouldEndBettingRound] is true exactly when no player is both
    non-folded and non-all-in, or every such player has acted and has
    matched the current bet. *)
Theorem shouldEndBettingRound_iff (room : Room) :
  shouldEndBettingRound room = true <->
  (~ (exists p, In p (players room) /\ folded p = false /\ allIn p = false))
  \/ (forall p, In p (players room) -> folded p = false -> allIn p = false ->
        hasActed p = true /\ betThisRound p = currentBet room).
Proof.
  unfold shouldEndBettingRound.
  set (ps := List.filter canAct (players room)).
  assert (Hin : forall p, In p ps <->
            In p (players room) /\ folded p = false /\ allIn p = false).
  { intros p. unfold ps. rewrite filter_In. unfold canAct.
    rewrite andb_true_iff, !negb_true_iff. tauto. }
  destruct (Nat.eqb_spec (length ps) 0) as [Hlen | Hlen].
  - split; [intros _ | reflexivity].
    left. intros (p & Hp). apply Hin in Hp.
    destruct ps; [contradiction | discriminate].
  - rewrite andb_true_iff, !forallb_forall. split.
    + intros [Hm Ha]. right. intros p Hp Hf Hai.
      assert (Hps : In p ps) by (apply Hin; auto).
      split; [apply Ha, Hps | apply Z.eqb_eq, Hm, Hps].
    + intros [Hnone | Hall].
      * exfalso. destruct ps as [| p ps'] eqn:E; [simpl in Hlen; lia |].
        apply Hnone. exists p. apply Hin. now left.
      * split; intros p Hp; apply Hin in Hp as (Hp & Hf & Hai);
          destruct (Hall p Hp Hf Hai) as [Ha Hb]; [now apply Z.eqb_eq | exact Ha].
Qed.

(** ** Side pots *)

Lemma setOf_acc (xs acc : list Z) :
  NoDup acc ->
  NoDup (fold_left (fun acc x => if existsb (Z.eqb x) acc then acc else acc ++ [x]) xs acc)
  /\ forall x, In x (fold_left (fun acc x => if existsb (Z.eqb x) acc then acc else acc ++ [x]) xs acc)
               <-> In x acc \/ In x xs.
Proof.
  revert acc. induction xs as [| y xs IH]; intros acc Hnd; simpl.
  - split; [exact Hnd | tauto].
  - destruct (existsb (Z.eqb y) acc) eqn:E.
    + destruct (IH acc Hnd) as [H1 H2]. split; [exact H1 |].
      intros x. rewrite H2. apply existsb_exists in E as (z & Hz & Hyz).
      apply Z.eqb_eq in Hyz. subst z. split; [tauto |].
      intros [H | [<- | H]]; auto.
    + assert (Hy : ~ In y acc).
      { intros Hy. assert (existsb (Z.eqb y) acc = true); [| congruence].
        apply existsb_exists. exists y. split; [exact Hy | apply Z.eqb_refl]. }
      destruct (IH (acc ++ [y])) as [H1 H2].
      { apply NoDup_app. split; [exact Hnd |]. split.
        - intros z Hz Hz'. apply list_elem_of_In in Hz, Hz'.
          destruct Hz' as [<- | []]. contradiction.
        - apply NoDup_singleton. }
      split; [exact H1 |]. intros x. rewrite H2, in_app_iff. simpl. tauto.
Qed.

Lemma setOf_NoDup xs : NoDup (setOf xs).
Proof. apply setOf_acc, NoDup_nil_2. Qed.

Lemma setOf_In xs x : In x (setOf xs) <-> In x xs.
Proof.
  unfold setOf. destruct (setOf_acc xs [] (NoDup_nil_2)) as [_ H].
  rewrite H. simpl. tauto.
Qed.

Lemma sorted_le_NoDup_lt (l : list Z) :
  StronglySorted Z.le l -> NoDup l -> StronglySorted Z.lt l.
Proof.
  induction 1 as [| a l Hs IH Hall]; intros Hnd; constructor.
  - apply IH. now inversion Hnd.
  - inversion Hnd as [| ? ? Hnotin _]; subst.
    rewrite List.Forall_forall in *. intros x Hx.
    specialize (Hall x Hx).
    assert (a <> x) by (intros ->; apply Hnotin, list_elem_of_In; exact Hx). lia.
Qed.

Lemma filter_filter_and {A} (f g : A -> bool) (l : list A) :
  List.filter f (List.filter g l) = List.filter (fun x => g x && f x) l.
Proof.
  induction l as [| x l IH]; simpl; [reflexivity |].
  destruct (g x); simpl; [destruct (f x) |]; now rewrite IH.
Qed.

Lemma filter_ext_in' {A} (f g : A -> bool) (l : list A) :
  (forall x, In x l -> f x = g x) -> List.filter f l = List.filter g l.
Proof.
  induction l as [| x l IH]; simpl; intros H; [reflexivity |].
  rewrite (H x (or_introl eq_refl)), IH; [reflexivity |].
  intros y Hy. apply H. now right.
Qed.

(** Above a positive level the contributors are the players. *)
Lemma inThis_contrib (players : list Player) (L : Z) :
  0 < L ->
  List.filter (fun p => L <=? committed p)
              (List.filter (fun p => 0 <? committed p) players)
  = List.filter (fun p => L <=? committed p) players.
Proof.
  intros HL. rewrite filter_filter_and. apply filter_ext_in'.
  intros p _. destruct (Z.leb_spec L (committed p)); [| now rewrite andb_false_r].
  rewrite andb_true_r. apply Z.ltb_lt. lia.
Qed.

Lemma potsFrom_length contrib prev levels :
  length (potsFrom contrib prev levels) = length levels.
Proof.
  revert prev. induction levels as [| L levels IH]; intros prev; simpl;
    [reflexivity | now rewrite IH].
Qed.

Lemma potsFrom_lookup contrib prev levels k L :
  levels !! k = Some L ->
  potsFrom contrib prev levels !! k
  = Some (potAt contrib
            (match k with O => prev | S k' => default 0 (levels !! k') end) L).
Proof.
  revert prev k. induction levels as [| L0 levels IH]; intros prev k Hk.
  - destruct k; discriminate.
  - destruct k as [| k]; simpl in *.
    + now inversion Hk.
    + rewrite (IH L0 k Hk). destruct k; reflexivity.
Qed.

Lemma sumZ_app l1 l2 : sumZ (l1 ++ l2) = sumZ l1 + sumZ l2.
Proof. induction l1; simpl; lia. Qed.

(** A count times a step is the sum of that step over the counted. *)
Lemma step_times_count (contrib : list Player) (L d : Z) :
  d * Z.of_nat (length (List.filter (fun p => L <=? committed p) contrib))
  = sumZ (map (fun p => if L <=? committed p then d else 0) contrib).
Proof.
  induction contrib as [| p contrib IH]; simpl; [lia |].
  destruct (L <=? committed p); simpl; rewrite <- IH; lia.
Qed.

(** The pots above [prev] hold what each contributor committed above
    [prev], when every commitment above [prev] is one of the levels. *)
Lemma potsFrom_sum contrib levels prev :
  StronglySorted Z.lt (prev :: levels) ->
  (forall p, In p contrib -> prev < committed p -> In (committed p) levels) ->
  sumZ (map amount (potsFrom contrib prev levels))
  = sumZ (map (fun p => Z.max 0 (committed p - prev)) contrib).
Proof.
  revert prev. induction levels as [| L levels IH]; intros prev Hs Hcov; simpl.
  - induction contrib as [| p contrib IHc]; simpl; [reflexivity |].
    rewrite <- IHc by (intros q Hq; apply Hcov; now right).
    assert (~ prev < committed p) by (intros H; apply (Hcov p); [now left | exact H]).
    lia.
  - inversion Hs as [| ? ? Hs' Hall]; subst.
    assert (HpL : prev < L) by (inversion Hall; assumption).
    rewrite IH; [| exact Hs' |].
    2:{ intros p Hp HLp. destruct (Hcov p Hp) as [E | Hin]; [lia | lia | exact Hin]. }
    rewrite step_times_count.
    assert (Hlow : forall p, In p contrib -> committed p < L -> committed p <= prev).
    { intros p Hp Hlt. destruct (Z_le_gt_dec (committed p) prev) as [| Hgt]; [assumption |].
      destruct (Hcov p Hp) as [E | Hin]; [lia | lia |].
      inversion Hs' as [| ? ? _ HallL]; subst.
      rewrite List.Forall_forall in HallL. specialize (HallL _ Hin). lia. }
    clear IH Hcov Hs Hs' Hall.
    induction contrib as [| p contrib IHc]; simpl; [reflexivity |].
    rewrite <- IHc by (intros q Hq; apply Hlow; now right).
    specialize (Hlow p (or_introl eq_refl)).
    destruct (Z.leb_spec L (committed p)); lia.
Qed.

Lemma sum_contrib (players : list Player) :
  Forall (fun p => 0 <= committed p) players ->
  sumZ (map (fun p => Z.max 0 (committed p - 0))
            (List.filter (fun p => 0 <? committed p) players))
  = sumZ (map committed players).
Proof.
  induction 1 as [| p players Hp _ IH]; simpl; [reflexivity |].
  destruct (Z.ltb_spec 0 (committed p)); simpl; rewrite IH; lia.
Qed.

(** The levels [buildSidePots] iterates over. *)
Lemma levels_levelsOf (players : list Player) :
  levelsOf players
    (merge_sort Z.le
       (setOf (map committed (List.filter (fun p => 0 <? committed p) players)))).
Proof.
  set (cs := map committed _).
  assert (Hperm : merge_sort Z.le (setOf cs) ≡ₚ setOf cs)
    by apply merge_sort_Permutation.
  split.
  - apply sorted_le_NoDup_lt.
    + apply StronglySorted_merge_sort; apply _.
    + rewrite Hperm. apply setOf_NoDup.
  - intros x. rewrite <- list_elem_of_In, Hperm, list_elem_of_In, setOf_In.
    unfold cs. rewrite in_map_iff. split.
    + intros (p & <- & Hp). apply filter_In in Hp as [Hp Hpos].
      apply Z.ltb_lt in Hpos. eauto.
    + intros (Hpos & p & Hp & <-). exists p. split; [reflexivity |].
      apply filter_In. split; [exact Hp | now apply Z.ltb_lt].
Qed.

(** C2: [buildSidePots] returns one pot per level, in ascending order of
    the levels (the distinct positive committed amounts); the pot of level
    [L] with predecessor [P] has amount [(L - P)] times the number of
    players that committed at least [L], and its eligible players are the
    non-folded ones among those; on players whose commitments are not
    negative the pot amounts add up to the total committed. *)
Theorem buildSidePots_levels (players : list Player) :
  exists levels,
    levelsOf players levels /\
    length (buildSidePots players) = length levels /\
    (forall k L, levels !! k = Some L ->
       buildSidePots players !! k
       = Some (potAt players (levelBefore levels k) L)) /\
    (Forall (fun p => 0 <= committed p) players ->
       sumZ (map amount (buildSidePots players))
       = sumZ (map committed players)).
Proof.
  pose proof (levels_levelsOf players) as Hlv.
  set (contrib := List.filter (fun p => 0 <? committed p) players) in *.
  set (levels := merge_sort Z.le (setOf (map committed contrib))) in *.
  exists levels. split; [exact Hlv |].
  destruct Hlv as [Hsorted Hmem].
  assert (Hpos : forall L, In L levels -> 0 < L) by (intros L HL; now apply Hmem).
  unfold buildSidePots. fold contrib. fold levels.
  destruct (Nat.eqb_spec (length contrib) 0) as [Hnil | Hne].
  - assert (levels = []) as Hl.
    { destruct levels as [| L ?] eqn:E; [reflexivity |]. exfalso.
      destruct (proj1 (Hmem L) (or_introl eq_refl)) as (HL & p & Hp & Hc).
      assert (In p contrib)
        by (apply filter_In; split; [exact Hp | apply Z.ltb_lt; lia]).
      destruct contrib; [contradiction | discriminate]. }
    rewrite Hl. repeat split.
    + intros k L Hk. destruct k; discriminate.
    + intros Hwf. rewrite <- sum_contrib by exact Hwf. fold contrib.
      destruct contrib; [reflexivity | discriminate].
  - split; [apply potsFrom_length |]. split.
    + intros k L Hk. rewrite (potsFrom_lookup _ _ _ _ _ Hk).
      assert (HL : 0 < L).
      { apply Hpos, list_elem_of_In, list_elem_of_lookup. eauto. }
      f_equal. unfold potAt, contrib. rewrite inThis_contrib by exact HL.
      destruct k; reflexivity.
    + intros Hwf. rewrite potsFrom_sum.
      * apply sum_contrib, Hwf.
      * constructor; [exact Hsorted |]. apply List.Forall_forall. exact Hpos.
      * intros p Hp Hc. apply Hmem. split; [exact Hc |].
        exists p. split; [| reflexivity]. apply filter_In in Hp. tauto.
Qed.

(** A witness for C2: the three-way all-in of the specification. *)
Lemma buildSidePots_levels_witness :
  Forall (fun p => 0 <= committed p) committed_100_300_300 /\
  sumZ (map amount (buildSidePots committed_100_300_300)) = 700.
Proof.
  assert (Hwf : Forall (fun p => 0 <= committed p) committed_100_300_300)
    by (repeat constructor; simpl; lia).
  split; [exact Hwf |].
  destruct (buildSidePots_levels committed_100_300_300)
    as (levels & _ & _ & _ & Hsum).
  rewrite (Hsum Hwf). reflexivity.
Defined.

(** C7, as stated: on committed amounts [100, 100, 300] the second pot is
    not one of 400. *)
Lemma sidePots_100_100_300_not_400 :
  ~ (exists e1 e2,
       buildSidePots committed_100_100_300 = [mkPot 300 e1; mkPot 400 e2]).
Proof. intros (e1 & e2 & H). vm_compute in H. discriminate. Qed.

(** C7, amended: three non-folded players that committed 100, 300 and 300
    give two pots, 300 for all three and 400 for the two players at 300,
    700 in total; on 100, 100 and 300 the pots are 300 for all three and
    200 for the one player at 300, 500 in total. *)
Theorem sidePots_three_way (a b c : Player) :
  folded a = false -> folded b = false -> folded c = false ->
  committed a = 100 ->
  (committed b = 300 -> committed c = 300 ->
     buildSidePots [a; b; c]
     = [mkPot 300 [pid a; pid b; pid c]; mkPot 400 [pid b; pid c]]
     /\ sumZ (map amount (buildSidePots [a; b; c])) = 700)
  /\ (committed b = 100 -> committed c = 300 ->
     buildSidePots [a; b; c]
     = [mkPot 300 [pid a; pid b; pid c]; mkPot 200 [pid c]]
     /\ sumZ (map amount (buildSidePots [a; b; c])) = 500).
Proof.
  intros Ha Hb Hc Ca.
  split; intros Cb Cc; unfold buildSidePots.
  - replace (List.filter (fun p => 0 <? committed p) [a; b; c]) with [a; b; c]
      by (simpl; now rewrite Ca, Cb, Cc).
    replace (map committed [a; b; c]) with [100; 300; 300]
      by (simpl; now rewrite Ca, Cb, Cc).
    replace (merge_sort Z.le (setOf [100; 300; 300])) with [100; 300]
      by (vm_compute; reflexivity).
    cbn [length Nat.eqb potsFrom List.filter].
    rewrite Ca, Cb, Cc. cbn [Z.leb Z.compare Pos.compare Pos.compare_cont].
    cbn [List.filter]. rewrite Ha, Hb, Hc. split; reflexivity.
  - replace (List.filter (fun p => 0 <? committed p) [a; b; c]) with [a; b; c]
      by (simpl; now rewrite Ca, Cb, Cc).
    replace (map committed [a; b; c]) with [100; 100; 300]
      by (simpl; now rewrite Ca, Cb, Cc).
    replace (merge_sort Z.le (setOf [100; 100; 300])) with [100; 300]
      by (vm_compute; reflexivity).
    cbn [length Nat.eqb potsFrom List.filter].
    rewrite Ca, Cb, Cc. cbn [Z.leb Z.compare Pos.compare Pos.compare_cont].
    cbn [List.filter]. rewrite Ha, Hb, Hc. split; reflexivity.
Qed.

Lemma sidePots_three_way_witness :
  buildSidePots committed_100_300_300
  = [mkPot 300 ["A"; "B"; "C"]; mkPot 400 ["B"; "C"]]
  /\ buildSidePots committed_100_100_300
     = [mkPot 300 ["A"; "B"; "C"]; mkPot 200 ["C"]].
Proof.
  split.
  - apply (sidePots_three_way (contributor "A" 0 100) (contributor "B" 1 300)
             (contributor "C" 2 300)); reflexivity.
  - apply (sidePots_three_way (contributor "A" 0 100) (contributor "B" 1 100)
             (contributor "C" 2 300)); reflexivity.
Defined.

(** ** The action handler *)

Lemma lookup_map {A B} (f : A -> B) (l : list A) (j : nat) :
  map f l !! j = f <$> (l !! j).
Proof. exact (list_lookup_fmap f l j). Qed.

(** C6: an action sent while the room is not in a hand, by a player that is
    not on the current seat, by a folded or all-in player, or a check below
    the current bet, leaves the room as it is: the handler returns normally,
    with the same room and no timer armed. *)
Theorem illegal_action_is_noop (room : Room) (i : nat) (p : Player)
        (action : ActionArg) (amount : Z) :
  players room !! i = Some p ->
  state room <> Hand
  \/ currentSeat room <> Some (seat p)
  \/ folded p = true
  \/ allIn p = true
  \/ ((exists s, action = ActString s /\ toLowerCase s = "check"%string)
      /\ betThisRound p < currentBet room) ->
  handlePlayerAction room i action amount = Some (room, []).
Proof.
  intros Hp Hbad. unfold handlePlayerAction. rewrite Hp.
  destruct (bool_decide_reflect (state room = Hand)) as [Hst | Hst]; simpl;
    [| reflexivity].
  destruct (currentSeat room) as [cs |] eqn:Hcs; [| reflexivity].
  destruct (Nat.eqb_spec (seat p) cs) as [Hseat | Hseat]; simpl;
    [| reflexivity].
  destruct (folded p) eqn:Hf; [reflexivity |].
  destruct (allIn p) eqn:Ha; [reflexivity |]. simpl.
  destruct Hbad as [H | [H | [H | [H | H]]]]; try congruence.
  destruct H as ((s & -> & Hs) & Hlt). simpl. rewrite Hs.
  unfold applyAction. simpl.
  destruct (Z.eqb_spec (Z.max 0 (currentBet room - betThisRound p)) 0); [lia |].
  reflexivity.
Qed.

(** A witness for C6: in the heads-up hand Bob, who owes 10, checks. *)
Lemma illegal_action_is_noop_witness :
  handlePlayerAction headsUpHand 1 (ActString "Check") 0
  = Some (headsUpHand, []).
Proof.
  eapply (illegal_action_is_noop headsUpHand 1%nat); [reflexivity |].
  right. right. right. right. split.
  - exists "Check"%string. split; reflexivity.
  - simpl. lia.
Defined.

Lemma commitChips_some (room : Room) (i : nat) (p : Player) (wanted : Z) :
  players room !! i = Some p ->
  commitChips room i wanted
  = Some (set_pot (pot room + Z.max 0 (Z.min wanted (stack p)))
            (updPlayer room i (payChips (Z.max 0 (Z.min wanted (stack p))))),
          Z.max 0 (Z.min wanted (stack p))).
Proof. intros Hp. unfold commitChips. rewrite Hp. reflexivity. Qed.

Lemma payChips_pid (pay : Z) (p : Player) : pid (payChips pay p) = pid p.
Proof. unfold payChips. simpl. now destruct (_ =? _). Qed.

Lemma raiseTo_players (room : Room) (p : Player) (total prevBet : Z) :
  players (raiseTo room p total prevBet)
  = if prevBet <? total then players (resetOthers room p) else players room.
Proof.
  unfold raiseTo. destruct (prevBet <? total); [| reflexivity].
  destruct (minRaise _ <=? _); reflexivity.
Qed.

Lemma raiseTo_currentBet (room : Room) (p : Player) (total prevBet : Z) :
  currentBet (raiseTo room p total prevBet)
  = if prevBet <? total then total else currentBet room.
Proof.
  unfold raiseTo. destruct (prevBet <? total); [| reflexivity].
  destruct (minRaise _ <=? _); reflexivity.
Qed.

Lemma raiseTo_minRaise (room : Room) (p : Player) (total prevBet : Z) :
  minRaise (raiseTo room p total prevBet)
  = if (prevBet <? total) && (minRaise room <=? total - prevBet)
    then total - prevBet else minRaise room.
Proof.
  unfold raiseTo. destruct (prevBet <? total); [| reflexivity]. simpl.
  destruct (minRaise room <=? total - prevBet); reflexivity.
Qed.

Lemma raiseTo_pot (room : Room) (p : Player) (total prevBet : Z) :
  pot (raiseTo room p total prevBet) = pot room.
Proof.
  unfold raiseTo. destruct (prevBet <? total); [| reflexivity].
  destruct (minRaise _ <=? _); reflexivity.
Qed.

(** The bet/raise branch, when it does not return early. *)
Lemma actBetRaise_accepted (room : Room) (i : nat) (p : Player)
      (isRaise : bool) (T : Z) (room' : Room) :
  players room !! i = Some p ->
  actBetRaise room i p isRaise T = Some (Some room') ->
  let clamped := Z.min T (betThisRound p + stack p) in
  let toPay := clamped - betThisRound p in
  0 < toPay /\
  pot room' = pot room + toPay /\
  (exists q, players room' !! i = Some q /\
     stack q = stack p - toPay /\
     betThisRound q = clamped /\
     committed q = committed p + toPay /\
     hasActed q = true /\
     (allIn q = true <-> allIn p = true \/ stack q = 0) /\
     folded q = folded p) /\
  currentBet room'
    = (if currentBet room <? clamped then clamped else currentBet room) /\
  minRaise room'
    = (if (currentBet room <? clamped)
          && (minRaise room <=? clamped - currentBet room)
       then clamped - currentBet room else minRaise room) /\
  (forall j o, j <> i -> players room !! j = Some o ->
     exists o', players room' !! j = Some o' /\
       stack o' = stack o /\ betThisRound o' = betThisRound o /\
       committed o' = committed o /\ folded o' = folded o /\
       allIn o' = allIn o /\
       hasActed o'
         = (if (currentBet room <? clamped)
               && negb (String.eqb (pid o) (pid p))
               && negb (folded o || allIn o)
            then false else hasActed o)).
Proof.
  intros Hp. unfold actBetRaise.
  set (full := betThisRound p + stack p).
  set (clamped := Z.min T full).
  destruct (T <=? 0); [discriminate |].
  destruct ((clamped <? _) && _); [discriminate |].
  destruct (Z.leb_spec (clamped - betThisRound p) 0) as [| Hpay]; [discriminate |].
  assert (Hpaid : Z.max 0 (Z.min (clamped - betThisRound p) (stack p))
                  = clamped - betThisRound p) by (unfold clamped, full in *; lia).
  rewrite (commitChips_some _ _ _ _ Hp), Hpaid. simpl.
  set (r1 := set_pot _ _).
  set (r2 := raiseTo r1 p clamped (currentBet room)).
  assert (Hr2 : players r2
                = if currentBet room <? clamped
                  then players (resetOthers r1 p) else players r1)
    by apply raiseTo_players.
  assert (Hi : exists q, players r2 !! i = Some q /\ q = payChips (clamped - betThisRound p) p).
  { rewrite Hr2. destruct (currentBet room <? clamped); simpl.
    - rewrite lookup_map, list_lookup_alter. destruct (decide (i = i)); [| done].
      rewrite Hp. simpl. rewrite payChips_pid, String.eqb_refl. eauto.
    - rewrite list_lookup_alter. destruct (decide (i = i)); [| done].
      rewrite Hp. simpl. eauto. }
  destruct Hi as (q & Hq & Eq). rewrite Hq. simpl.
  intros [= <-].
  split; [exact Hpay |]. split.
  { simpl. unfold r2. rewrite raiseTo_pot. reflexivity. }
  split.
  { eexists. simpl. rewrite list_lookup_alter.
    destruct (decide (i = i)); [| done]. rewrite Hq. simpl.
    split; [reflexivity |]. subst q. unfold payChips. simpl.
    destruct (Z.eqb_spec (stack p - (clamped - betThisRound p)) 0) as [E | E];
      simpl; repeat split; try lia; try tauto; auto. }
  split.
  { simpl. unfold r2. rewrite raiseTo_currentBet. reflexivity. }
  split.
  { simpl. unfold r2. rewrite raiseTo_minRaise. reflexivity. }
  intros j o Hji Ho. simpl.
  rewrite list_lookup_alter_ne by congruence. rewrite Hr2.
  destruct (currentBet room <? clamped); simpl.
  - rewrite lookup_map, list_lookup_alter_ne by congruence. rewrite Ho. simpl.
    eexists. split; [reflexivity |].
    destruct (String.eqb (pid o) (pid p)); simpl; [repeat split |].
    destruct (folded o || allIn o); simpl; repeat split.
  - rewrite list_lookup_alter_ne by congruence. rewrite Ho.
    eexists. split; [reflexivity |]. repeat split.
Qed.

Lemma indexesFrom_In {A} (f : A -> bool) (n j : nat) (l : list A) (x : A) :
  l !! j = Some x -> f x = true -> In (n + j)%nat (indexesFrom f n l).
Proof.
  revert n j. induction l as [| y l IH]; intros n j Hj Hx;
    [destruct j; discriminate |].
  destruct j as [| j]; cbn in *.
  - injection Hj as ->. rewrite Hx, Nat.add_0_r. now left.
  - replace (n + S j)%nat with (S n + j)%nat by lia.
    destruct (f y); [right |]; now apply IH.
Qed.

(** The lone survivor is the only player that has not folded. *)
Lemma loneSurvivor_only (room : Room) (s k : nat) (q : Player) :
  loneSurvivor room = Some s ->
  players room !! k = Some q -> folded q = false -> k = s.
Proof.
  unfold loneSurvivor. intros Hs Hk Hq.
  pose proof (indexesFrom_In (fun p => negb (folded p)) 0 k _ q Hk) as Hin.
  cbv beta in Hin. rewrite Hq in Hin. specialize (Hin eq_refl).
  simpl in Hin.
  destruct (indexesFrom _ 0 (players room)) as [| a [| b l]];
    try discriminate.
  injection Hs as <-. destruct Hin as [-> | []]. reflexivity.
Qed.

(** A player that can act and has not acted keeps the round open. *)
Lemma shouldEndBettingRound_waiting (room : Room) (j : nat) (o : Player) :
  players room !! j = Some o ->
  folded o = false -> allIn o = false -> hasActed o = false ->
  shouldEndBettingRound room = false.
Proof.
  intros Hj Hf Ha Hact. unfold shouldEndBettingRound.
  assert (Hin : In o (List.filter canAct (players room))).
  { apply filter_In. split.
    - apply list_elem_of_In, list_elem_of_lookup. eauto.
    - unfold canAct. now rewrite Hf, Ha. }
  destruct (List.filter canAct (players room)) as [| a l] eqn:E;
    [contradiction |].
  cbn [length Nat.eqb].
  destruct (forallb hasActed (a :: l)) eqn:Hall; [| apply andb_false_r].
  rewrite forallb_forall in Hall. rewrite (Hall o Hin) in Hact. discriminate.
Qed.

(** C4: a bet or raise to [T] by the acting player. With [minTo] the big
    blind when nothing is bet and the current bet plus the minimum raise
    otherwise, and [T] clamped to the player's street bet plus stack, the
    handler does nothing unless the clamped amount reaches [minTo] or is the
    player's full commitment. When the branch acts, the player pays the
    clamped amount less the street bet; if that amount exceeds the previous
    current bet, it becomes the current bet, the minimum raise becomes the
    raise size exactly when the raise size is at least the old minimum
    raise, and every other player that is neither folded nor all-in has
    [hasActed] cleared; if there is such a player, the handler ends by
    passing the turn, and the room it leaves differs from the one described
    in the current seat only. *)
Theorem bet_raise_action (room : Room) (i : nat) (p : Player) (word : string)
        (T : Z) :
  players room !! i = Some p ->
  state room = Hand ->
  currentSeat room = Some (seat p) ->
  folded p = false ->
  allIn p = false ->
  toLowerCase word = "bet"%string \/ toLowerCase word = "raise"%string ->
  let prevBet := currentBet room in
  let minTo := if prevBet =? 0 then bigBlind room else prevBet + minRaise room in
  let full := betThisRound p + stack p in
  let clamped := Z.min T full in
  let toPay := clamped - betThisRound p in
  (~ (minTo <= clamped \/ clamped = full) ->
     handlePlayerAction room i (ActString word) T = Some (room, []))
  /\ (0 < T -> (minTo <= clamped \/ clamped = full) -> 0 < toPay ->
      exists room',
        handlePlayerAction room i (ActString word) T = afterAction room' /\
        pot room' = pot room + toPay /\
        (exists q, players room' !! i = Some q /\
           stack q = stack p - toPay /\
           betThisRound q = clamped /\
           committed q = committed p + toPay) /\
        (prevBet < clamped ->
           currentBet room' = clamped /\
           (clamped - prevBet >= minRaise room ->
              minRaise room' = clamped - prevBet) /\
           (~ clamped - prevBet >= minRaise room ->
              minRaise room' = minRaise room) /\
           (forall j o, players room !! j = Some o ->
              pid o <> pid p -> folded o = false -> allIn o = false ->
              exists o', players room' !! j = Some o' /\
                         hasActed o' = false) /\
           ((exists j o, players room !! j = Some o /\
               pid o <> pid p /\ folded o = false /\ allIn o = false) ->
            handlePlayerAction room i (ActString word) T
            = Some (moveToNextActor room', [])))).
Proof.
  intros Hp Hst Hcs Hf Ha Hword prevBet minTo full clamped toPay.
  assert (Hhandler :
    handlePlayerAction room i (ActString word) T
    = acted ← actBetRaise room i p
                (bool_decide (toLowerCase word = "raise"%string)) T;
      match acted with
      | None => Some (room, [])
      | Some room' => afterAction room'
      end).
  { unfold handlePlayerAction. rewrite Hp, Hst, Hcs, Hf, Ha.
    rewrite bool_decide_eq_true_2 by reflexivity. rewrite Nat.eqb_refl. simpl.
    unfold applyAction. destruct Hword as [-> | ->]; reflexivity. }
  split.
  - intros Hno. rewrite Hhandler. unfold actBetRaise.
    destruct (T <=? 0); [reflexivity |].
    fold prevBet. fold minTo. fold full. fold clamped.
    destruct (Z.ltb_spec clamped minTo); [| lia].
    destruct (Z.eqb_spec clamped full); [lia |]. reflexivity.
  - intros HT Hok Hpay.
    assert (Hacc : exists room',
              actBetRaise room i p
                (bool_decide (toLowerCase word = "raise"%string)) T
              = Some (Some room')).
    { unfold actBetRaise.
      destruct (Z.leb_spec T 0); [lia |].
      fold prevBet. fold minTo. fold full. fold clamped. fold toPay.
      destruct (Z.ltb_spec clamped minTo);
        destruct (Z.eqb_spec clamped full); simpl; try lia;
        (destruct (Z.leb_spec toPay 0); [lia |]);
        rewrite (commitChips_some _ _ _ _ Hp); simpl;
        match goal with
        | |- context [players ?r !! i] =>
            assert (Hsome : is_Some (players r !! i))
        end;
        try (destruct Hsome as [q ->]; simpl; eauto);
        rewrite raiseTo_players;
        (destruct (_ <? _); simpl;
         [rewrite lookup_map |]; rewrite list_lookup_alter;
         (destruct (decide (i = i)); [| done]); rewrite Hp; simpl; eauto). }
    destruct Hacc as (room' & Hacc). exists room'.
    pose proof (actBetRaise_accepted _ _ _ _ _ _ Hp Hacc)
      as (_ & Hpot & (q & Hq & Hqs & Hqb & Hqc & _ & _ & Hqf) & Hcb & Hmr
          & Hothers).
    fold full clamped toPay prevBet in Hpot, Hqs, Hqb, Hqc, Hcb, Hmr, Hothers.
    assert (Hrun : handlePlayerAction room i (ActString word) T
                   = afterAction room')
      by (rewrite Hhandler, Hacc; reflexivity).
    split; [exact Hrun |].
    split; [exact Hpot |].
    split; [exists q; auto |].
    intros Hraise.
    destruct (Z.ltb_spec prevBet clamped) as [_ | ?]; [| lia].
    simpl in Hmr.
    assert (Hreset : forall j o, players room !! j = Some o ->
              pid o <> pid p -> folded o = false -> allIn o = false ->
              j <> i /\
              exists o', players room' !! j = Some o' /\ folded o' = false /\
                         allIn o' = false /\ hasActed o' = false).
    { intros j o Ho Hid Hfo Hao.
      assert (Hji : j <> i) by (intros ->; rewrite Hp in Ho; congruence).
      split; [exact Hji |].
      destruct (Hothers j o Hji Ho) as (o' & Ho' & _ & _ & _ & Hf' & Ha' & Hact).
      exists o'. split; [exact Ho' |].
      split; [congruence |]. split; [congruence |].
      rewrite Hact, Hfo, Hao. simpl.
      destruct (String.eqb_spec (pid o) (pid p)); [contradiction | reflexivity]. }
    split; [exact Hcb |]. split; [| split; [| split]].
    + intros Hge. destruct (Z.leb_spec (minRaise room) (clamped - prevBet));
        [exact Hmr | lia].
    + intros Hlt. destruct (Z.leb_spec (minRaise room) (clamped - prevBet));
        [lia | exact Hmr].
    + intros j o Ho Hid Hfo Hao.
      destruct (Hreset j o Ho Hid Hfo Hao) as (_ & o' & Ho' & _ & _ & Hact).
      eauto.
    + intros (j & o & Ho & Hid & Hfo & Hao).
      destruct (Hreset j o Ho Hid Hfo Hao) as (Hji & o' & Ho' & Hf' & Ha' & Hact).
      rewrite Hrun. unfold afterAction.
      destruct (loneSurvivor room') as [s |] eqn:Hlone.
      { exfalso. apply Hji.
        rewrite (loneSurvivor_only _ _ _ _ Hlone Ho' Hf').
        symmetry. apply (loneSurvivor_only _ _ _ _ Hlone Hq). congruence. }
      now rewrite (shouldEndBettingRound_waiting _ _ _ Ho' Hf' Ha' Hact).
Qed.

(** A witness for C4: in the heads-up hand Bob, who has posted 10 against
    a bet of 20, raises to 60. *)
Lemma bet_raise_action_witness :
  exists room',
    handlePlayerAction headsUpHand 1 (ActString "raise") 60
    = Some (moveToNextActor room', []) /\
    pot room' = 80 /\ currentBet room' = 60 /\ minRaise room' = 40.
Proof.
  pose proof (fun p Hp => bet_raise_action headsUpHand 1%nat p "raise" 60 Hp)
    as H.
  specialize (H _ eq_refl eq_refl eq_refl eq_refl eq_refl
                (or_intror eq_refl)).
  destruct H as [_ Hacc].
  destruct Hacc as (room' & Hh & Hpot & _ & Hraise);
    [lia | left; simpl; lia | simpl; lia |].
  destruct Hraise as (Hcb & Hmr & _ & _ & Hnext); [simpl; lia |].
  exists room'. split; [| split; [exact Hpot |]].
  - apply Hnext. exists 0%nat. eexists.
    split; [reflexivity |]. split; [discriminate |]. split; reflexivity.
  - split; [exact Hcb |]. apply Hmr. simpl. lia.
Defined.

(** ** The deck *)

Lemma orderedDeck_NoDup : NoDup orderedDeck.
Proof. apply (bool_decide_unpack _). vm_compute. exact I. Qed.

Lemma orderedDeck_length : length orderedDeck = 52%nat.
Proof. reflexivity. Qed.

Lemma orderedDeck_defined : Undefined ∉ orderedDeck.
Proof. apply (bool_decide_unpack _). vm_compute. exact I. Qed.

Lemma swap_length {A} (i j : nat) (arr : list A) :
  length (swap i j arr) = length arr.
Proof.
  unfold swap. destruct (arr !! i), (arr !! j); try reflexivity.
  now rewrite !length_insert.
Qed.

(** Exchanging two cells permutes the array. *)
Lemma swap_Permutation {A} (i j : nat) (arr : list A) : swap i j arr ≡ₚ arr.
Proof.
  unfold swap.
  destruct (arr !! i) as [x |] eqn:Hi; [| reflexivity].
  destruct (arr !! j) as [y |] eqn:Hj; [| reflexivity].
  apply Permutation_inj. split; [now rewrite !length_insert |].
  exists (fun k => if decide (k = i) then j else if decide (k = j) then i else k).
  split.
  - intros a b. repeat case_decide; intros; subst; congruence.
  - intros k. pose proof (lookup_lt_Some _ _ _ Hi). pose proof (lookup_lt_Some _ _ _ Hj).
    destruct (decide (k = i)) as [-> | Hki].
    + rewrite list_lookup_insert_eq by (now rewrite length_insert). now rewrite Hj.
    + rewrite list_lookup_insert_ne by congruence.
      destruct (decide (k = j)) as [-> | Hkj].
      * rewrite list_lookup_insert_eq by assumption. now rewrite Hi.
      * now rewrite list_lookup_insert_ne by congruence.
Qed.

Lemma shuffleFrom_Permutation rnd i arr : shuffleFrom rnd i arr ≡ₚ arr.
Proof.
  revert arr. induction i as [| i IH]; intros arr; simpl; [reflexivity |].
  rewrite IH. apply swap_Permutation.
Qed.

(** A fresh deck holds the 52 cards, each once. *)
Lemma freshDeck_Permutation rnd : freshDeck rnd ≡ₚ orderedDeck.
Proof. apply shuffleFrom_Permutation. Qed.

Lemma pop_nonempty (deck : list Card) :
  deck <> [] -> deck = snd (pop deck) ++ [fst (pop deck)].
Proof. intros H. unfold pop. simpl. now apply app_removelast_last. Qed.

Lemma pop_length (deck : list Card) :
  length (snd (pop deck)) = (length deck - 1)%nat.
Proof.
  unfold pop. simpl. destruct (decide (deck = [])) as [-> | H]; [reflexivity |].
  rewrite (app_removelast_last Undefined H) at 2. rewrite length_app. simpl. lia.
Qed.

(** ** Finding players *)

Lemma findIndex_Some {A} (f : A -> bool) (l : list A) (i : nat) :
  findIndex f l = Some i ->
  exists x, l !! i = Some x /\ f x = true /\ List.find f l = Some x.
Proof.
  revert i. induction l as [| y l IH]; intros i; simpl; [discriminate |].
  destruct (f y) eqn:E.
  - intros [= <-]. eauto.
  - destruct (findIndex f l) as [k |]; [| discriminate].
    intros [= <-]. destruct (IH k eq_refl) as (x & ? & ? & ?). eauto.
Qed.

Lemma find_Some_In {A} (f : A -> bool) (l : list A) (x : A) :
  List.find f l = Some x -> In x l /\ f x = true.
Proof. apply find_some. Qed.

(** With distinct seats, the first player on a seat is the only one. *)
Lemma seat_unique (ps : list Player) (s : nat) (p q : Player) :
  NoDup (map seat ps) ->
  List.find (fun x => (seat x =? s)%nat) ps = Some p ->
  In q ps -> seat q = s -> q = p.
Proof.
  induction ps as [| a ps IH]; simpl; [discriminate |].
  intros Hnd Hfind Hq Hs. apply NoDup_cons in Hnd as [Hna Hnd].
  destruct (Nat.eqb_spec (seat a) s) as [Ea | Ea].
  - injection Hfind as <-. destruct Hq as [-> | Hq]; [reflexivity |].
    exfalso. apply Hna. rewrite Ea, <- Hs.
    apply list_elem_of_In, in_map, Hq.
  - destruct Hq as [-> | Hq]; [contradiction | now apply IH].
Qed.

(** ** The seat resolver *)

Lemma scanSeats_Some ps opts from n s :
  scanSeats ps opts from n = Some s ->
  (s < MAX_PLAYERS)%nat /\
  exists p, List.find (fun x => (seat x =? s)%nat) ps = Some p /\
    (includeFolded opts = false -> folded p = false) /\
    (includeAllIn opts = false -> allIn p = false) /\
    (requireStack opts = true -> 0 < stack p).
Proof.
  revert from. induction n as [| n IH]; intros from; cbn [scanSeats];
    [discriminate |].
  set (s' := ((from + 1) mod MAX_PLAYERS)%nat).
  destruct (List.find (fun x => (seat x =? s')%nat) ps) as [p |] eqn:Hfind;
    [| apply IH].
  destruct (negb (includeFolded opts) && folded p) eqn:E1; [apply IH |].
  destruct (negb (includeAllIn opts) && allIn p) eqn:E2; [apply IH |].
  destruct (requireStack opts && (stack p <=? 0)) eqn:E3; [apply IH |].
  intros [= <-]. split.
  - apply Nat.mod_upper_bound. discriminate.
  - exists p. split; [exact Hfind |]. repeat split.
    + intros H. rewrite H in E1. exact E1.
    + intros H. rewrite H in E2. exact E2.
    + intros H. rewrite H in E3. simpl in E3. lia.
Qed.

Lemma nextActiveSeat_Some room from opts s :
  nextActiveSeat room from opts = Some s ->
  (s < MAX_PLAYERS)%nat /\
  exists p, List.find (fun x => (seat x =? s)%nat) (players room) = Some p /\
    (includeFolded opts = false -> folded p = false) /\
    (includeAllIn opts = false -> allIn p = false) /\
    (requireStack opts = true -> 0 < stack p).
Proof.
  unfold nextActiveSeat. destruct (_ =? _)%nat; [discriminate |].
  apply scanSeats_Some.
Qed.

(** The seat resolver only reads the players. *)
Lemma nextActiveSeat_ext room room' from opts :
  players room' = players room ->
  nextActiveSeat room' from opts = nextActiveSeat room from opts.
Proof. intros H. unfold nextActiveSeat. now rewrite H. Qed.

Lemma seatedPlayers_Permutation room : seatedPlayers room ≡ₚ players room.
Proof. apply merge_sort_Permutation. Qed.

Lemma activeSeats_length room :
  (length (activeSeats room) <= length (players room))%nat.
Proof.
  unfold activeSeats. rewrite length_map.
  rewrite <- (Permutation_length (seatedPlayers_Permutation room)).
  apply filter_length_le.
Qed.

Lemma activeSeats_In room s :
  In s (activeSeats room) ->
  exists p, In p (players room) /\ seat p = s /\ 0 < stack p.
Proof.
  unfold activeSeats. rewrite in_map_iff. intros (p & Hs & Hp).
  apply filter_In in Hp as [Hp Hpos]. exists p. repeat split.
  - apply list_elem_of_In. rewrite <- (seatedPlayers_Permutation room).
    now apply list_elem_of_In.
  - exact Hs.
  - now apply Z.ltb_lt.
Qed.

Lemma activeSeats_ext room room' :
  players room' = players room -> activeSeats room' = activeSeats room.
Proof. intros H. unfold activeSeats, seatedPlayers. now rewrite H. Qed.

Lemma assignSeat_Some room s :
  assignSeat room = Some s ->
  (s < MAX_PLAYERS)%nat /\ s ∉ map seat (players room).
Proof.
  unfold assignSeat. intros H. apply find_some in H as [Hin Hfree]. split.
  - apply in_seq in Hin. lia.
  - intros Hs. apply negb_true_iff in Hfree.
    assert (existsb (Nat.eqb s) (map seat (players room)) = true); [| congruence].
    apply existsb_exists. exists s. split; [now apply list_elem_of_In | apply Nat.eqb_refl].
Qed.

(** ** What the primitives do to the players *)

Lemma Forall2_map_step {A} (R : A -> A -> Prop) (f : A -> A) (l : list A) :
  (forall x, R x (f x)) -> Forall2 R l (map f l).
Proof. intros H. induction l; simpl; constructor; auto. Qed.

Lemma Forall2_same {A} (R : A -> A -> Prop) (l : list A) :
  (forall x, R x x) -> Forall2 R l l.
Proof. intros H. induction l; constructor; auto. Qed.

Lemma Forall2_alter_step {A} (R : A -> A -> Prop) (f : A -> A) (i : nat)
      (l : list A) :
  (forall x, R x x) -> (forall x, l !! i = Some x -> R x (f x)) ->
  Forall2 R l (alter f i l).
Proof.
  intros Hrefl. revert i. induction l as [| x l IH]; intros i H.
  - constructor.
  - destruct i as [| i]; cbn; constructor.
    + apply H. reflexivity.
    + now apply Forall2_same.
    + apply Hrefl.
    + apply IH. intros y Hy. apply H. exact Hy.
Qed.

Lemma acts_refl p : acts p p.
Proof. repeat split; auto. Qed.

Lemma acts_trans p q r : acts p q -> acts q r -> acts p r.
Proof.
  intros (? & ? & ? & ?) (? & ? & ? & ?). repeat split; try congruence. auto.
Qed.

Lemma Forall2_acts_refl ps : Forall2 acts ps ps.
Proof. induction ps; constructor; auto using acts_refl. Qed.

Lemma Forall2_acts_trans ps qs rs :
  Forall2 acts ps qs -> Forall2 acts qs rs -> Forall2 acts ps rs.
Proof.
  intros H. revert rs. induction H; intros rs Hr; inversion Hr; subst;
    constructor; eauto using acts_trans.
Qed.

Lemma acts_seats ps qs : Forall2 acts ps qs -> map seat qs = map seat ps.
Proof. induction 1 as [| p q ps qs (? & _) _ IH]; simpl; congruence. Qed.

Lemma acts_holes ps qs :
  Forall2 acts ps qs -> flat_map hole qs = flat_map hole ps.
Proof. induction 1 as [| p q ps qs (_ & _ & ? & _) _ IH]; simpl; congruence. Qed.

Lemma acts_chipless ps qs :
  Forall2 acts ps qs -> Forall chiplessOk ps -> Forall chiplessOk qs.
Proof.
  induction 1 as [| p q ps qs (_ & _ & _ & H) _ IH]; intros Hall;
    inversion Hall; subst; constructor; auto.
Qed.

Lemma acts_seat_bound ps qs :
  Forall2 acts ps qs ->
  Forall (fun p => (seat p < MAX_PLAYERS)%nat) ps ->
  Forall (fun p => (seat p < MAX_PLAYERS)%nat) qs.
Proof.
  induction 1 as [| p q ps qs (E & _) _ IH]; intros Hall;
    inversion Hall; subst; constructor; auto. now rewrite E.
Qed.

(** Field changes that [acts] allows. *)
Lemma acts_flags (p p' : Player) :
  seat p' = seat p -> pid p' = pid p -> hole p' = hole p ->
  stack p' = stack p -> allIn p' = allIn p ->
  (folded p = true -> folded p' = true) ->
  acts p p'.
Proof.
  intros Hs Hi Hh Hst Ha Hf. repeat split; auto.
  unfold chiplessOk. rewrite Hst, Ha, Hh. intros H Hle.
  destruct (H Hle) as [? | [? ?]]; auto.
Qed.

Lemma payChips_acts (w : Z) (p : Player) :
  acts p (payChips (Z.max 0 (Z.min w (stack p))) p).
Proof.
  unfold payChips. cbn [stack set_stack set_betThisRound set_committed
                        betThisRound committed].
  set (pay := Z.max 0 (Z.min w (stack p))).
  destruct (Z.eqb_spec (stack p - pay) 0) as [E | E].
  - repeat split. intros _ _. now left.
  - repeat split. unfold chiplessOk. simpl. intros H Hle.
    assert (Hp : stack p <= 0) by lia.
    destruct (H Hp) as [? | ?]; auto.
Qed.

Lemma commitChips_inv room i w room' pay :
  commitChips room i w = Some (room', pay) ->
  exists p, players room !! i = Some p /\
    pay = Z.max 0 (Z.min w (stack p)) /\
    room' = set_pot (pot room + pay) (updPlayer room i (payChips pay)).
Proof.
  unfold commitChips. destruct (players room !! i) as [p |]; [| discriminate].
  simpl. intros [= <- <-]. eauto.
Qed.

Lemma commitChips_acts room i w room' pay :
  commitChips room i w = Some (room', pay) ->
  Forall2 acts (players room) (players room').
Proof.
  intros H. apply commitChips_inv in H as (p & Hp & -> & ->). rsimpl.
  apply Forall2_alter_step; [apply acts_refl |].
  intros x Hx. rewrite Hp in Hx. injection Hx as <-. apply payChips_acts.
Qed.

(** ** The betting branches *)

Lemma sameTable_refl room : sameTable room room.
Proof. repeat split. Qed.

Lemma sameTable_trans r1 r2 r3 :
  sameTable r1 r2 -> sameTable r2 r3 -> sameTable r1 r3.
Proof.
  intros (? & ? & ? & ? & ? & ?) (? & ? & ? & ? & ? & ?).
  repeat split; congruence.
Qed.

Lemma commitChips_table room i w room' pay :
  commitChips room i w = Some (room', pay) -> sameTable room room'.
Proof.
  intros H. apply commitChips_inv in H as (p & _ & _ & ->). repeat split.
Qed.

Lemma raiseTo_table room p total prevBet :
  sameTable room (raiseTo room p total prevBet).
Proof.
  unfold raiseTo. destruct (_ <? _); [| apply sameTable_refl].
  destruct (_ <=? _); repeat split.
Qed.

Lemma raiseTo_acts room p total prevBet :
  Forall2 acts (players room) (players (raiseTo room p total prevBet)).
Proof.
  rewrite raiseTo_players. destruct (_ <? _); [| apply Forall2_acts_refl].
  unfold resetOthers. rsimpl. apply Forall2_map_step. intros x.
  destruct (String.eqb _ _); [apply acts_refl |].
  destruct (_ || _); [apply acts_refl |].
  apply acts_flags; auto.
Qed.

Lemma updPlayer_acts room i f :
  (forall x, acts x (f x)) ->
  Forall2 acts (players room) (players (updPlayer room i f)).
Proof. intros H. rsimpl. apply Forall2_alter_step; auto using acts_refl. Qed.

Lemma actFold_acts room i p :
  Forall2 acts (players room) (players (actFold room i p))
  /\ sameTable room (actFold room i p).
Proof.
  split; [| repeat split]. unfold actFold. rsimpl.
  apply Forall2_alter_step; [apply acts_refl |]. intros x _.
  apply acts_flags; auto.
Qed.

Lemma actCheck_acts room i p :
  Forall2 acts (players room) (players (actCheck room i p))
  /\ sameTable room (actCheck room i p).
Proof.
  split; [| repeat split]. unfold actCheck. rsimpl.
  apply Forall2_alter_step; [apply acts_refl |]. intros x _.
  apply acts_flags; auto.
Qed.

Lemma actCall_acts room i p c room' :
  actCall room i p c = Some room' ->
  Forall2 acts (players room) (players room') /\ sameTable room room'.
Proof.
  unfold actCall. destruct (c =? 0).
  - intros [= <-]. apply actCheck_acts.
  - destruct (commitChips room i c) as [[r1 paid] |] eqn:Hc; [| discriminate].
    simpl. destruct (players r1 !! i) as [p' |]; [| discriminate]. simpl.
    intros [= <-]. split.
    + eapply Forall2_acts_trans; [eapply commitChips_acts, Hc |].
      rsimpl. apply Forall2_alter_step; [apply acts_refl |]. intros x _.
      apply acts_flags; auto.
    + eapply sameTable_trans; [eapply commitChips_table, Hc |]. repeat split.
Qed.

Lemma actAllIn_acts room i p room' :
  actAllIn room i p = Some (Some room') ->
  Forall2 acts (players room) (players room') /\ sameTable room room'.
Proof.
  unfold actAllIn. destruct (_ <=? 0); [discriminate |].
  destruct (_ <=? 0); [discriminate |].
  destruct (commitChips room i _) as [[r1 paid] |] eqn:Hc; [| discriminate].
  simpl. intros [= <-]. split.
  - eapply Forall2_acts_trans; [eapply commitChips_acts, Hc |].
    eapply Forall2_acts_trans; [apply raiseTo_acts |].
    rsimpl. apply Forall2_alter_step; [apply acts_refl |]. intros x _.
    apply acts_flags; auto.
  - eapply sameTable_trans; [eapply commitChips_table, Hc |].
    eapply sameTable_trans; [apply raiseTo_table |]. repeat split.
Qed.

Lemma actBetRaise_acts room i p isRaise amount room' :
  actBetRaise room i p isRaise amount = Some (Some room') ->
  Forall2 acts (players room) (players room') /\ sameTable room room'.
Proof.
  unfold actBetRaise. destruct (_ <=? 0); [discriminate |].
  destruct (_ && _); [discriminate |].
  destruct (_ <=? 0); [discriminate |].
  destruct (commitChips room i _) as [[r1 paid] |] eqn:Hc; [| discriminate].
  simpl. destruct (players _ !! i) as [p' |]; [| discriminate]. simpl.
  intros [= <-]. split.
  - eapply Forall2_acts_trans; [eapply commitChips_acts, Hc |].
    eapply Forall2_acts_trans; [apply raiseTo_acts |].
    rsimpl. apply Forall2_alter_step; [apply acts_refl |]. intros x _.
    apply acts_flags; auto.
  - eapply sameTable_trans; [eapply commitChips_table, Hc |].
    eapply sameTable_trans; [apply raiseTo_table |]. repeat split.
Qed.

Lemma applyAction_acts room i p word amount room' :
  applyAction room i p word amount = Some (Some room') ->
  Forall2 acts (players room) (players room') /\ sameTable room room'.
Proof.
  unfold applyAction.
  destruct (String.eqb word "fold"); [intros [= <-]; apply actFold_acts |].
  destruct (String.eqb word "check").
  { destruct (negb _); [discriminate |]. intros [= <-]. apply actCheck_acts. }
  destruct (String.eqb word "call").
  { destruct (actCall _ _ _ _) as [r |] eqn:E; [| discriminate].
    simpl. intros [= <-]. eapply actCall_acts, E. }
  destruct (String.eqb word "all-in"); [apply actAllIn_acts |].
  destruct (String.eqb word "bet"); [apply actBetRaise_acts |].
  destruct (String.eqb word "raise"); [apply actBetRaise_acts |].
  discriminate.
Qed.

(** The branches keep the table invariants. *)
Lemma acts_TableInv room room' :
  Forall2 acts (players room) (players room') -> sameTable room room' ->
  TableInv room -> TableInv room'.
Proof.
  intros Hacts (Hst & Hsg & Hd & Hc & _ & _) [[Hnd Hb] Hch Hcards Hboard Hholes].
  assert (Hh : holeCards room' = holeCards room) by (apply acts_holes, Hacts).
  constructor.
  - split; [now rewrite (acts_seats _ _ Hacts) | eapply acts_seat_bound; eauto].
  - eapply acts_chipless; eauto.
  - unfold cardsOf. now rewrite Hd, Hc, Hh.
  - now rewrite Hc, Hsg.
  - now rewrite Hh.
Qed.

(** ** Dealing the board *)

Lemma top_to_board (d hs cm : list Card) :
  d <> [] ->
  removelast d ++ hs ++ (cm ++ [List.last d Undefined]) ≡ₚ d ++ hs ++ cm.
Proof.
  intros H. rewrite (app_removelast_last Undefined H) at 3.
  rewrite <- !app_assoc. apply Permutation_app_head.
  rewrite (app_assoc hs cm). apply Permutation_app_comm.
Qed.

Lemma removelast_length {A} (d : list A) :
  length (removelast d) = (length d - 1)%nat.
Proof.
  induction d as [| x d IH]; [reflexivity |].
  destruct d as [| y d]; [reflexivity |].
  change (removelast (x :: y :: d)) with (x :: removelast (y :: d)).
  simpl length in *. lia.
Qed.

Lemma nonempty_length {A} (d : list A) : (0 < length d)%nat -> d <> [].
Proof. destruct d; simpl; [lia | discriminate]. Qed.

(** Three cards from the top of the deck to the board. *)
Lemma flop_to_board (d hs cm : list Card) :
  (3 <= length d)%nat ->
  removelast (removelast (removelast d)) ++ hs ++
    (cm ++ [List.last d Undefined;
            List.last (removelast d) Undefined;
            List.last (removelast (removelast d)) Undefined])
  ≡ₚ d ++ hs ++ cm.
Proof.
  intros H.
  rewrite <- (top_to_board d hs cm) by (apply nonempty_length; lia).
  rewrite <- (top_to_board (removelast d)) by
    (apply nonempty_length; rewrite removelast_length; lia).
  rewrite <- (top_to_board (removelast (removelast d))) by
    (apply nonempty_length; rewrite !removelast_length; lia).
  now rewrite <- !app_assoc.
Qed.

(** ** Choosing the actor *)

Lemma actorOk_next room from opts :
  includeFolded opts = false ->
  NoDup (map seat (players room)) ->
  actorOk (set_currentSeat (nextActiveSeat room from opts) room).
Proof.
  intros Hopt Hnd p s Hp Hcur Hs. rsimpl.
  apply nextActiveSeat_Some in Hcur as (_ & q & Hfind & Hf & _).
  rewrite (seat_unique _ _ _ _ Hnd Hfind Hp Hs). auto.
Qed.

Lemma actorOk_ext room room' :
  players room' = players room -> currentSeat room' = currentSeat room ->
  actorOk room -> actorOk room'.
Proof. intros Hp Hc H p s. rewrite Hp, Hc. apply H. Qed.

Lemma startBettingRound_acts room :
  Forall2 acts (players room) (players (startBettingRound room)).
Proof.
  unfold startBettingRound. rsimpl. apply Forall2_map_step. intros x.
  destruct (canAct x); [| apply acts_refl]. apply acts_flags; auto.
Qed.

Lemma startBettingRound_table room :
  state (startBettingRound room) = state room /\
  stage (startBettingRound room) = stage room /\
  deck (startBettingRound room) = deck room /\
  community (startBettingRound room) = community room.
Proof. repeat split. Qed.

Lemma startBettingRound_actor room :
  NoDup (map seat (players room)) -> actorOk (startBettingRound room).
Proof.
  intros Hnd. unfold startBettingRound.
  set (r := set_players _ _).
  eapply (actorOk_ext (set_currentSeat (nextActiveSeat r (dealerSeat r) bettingOpts) r));
    [reflexivity | reflexivity |].
  apply actorOk_next; [reflexivity |].
  unfold r. rsimpl. rewrite map_map. simpl.
  erewrite map_ext; [exact Hnd |]. intros x. simpl. now destruct (canAct x).
Qed.

(** ** Advancing the street *)

Lemma TableInv_deck room :
  TableInv room -> (31 <= length (deck room))%nat.
Proof.
  intros [_ _ Hcards Hboard Hholes].
  apply Permutation_length in Hcards. unfold cardsOf in Hcards.
  rewrite !length_app, orderedDeck_length, Hboard in Hcards.
  unfold MAX_PLAYERS in Hholes. destruct (stage room); simpl in Hcards; lia.
Qed.

Lemma advanceStage_inv room room' armed :
  TableInv room -> state room = Hand ->
  advanceStage room = (room', armed) -> RoomInv room'.
Proof.
  intros Hinv Hst Hadv. pose proof (TableInv_deck _ Hinv) as Hlen.
  destruct Hinv as [[Hnd Hb] Hch Hcards Hboard Hholes].
  unfold advanceStage in Hadv.
  destruct (stage room) eqn:Hsg; cbn [pop] in Hadv; rsimpl;
    injection Hadv as <- <-.
  4:{ (* river: reveal *)
    constructor; rsimpl; try (intros; congruence).
    - split; assumption.
    - intros _. exact Hcards. }
  all: match goal with
       | |- RoomInv (startBettingRound ?r) =>
           assert (Hacts : Forall2 acts (players room) (players (startBettingRound r)))
             by apply (startBettingRound_acts r);
           assert (Hact : actorOk (startBettingRound r))
             by (apply startBettingRound_actor; exact Hnd)
       end.
  all: constructor;
    [ split; [rewrite (acts_seats _ _ Hacts); exact Hnd
             | eapply acts_seat_bound; eauto]
    | intros _; eapply acts_chipless; eauto
    | intros _; exact Hact
    | intros _; unfold cardsOf, holeCards;
      rewrite (acts_holes _ _ Hacts); cbn -[removelast List.last];
      rewrite <- Hcards; unfold cardsOf, holeCards
    | intros _; unfold holeCards; rewrite (acts_holes _ _ Hacts);
      cbn -[removelast List.last]; rewrite length_app, Hboard;
      split; [reflexivity | exact Hholes] ].
  - apply flop_to_board. lia.
  - apply top_to_board. apply nonempty_length. lia.
  - apply top_to_board. apply nonempty_length. lia.
Qed.

(** ** Running out the board *)

Lemma runOutStreet_players room : players (runOutStreet room) = players room.
Proof. unfold runOutStreet. destruct (stage room); reflexivity. Qed.

Lemma runOutStreet_state room :
  state (runOutStreet room)
  = match stage room with River => Reveal | _ => state room end.
Proof. unfold runOutStreet. destruct (stage room); reflexivity. Qed.

Lemma runOutStreet_left room :
  stage room <> River ->
  S (streetsLeft (stage (runOutStreet room))) = streetsLeft (stage room).
Proof.
  unfold runOutStreet. destruct (stage room); intros H; try reflexivity.
  congruence.
Qed.

Lemma runOutStreet_cards room :
  (3 <= length (deck room))%nat ->
  cardsOf (runOutStreet room) ≡ₚ cardsOf room /\
  (length (deck room) - 3 <= length (deck (runOutStreet room)))%nat.
Proof.
  intros H. unfold runOutStreet, cardsOf, holeCards.
  destruct (stage room); cbn -[removelast List.last];
    rewrite ?removelast_length; (split; [| lia]).
  - now apply flop_to_board.
  - apply top_to_board, nonempty_length. lia.
  - apply top_to_board, nonempty_length. lia.
  - reflexivity.
Qed.

Lemma stillCanAct_ext room room' :
  players room' = players room -> stillCanAct room' = stillCanAct room.
Proof. intros H. unfold stillCanAct. now rewrite H. Qed.

Lemma runOut_idle n room : state room <> Hand -> runOut n room = room.
Proof.
  intros H. destruct n; [reflexivity |]. cbn [runOut].
  now rewrite bool_decide_eq_false_2.
Qed.

Lemma runOut_players n room : players (runOut n room) = players room.
Proof.
  revert room. induction n as [| n IH]; intros room; [reflexivity |].
  cbn [runOut]. destruct (bool_decide _); [| reflexivity].
  destruct (stillCanAct room); [reflexivity |].
  destruct (bool_decide _); [apply runOutStreet_players |].
  rewrite IH. apply runOutStreet_players.
Qed.

Lemma runOut_cards n room :
  (3 * n <= length (deck room))%nat ->
  cardsOf (runOut n room) ≡ₚ cardsOf room.
Proof.
  revert room. induction n as [| n IH]; intros room Hlen; [reflexivity |].
  cbn [runOut]. destruct (bool_decide _); [| reflexivity].
  destruct (stillCanAct room); [reflexivity |].
  destruct (runOutStreet_cards room) as [Hperm Hdeck]; [lia |].
  destruct (bool_decide _); [exact Hperm |].
  rewrite IH by lia. exact Hperm.
Qed.

(** When nobody can act, the loop ends in the reveal. *)
Lemma runOut_reveals n room :
  state room = Hand -> stillCanAct room = false ->
  (streetsLeft (stage room) <= n)%nat ->
  state (runOut n room) = Reveal.
Proof.
  revert room. induction n as [| n IH]; intros room Hst Hno Hn.
  - destruct (stage room); simpl in Hn; lia.
  - cbn [runOut]. rewrite bool_decide_eq_true_2 by exact Hst. rewrite Hno.
    pose proof (runOutStreet_state room) as Hs.
    destruct (decide (stage room = River)) as [Hr | Hr].
    + rewrite Hr in Hs. rewrite bool_decide_eq_false_2 by congruence.
      rewrite runOut_idle by congruence. exact Hs.
    + assert (Hs' : state (runOutStreet room) = Hand)
        by (rewrite Hs, <- Hst; now destruct (stage room)).
      rewrite bool_decide_eq_false_2 by congruence.
      apply IH; [exact Hs' | |].
      * rewrite (stillCanAct_ext room); [exact Hno | apply runOutStreet_players].
      * pose proof (runOutStreet_left room Hr). lia.
Qed.

(** The fuel of the model is enough: once it covers the streets left,
    more fuel changes nothing. *)
Lemma runOut_enough n m room :
  (streetsLeft (stage room) <= n)%nat -> (n <= m)%nat ->
  runOut m room = runOut n room.
Proof.
  revert m room. induction n as [| n IH]; intros m room Hleft Hnm.
  - destruct (stage room); simpl in Hleft; lia.
  - destruct m as [| m]; [lia |]. cbn [runOut].
    destruct (bool_decide (state room = Hand)); [| reflexivity].
    destruct (stillCanAct room); [reflexivity |].
    destruct (bool_decide (state (runOutStreet room) = Showdown));
      [reflexivity |].
    destruct (decide (stage room = River)) as [Hr | Hr].
    + pose proof (runOutStreet_state room) as Hs. rewrite Hr in Hs.
      rewrite !runOut_idle by congruence. reflexivity.
    + pose proof (runOutStreet_left room Hr). apply IH; lia.
Qed.

Lemma runOut_fuel n room : runOut (4 + n) room = runOut 4 room.
Proof.
  apply runOut_enough; [destruct (stage room); simpl; lia | lia].
Qed.

(** If the loop leaves the room in a hand, it has done nothing. *)
Lemma runOut_Hand room :
  state room = Hand -> state (runOut 4 room) = Hand -> runOut 4 room = room.
Proof.
  intros Hst Hres. destruct (stillCanAct room) eqn:Hcan.
  - cbn [runOut]. rewrite bool_decide_eq_true_2 by exact Hst. now rewrite Hcan.
  - rewrite (runOut_reveals 4 room Hst Hcan) in Hres; [discriminate |].
    destruct (stage room); simpl; lia.
Qed.

(** ** After the branch *)

Lemma map_alter_same {A B} (g : A -> B) (f : A -> A) (i : nat) (l : list A) :
  (forall x, g (f x) = g x) -> map g (alter f i l) = map g l.
Proof.
  intros H. revert i. induction l as [| x l IH]; intros i; [reflexivity |].
  destruct i; cbn; [now rewrite H | now rewrite IH].
Qed.

Lemma flat_map_alter_same {A B} (g : A -> list B) (f : A -> A) (i : nat)
      (l : list A) :
  (forall x, g (f x) = g x) -> flat_map g (alter f i l) = flat_map g l.
Proof.
  intros H. revert i. induction l as [| x l IH]; intros i; [reflexivity |].
  destruct i; cbn; [now rewrite H | now rewrite IH].
Qed.

Lemma Forall_alter_same {A} (P : A -> Prop) (f : A -> A) (i : nat) (l : list A) :
  (forall x, P x -> P (f x)) -> Forall P l -> Forall P (alter f i l).
Proof.
  intros H Hl. revert i. induction Hl as [| x l Hx Hl IH]; intros i;
    [constructor |].
  destruct i; cbn; constructor; auto.
Qed.

Lemma awardPotTo_inv room i room' armed :
  TableInv room -> awardPotTo room i = Some (room', armed) -> RoomInv room'.
Proof.
  intros [[Hnd Hb] _ Hcards _ _]. unfold awardPotTo.
  destruct (players room !! i) as [p |]; [| discriminate]. simpl.
  intros [= <- <-].
  constructor; rsimpl; try (intros; congruence).
  - unfold seatsOk. rsimpl. split.
    + rewrite map_alter_same by reflexivity. exact Hnd.
    + apply Forall_alter_same; auto.
  - intros _. unfold cardsOf, holeCards. rsimpl.
    rewrite flat_map_alter_same by reflexivity. exact Hcards.
Qed.

Lemma TableInv_RoomInv room :
  TableInv room -> actorOk room -> RoomInv room.
Proof. intros [] ?. constructor; auto. Qed.

Lemma RoomInv_TableInv room :
  RoomInv room -> state room = Hand -> TableInv room.
Proof.
  intros [? Hch _ Hc Hb] Hst. destruct (Hb Hst). constructor; auto.
Qed.

(** Outside a hand only the seats and, in the reveal, the cards matter. *)
Lemma RoomInv_outside room :
  seatsOk room -> state room <> Hand ->
  (state room = Reveal -> cardsOf room ≡ₚ orderedDeck) ->
  RoomInv room.
Proof.
  intros Hs Hst Hc. constructor; auto; try (intros; contradiction).
  intros [? | ?]; [contradiction | auto].
Qed.

Lemma afterAction_inv room room' armed :
  TableInv room -> state room = Hand ->
  afterAction room = Some (room', armed) -> RoomInv room'.
Proof.
  intros Hinv Hst. unfold afterAction.
  destruct (loneSurvivor room) as [s |]; [apply awardPotTo_inv, Hinv |].
  destruct (shouldEndBettingRound room).
  - destruct (bool_decide_reflect (state (runOut 4 room) = Hand)) as [Hh | Hh].
    + rewrite (runOut_Hand room Hst Hh).
      destruct (advanceStage room) as [r ts] eqn:Hadv.
      pose proof (advanceStage_inv _ _ _ Hinv Hst Hadv) as Hr.
      destruct (bool_decide (state r = Reveal)); intros [= <- <-]; exact Hr.
    + assert (Hr : RoomInv (runOut 4 room)).
      { apply RoomInv_outside; [| exact Hh |].
        - destruct Hinv as [[Hnd Hb] _ _ _ _]. unfold seatsOk.
          now rewrite runOut_players.
        - intros _. rewrite runOut_cards; [apply Hinv |].
          pose proof (TableInv_deck _ Hinv). lia. }
      destruct (bool_decide _); intros [= <- <-]; exact Hr.
  - intros [= <- <-]. apply TableInv_RoomInv.
    + destruct Hinv. constructor; auto.
    + unfold moveToNextActor. apply actorOk_next; [reflexivity |].
      apply Hinv.
Qed.

(** The handler keeps the invariants of the room. *)
Lemma handlePlayerAction_inv room i action amount room' armed :
  RoomInv room ->
  handlePlayerAction room i action amount = Some (room', armed) ->
  RoomInv room'.
Proof.
  intros Hinv. unfold handlePlayerAction.
  destruct (players room !! i) as [p |]; [| now intros [= <- <-]].
  destruct (bool_decide_reflect (state room = Hand)) as [Hst | Hst];
    cbn [negb]; [| now intros [= <- <-]].
  destruct (currentSeat room) as [cs |]; [| now intros [= <- <-]].
  destruct (negb _); [now intros [= <- <-] |].
  destruct (_ || _); [now intros [= <- <-] |].
  destruct (actionWord action) as [word |]; [| discriminate]. simpl.
  destruct (applyAction room i p word amount) as [[r1 |] |] eqn:Happ;
    [| now intros [= <- <-] | discriminate].
  simpl. destruct (applyAction_acts _ _ _ _ _ _ Happ) as [Hacts Htab].
  apply afterAction_inv.
  - eapply acts_TableInv; eauto. now apply RoomInv_TableInv.
  - destruct Htab as [-> _]. exact Hst.
Qed.

(** ** Dealing the hole cards *)

Lemma dealt_refl q : dealt q q.
Proof. repeat split. Qed.

Lemma dealt_trans p q r : dealt p q -> dealt q r -> dealt p r.
Proof.
  intros (? & ? & ? & Hs & ? & Hh) (? & ? & ? & ? & ? & Hh').
  repeat split; try congruence.
  intros Hle. rewrite Hh' by lia. auto.
Qed.

Lemma Forall2_dealt_trans ps qs rs :
  Forall2 dealt ps qs -> Forall2 dealt qs rs -> Forall2 dealt ps rs.
Proof.
  intros H. revert rs. induction H; intros rs Hr; inversion Hr; subst;
    constructor; eauto using dealt_trans.
Qed.

Lemma dealt_seats ps qs : Forall2 dealt ps qs -> map seat qs = map seat ps.
Proof. induction 1 as [| p q ps qs (? & _) _ IH]; simpl; congruence. Qed.

Lemma find_seat_dealt ps qs s :
  Forall2 dealt ps qs ->
  option_Forall2 dealt (List.find (fun y => (seat y =? s)%nat) ps)
                       (List.find (fun y => (seat y =? s)%nat) qs).
Proof.
  induction 1 as [| p q ps qs Hpq _ IH]; simpl; [constructor |].
  pose proof Hpq as (Hs & _). rewrite Hs.
  destruct (seat p =? s)%nat; [now constructor | exact IH].
Qed.

Lemma fundedSeat_dealt room room' s :
  Forall2 dealt (players room) (players room') ->
  fundedSeat room s -> fundedSeat room' s.
Proof.
  intros Hd Hf s0 x -> Hx.
  pose proof (find_seat_dealt _ _ s0 Hd) as H. rewrite Hx in H.
  inversion H as [p q Hpq Hp |]; subst.
  destruct Hpq as (_ & _ & _ & -> & _). eapply Hf; eauto.
Qed.

Lemma fundedSeat_next room from :
  fundedSeat room (nextActiveSeat room from dealOpts).
Proof.
  intros s0 x Hs Hx. apply nextActiveSeat_Some in Hs as (_ & p & Hp & _ & _ & H).
  rewrite Hx in Hp. injection Hp as <-. now apply H.
Qed.

Lemma flat_map_hole_push (ps : list Player) (i : nat) (p : Player) (c : Card) :
  ps !! i = Some p ->
  flat_map hole (alter (fun p => set_hole (hole p ++ [c]) p) i ps)
  ≡ₚ flat_map hole ps ++ [c].
Proof.
  revert i. induction ps as [| x ps IH]; intros i Hi; [destruct i; discriminate |].
  destruct i as [| i]; cbn in *.
  - rewrite <- !app_assoc. apply Permutation_app_head, Permutation_app_comm.
  - rewrite (IH i Hi). now rewrite app_assoc.
Qed.

Lemma sameStreet_refl room : sameStreet room room.
Proof. repeat split. Qed.

Lemma sameStreet_trans r1 r2 r3 :
  sameStreet r1 r2 -> sameStreet r2 r3 -> sameStreet r1 r3.
Proof.
  intros (? & ? & ? & ? & ?) (? & ? & ? & ? & ?). repeat split; congruence.
Qed.

(** One card to the player on a funded seat. *)
Lemma dealOne_spec room s :
  fundedSeat room s -> (0 < length (deck room))%nat ->
  Forall2 dealt (players room) (players (dealOne room s)) /\
  cardsOf (dealOne room s) ≡ₚ cardsOf room /\
  (length (holeCards (dealOne room s)) <= length (holeCards room) + 1)%nat /\
  (length (deck room) - 1 <= length (deck (dealOne room s)))%nat /\
  sameStreet room (dealOne room s).
Proof.
  intros Hf Hdeck. unfold dealOne.
  assert (Hsame : Forall2 dealt (players room) (players room) /\
                  cardsOf room ≡ₚ cardsOf room /\
                  (length (holeCards room) <= length (holeCards room) + 1)%nat /\
                  (length (deck room) - 1 <= length (deck room))%nat /\
                  sameStreet room room).
  { split; [apply Forall2_same, dealt_refl |]. split; [reflexivity |].
    split; [lia |]. split; [lia | apply sameStreet_refl]. }
  destruct (findBySeat room s) as [i |] eqn:Hfind; [| exact Hsame].
  destruct (players room !! i) as [p |] eqn:Hp; [| exact Hsame].
  destruct (0 <=? stack p); [| exact Hsame].
  assert (Hpos : 0 < stack p).
  { destruct s as [s0 |]; [| discriminate]. simpl in Hfind.
    apply findIndex_Some in Hfind as (x & Hx & _ & Hfx).
    rewrite Hp in Hx. injection Hx as <-. eapply Hf; eauto. }
  cbn [pop]. unfold cardsOf, holeCards. rsimpl.
  pose proof (flat_map_hole_push _ _ _ (List.last (deck room) Undefined) Hp) as Hh.
  split; [| split; [| split; [| split]]].
  - apply Forall2_alter_step; [apply dealt_refl |].
    intros x Hx. rewrite Hp in Hx. injection Hx as <-.
    repeat split. simpl. lia.
  - rewrite Hh.
    rewrite <- (top_to_board (deck room) (flat_map hole (players room))
                  (community room)) by (apply nonempty_length; lia).
    apply Permutation_app_head. rewrite <- app_assoc.
    apply Permutation_app_head, Permutation_app_comm.
  - rewrite (Permutation_length Hh), length_app. simpl. lia.
  - rewrite removelast_length. lia.
  - repeat split.
Qed.

Lemma dealPass_spec n room s :
  fundedSeat room s -> (n <= length (deck room))%nat ->
  Forall2 dealt (players room) (players (dealPass n room s).1) /\
  cardsOf (dealPass n room s).1 ≡ₚ cardsOf room /\
  (length (holeCards (dealPass n room s).1) <= length (holeCards room) + n)%nat /\
  (length (deck room) - n <= length (deck (dealPass n room s).1))%nat /\
  sameStreet room (dealPass n room s).1 /\
  fundedSeat (dealPass n room s).1 (dealPass n room s).2.
Proof.
  revert room s. induction n as [| n IH]; intros room s Hf Hn; cbn [dealPass].
  - simpl. split; [apply Forall2_same, dealt_refl |]. split; [reflexivity |].
    split; [lia |]. split; [lia |]. split; [apply sameStreet_refl | exact Hf].
  - destruct (dealOne_spec room s Hf) as (Hd & Hc & Hh & Hk & Hs); [lia |].
    set (r1 := dealOne room s) in *.
    destruct (IH r1 (nextActiveSeat r1 s dealOpts)) as (Hd' & Hc' & Hh' & Hk' & Hs' & Hf');
      [apply fundedSeat_next | lia |].
    split; [eapply Forall2_dealt_trans; eauto |].
    split; [now rewrite Hc' |].
    split; [lia |]. split; [lia |].
    split; [eapply sameStreet_trans; eauto | exact Hf'].
Qed.

Lemma dealHoleCards_spec room :
  (2 * length (players room) <= length (deck room))%nat ->
  Forall2 dealt (players room) (players (dealHoleCards room)) /\
  cardsOf (dealHoleCards room) ≡ₚ cardsOf room /\
  (length (holeCards (dealHoleCards room))
   <= length (holeCards room) + 2 * length (players room))%nat /\
  sameStreet room (dealHoleCards room).
Proof.
  intros Hlen. unfold dealHoleCards.
  pose proof (activeSeats_length room) as Hn.
  set (n := length (activeSeats room)) in *.
  destruct (n <? 2)%nat.
  { split; [apply Forall2_same, dealt_refl |]. split; [reflexivity |].
    split; [lia | apply sameStreet_refl]. }
  set (s := nextActiveSeat room (dealerSeat room) dealOpts).
  destruct (dealPass_spec n room s) as (Hd & Hc & Hh & Hk & Hs & Hf);
    [apply fundedSeat_next | lia |].
  destruct (dealPass n room s) as [r1 s1] eqn:E1. simpl in *.
  destruct (dealPass_spec n r1 s1) as (Hd' & Hc' & Hh' & Hk' & Hs' & _);
    [exact Hf | lia |].
  destruct (dealPass n r1 s1) as [r2 s2] eqn:E2. simpl in *.
  split; [eapply Forall2_dealt_trans; eauto |].
  split; [now rewrite Hc' |]. split; [lia |].
  eapply sameStreet_trans; eauto.
Qed.

(** ** Posting the blinds *)

Lemma blinded_refl q : blinded q q.
Proof. split; [apply acts_refl | auto]. Qed.

Lemma blinded_trans p q r : blinded p q -> blinded q r -> blinded p r.
Proof.
  intros (Ha & Hf & Hs) (Ha' & Hf' & Hs').
  split; [eapply acts_trans; eauto |]. split; [congruence |].
  intros Hle. destruct (Hs Hle) as [E1 E2].
  destruct Hs' as [E3 E4]; [lia |]. split; congruence.
Qed.

Lemma Forall2_blinded_trans ps qs rs :
  Forall2 blinded ps qs -> Forall2 blinded qs rs -> Forall2 blinded ps rs.
Proof.
  intros H. revert rs. induction H; intros rs Hr; inversion Hr; subst;
    constructor; eauto using blinded_trans.
Qed.

Lemma payChips_folded pay q : folded (payChips pay q) = folded q.
Proof. unfold payChips. simpl. now destruct (_ =? _). Qed.

Lemma payChips_zero_allIn pay q :
  stack (payChips pay q) = 0 -> allIn (payChips pay q) = true.
Proof.
  unfold payChips. simpl. destruct (Z.eqb_spec (stack q - pay) 0); simpl;
    [reflexivity | contradiction].
Qed.

Lemma payChips_blinded w q :
  (stack q = 0 -> allIn q = true) ->
  blinded q (payChips (Z.max 0 (Z.min w (stack q))) q).
Proof.
  intros H. split; [apply payChips_acts |].
  split; [apply payChips_folded |].
  intros Hle. unfold payChips. simpl.
  replace (Z.max 0 (Z.min w (stack q))) with 0 by lia.
  rewrite Z.sub_0_r. destruct (Z.eqb_spec (stack q) 0); simpl; [| auto].
  split; [reflexivity | symmetry; auto].
Qed.

Lemma findBySeat_funded room s i x :
  fundedSeat room s -> findBySeat room s = Some i ->
  players room !! i = Some x -> 0 < stack x.
Proof.
  intros Hf Hfind Hx. destruct s as [s0 |]; [| discriminate].
  apply findIndex_Some in Hfind as (y & Hy & _ & Hfy).
  rewrite Hx in Hy. injection Hy as <-. eapply Hf; eauto.
Qed.

Lemma postBlinds_spec room room' blinds :
  (length (activeSeats room) = 2%nat -> fundedSeat room (dealerSeat room)) ->
  postBlinds room = Some (room', Some blinds) ->
  Forall2 blinded (players room) (players room') /\
  sameTable room room'.
Proof.
  intros Hdealer. unfold postBlinds.
  destruct (_ <? 2)%nat; [discriminate |].
  set (sbSeat := if (_ =? 2)%nat then _ else _).
  set (bbSeat := nextActiveSeat room sbSeat dealOpts).
  assert (Hsbf : fundedSeat room sbSeat).
  { unfold sbSeat. destruct (Nat.eqb_spec (length (activeSeats room)) 2);
      [auto | apply fundedSeat_next]. }
  assert (Hbbf : fundedSeat room bbSeat) by apply fundedSeat_next.
  destruct (findBySeat room sbSeat) as [sb |] eqn:Hsb; [| discriminate].
  destruct (findBySeat room bbSeat) as [bb |] eqn:Hbb; [| discriminate].
  cbn [mbind option_bind].
  destruct (commitChips room sb (smallBlind room)) as [[r1 pay1] |] eqn:Hc1;
    [| discriminate]. cbn [mbind option_bind].
  destruct (commitChips r1 bb (bigBlind r1)) as [[r2 pay2] |] eqn:Hc2;
    [| discriminate]. cbn [mbind option_bind].
  destruct (players r2 !! sb) as [sbP |]; [| discriminate].
  destruct (players r2 !! bb) as [bbP |]; [| discriminate].
  cbn [mbind option_bind]. intros [= <- _].
  pose proof (commitChips_table _ _ _ _ _ Hc1) as T1.
  pose proof (commitChips_table _ _ _ _ _ Hc2) as T2.
  apply commitChips_inv in Hc1 as (x & Hx & -> & ->).
  apply commitChips_inv in Hc2 as (y & Hy & -> & ->).
  split.
  - rsimpl.
    eapply Forall2_blinded_trans; [| apply Forall2_map_step].
    2:{ intros q. destruct (canAct q); [| apply blinded_refl].
        split; [apply acts_flags; auto | auto]. }
    eapply Forall2_blinded_trans.
    + apply Forall2_alter_step; [apply blinded_refl |].
      intros q Hq. rewrite Hx in Hq. injection Hq as <-.
      apply payChips_blinded.
      pose proof (findBySeat_funded _ _ _ _ Hsbf Hsb Hx). lia.
    + apply Forall2_alter_step; [apply blinded_refl |].
      intros q Hq. rsimpl. rewrite Hy in Hq. injection Hq as <-.
      apply payChips_blinded.
      rewrite list_lookup_alter in Hy. destruct (decide (sb = bb)) as [-> | Hne].
      * rewrite Hx in Hy. injection Hy as <-. apply payChips_zero_allIn.
      * pose proof (findBySeat_funded _ _ _ _ Hbbf Hbb Hy). lia.
  - eapply sameTable_trans; [exact T1 |].
    eapply sameTable_trans; [exact T2 |]. repeat split.
Qed.

(** ** Starting a hand *)

Lemma seat_inj (ps : list Player) (p q : Player) :
  NoDup (map seat ps) -> In p ps -> In q ps -> seat p = seat q -> p = q.
Proof.
  induction ps as [| a ps IH]; simpl; [contradiction |].
  intros Hnd Hp Hq Hs. apply NoDup_cons in Hnd as [Hna Hnd].
  destruct Hp as [-> | Hp], Hq as [-> | Hq]; auto.
  - exfalso. apply Hna. rewrite Hs. apply list_elem_of_In, in_map, Hq.
  - exfalso. apply Hna. rewrite <- Hs. apply list_elem_of_In, in_map, Hp.
Qed.

Lemma seatsOk_length room : seatsOk room -> (length (players room) <= 8)%nat.
Proof.
  intros [Hnd Hb].
  rewrite <- (length_map seat).
  change 8%nat with (length (seq 0 8)).
  apply submseteq_length, NoDup_submseteq; [exact Hnd |].
  intros s Hs. apply elem_of_seq. apply list_elem_of_In, in_map_iff in Hs
    as (p & <- & Hp).
  rewrite List.Forall_forall in Hb. specialize (Hb p Hp).
  unfold MAX_PLAYERS in Hb. lia.
Qed.

(** The seat the button moves to: everybody on it has chips. *)
Lemma new_dealer_funded room s p :
  seatsOk room ->
  match dealerSeat room with
  | None => head (activeSeats room)
  | Some d =>
      if existsb (Nat.eqb d) (activeSeats room)
      then nextActiveSeat room (Some d) dealOpts
      else head (activeSeats room)
  end = Some s ->
  In p (players room) -> seat p = s -> 0 < stack p.
Proof.
  intros [Hnd _] Hd Hp Hs.
  assert (Hhead : head (activeSeats room) = Some s -> 0 < stack p).
  { intros Hh. assert (Hin : In s (activeSeats room)).
    { destruct (activeSeats room); [discriminate |].
      injection Hh as ->. now left. }
    apply activeSeats_In in Hin as (q & Hq & Hqs & Hpos).
    rewrite (seat_inj _ p q Hnd Hp Hq); [exact Hpos | congruence]. }
  destruct (dealerSeat room) as [d |]; [| auto].
  destruct (existsb _ _); [| auto].
  apply nextActiveSeat_Some in Hd as (_ & q & Hq & _ & _ & Hpos).
  rewrite (seat_unique _ _ _ _ Hnd Hq Hp Hs). now apply Hpos.
Qed.

Lemma resetPlayer_holes ps : flat_map hole (map resetPlayer ps) = [].
Proof. induction ps; simpl; auto. Qed.

Lemma resetPlayer_seats ps : map seat (map resetPlayer ps) = map seat ps.
Proof. rewrite map_map. reflexivity. Qed.

Lemma begun_compose p q' q'' :
  blinded (resetPlayer p) q' -> dealt q' q'' -> begun p q''.
Proof.
  intros ((Hs & Hi & Hh & Hc) & Hf & Hst) (Hs' & Hi' & Hf' & Hst' & Ha' & Hh').
  simpl in *.
  assert (Hc' : chiplessOk q').
  { apply Hc. intros Hle. right. simpl. split; [| reflexivity].
    now apply Z.leb_le. }
  split; [congruence |]. split; [congruence |]. split; [congruence |].
  split.
  - intros Hle. destruct (Hst Hle) as [E1 E2].
    split; [congruence |]. split; [congruence |].
    rewrite Hh' by lia. exact Hh.
  - intros Hle. rewrite Hst' in Hle. destruct (Hc' Hle) as [E | [E1 E2]].
    + left. congruence.
    + right. split; [congruence |]. rewrite Hh' by lia. exact E2.
Qed.

Lemma Forall2_begun ps qs' qs'' :
  Forall2 blinded (map resetPlayer ps) qs' -> Forall2 dealt qs' qs'' ->
  Forall2 begun ps qs''.
Proof.
  revert qs' qs''. induction ps as [| p ps IH]; intros qs' qs'' Hb Hd;
    inversion Hb; subst; inversion Hd; subst; constructor;
    eauto using begun_compose.
Qed.

Lemma begun_seats ps qs : Forall2 begun ps qs -> map seat qs = map seat ps.
Proof. induction 1 as [| p q ps qs (? & _) _ IH]; simpl; congruence. Qed.

Lemma begun_chipless ps qs : Forall2 begun ps qs -> Forall chiplessOk qs.
Proof. induction 1 as [| p q ps qs (_ & _ & _ & _ & ?) _ IH]; constructor; auto. Qed.

Lemma Forall2_In_r {A B} (R : A -> B -> Prop) l k y :
  Forall2 R l k -> In y k -> exists x, In x l /\ R x y.
Proof.
  induction 1 as [| a b l k Hab _ IH]; simpl; [contradiction |].
  intros [<- | Hy]; [eauto |]. destruct (IH Hy) as (x & ? & ?). eauto.
Qed.

Lemma seat_bound_map ps qs :
  map seat qs = map seat ps ->
  Forall (fun p => (seat p < MAX_PLAYERS)%nat) ps ->
  Forall (fun p => (seat p < MAX_PLAYERS)%nat) qs.
Proof.
  revert qs. induction ps as [| p ps IH]; intros [| q qs]; simpl;
    try discriminate; [constructor |].
  intros [= Hs Hm] Hall. inversion Hall; subst.
  constructor; [congruence | auto].
Qed.

Lemma beginHand_spec rnd room room' :
  seatsOk room -> beginHand rnd room = Some room' ->
  RoomInv room' /\
  (state room' = Hand -> Forall2 begun (players room) (players room')).
Proof.
  intros Hseats. unfold beginHand.
  destruct (_ <? 2)%nat.
  { intros [= <-]. split; [| discriminate].
    apply RoomInv_outside; [exact Hseats | discriminate | discriminate]. }
  set (d' := match dealerSeat room with
             | None => head (activeSeats room)
             | Some d =>
                 if existsb (Nat.eqb d) (activeSeats room)
                 then nextActiveSeat room (Some d) dealOpts
                 else head (activeSeats room)
             end).
  replace (match dealerSeat room with
           | None => set_dealerSeat (head (activeSeats room)) room
           | Some d =>
               if existsb (Nat.eqb d) (activeSeats room)
               then set_dealerSeat (nextActiveSeat room (Some d) dealOpts) room
               else set_dealerSeat (head (activeSeats room)) room
           end) with (set_dealerSeat d' room).
  2:{ unfold d'. destruct (dealerSeat room); [| reflexivity].
      now destruct (existsb _ _). }
  assert (Hfund : forall s p, d' = Some s -> In p (players room) ->
                              seat p = s -> 0 < stack p).
  { intros s p. apply new_dealer_funded, Hseats. }
  set (room_r := resetForNewHand rnd (set_dealerSeat d' room)).
  assert (Hpr : players room_r = map resetPlayer (players room)) by reflexivity.
  assert (Hfr : fundedSeat room_r (dealerSeat room_r)).
  { intros s0 x Hs0 Hx. apply find_some in Hx as [Hx Hsx].
    rewrite Hpr in Hx. apply in_map_iff in Hx as (p & <- & Hp).
    apply Nat.eqb_eq in Hsx. simpl. eapply Hfund; eauto. }
  destruct (postBlinds room_r) as [[room_b [blinds |]] |] eqn:Hpb;
    [| discriminate | discriminate].
  destruct blinds as [sbSeat bbSeat]. cbn [mbind option_bind].
  destruct (postBlinds_spec _ _ _ (fun _ => Hfr) Hpb) as [Hbl Tb].
  destruct Tb as (Tst & Tsg & Tdk & Tcm & Tdl & Tcs).
  assert (Hlen : (length (players room_b) <= 8)%nat).
  { rewrite <- (Forall2_length _ _ _ Hbl), Hpr, length_map.
    apply seatsOk_length, Hseats. }
  destruct (dealHoleCards_spec room_b) as (Hdl & Hcards & Hholes & Hs).
  { rewrite Tdk. change (deck room_r) with (freshDeck rnd).
    rewrite (Permutation_length (freshDeck_Permutation rnd)), orderedDeck_length.
    lia. }
  set (room_h := dealHoleCards room_b) in *.
  destruct Hs as (Sst & Ssg & Scm & Sdl & Scs).
  intros [= <-].
  assert (Hbeg : Forall2 begun (players room) (players room_h)).
  { eapply Forall2_begun; [| exact Hdl]. rewrite <- Hpr. exact Hbl. }
  assert (Hst : state room_h = Hand) by (rewrite Sst, Tst; reflexivity).
  assert (Hnd : NoDup (map seat (players room_h))).
  { rewrite (begun_seats _ _ Hbeg). apply Hseats. }
  split; [| intros _; exact Hbeg].
  constructor; rsimpl.
  - split; [exact Hnd |].
    eapply seat_bound_map; [apply (begun_seats _ _ Hbeg) | apply Hseats].
  - intros _. eapply begun_chipless, Hbeg.
  - intros _. unfold firstToActPreflop.
    destruct (_ =? 2)%nat.
    + intros p'' s Hp'' Hcur Hs. rsimpl.
      destruct (Forall2_In_r _ _ _ _ Hbeg Hp'') as (p & Hp & Hs' & _ & Hf & _).
      rewrite Hf. apply Z.leb_gt. apply (Hfund s p); [| exact Hp | congruence].
      rewrite <- Hcur, Sdl, Tdl. reflexivity.
    + eapply actorOk_ext; [| | apply (actorOk_next room_h bbSeat actorOpts);
                               [reflexivity | exact Hnd]]; reflexivity.
  - intros _. change (cardsOf room_h ≡ₚ orderedDeck). rewrite Hcards.
    unfold cardsOf, holeCards. rewrite Tdk, Tcm.
    rewrite (acts_holes (players room_r) (players room_b)).
    2:{ clear -Hbl. induction Hbl as [| ? ? ? ? [? _]]; constructor; auto. }
    rewrite Hpr, resetPlayer_holes.
    change (deck room_r) with (freshDeck rnd).
    change (community room_r) with (@nil Card).
    rewrite !app_nil_r. apply freshDeck_Permutation.
  - intros _. split.
    + rewrite Scm, Tcm, Ssg, Tsg. reflexivity.
    + change (length (holeCards room_h) <= 2 * MAX_PLAYERS)%nat.
      assert (E : holeCards room_b = []).
      { unfold holeCards.
        rewrite (acts_holes (players room_r) (players room_b)).
        - rewrite Hpr. apply resetPlayer_holes.
        - clear -Hbl. induction Hbl as [| ? ? ? ? [? _]]; constructor; auto. }
      rewrite E in Hholes. simpl in Hholes. unfold MAX_PLAYERS. lia.
Qed.

(** ** Changes that do not touch the game *)

Lemma sameGame_refl p : sameGame p p.
Proof. repeat split. Qed.

Lemma sameGame_seats ps qs : Forall2 sameGame ps qs -> map seat qs = map seat ps.
Proof. induction 1 as [| p q ps qs (? & _) _ IH]; simpl; congruence. Qed.

Lemma sameGame_holes ps qs :
  Forall2 sameGame ps qs -> flat_map hole qs = flat_map hole ps.
Proof. induction 1 as [| p q ps qs (_ & ? & _) _ IH]; simpl; congruence. Qed.

Lemma sameGame_chipless ps qs :
  Forall2 sameGame ps qs -> Forall chiplessOk ps -> Forall chiplessOk qs.
Proof.
  induction 1 as [| p q ps qs (_ & Hh & Hs & Ha & Hf) _ IH]; intros Hall;
    inversion Hall; subst; constructor; auto.
  unfold chiplessOk in *. rewrite Hh, Hs, Ha, Hf. assumption.
Qed.

Lemma RoomInv_sameGame room room' :
  Forall2 sameGame (players room) (players room') -> sameTable room room' ->
  RoomInv room -> RoomInv room'.
Proof.
  intros Hsg (Hst & Hsta & Hd & Hc & _ & Hcs) [[Hnd Hb] Hch Hact Hcards Hboard].
  assert (Hh : holeCards room' = holeCards room) by (apply sameGame_holes, Hsg).
  constructor.
  - split; [now rewrite (sameGame_seats _ _ Hsg) |].
    eapply seat_bound_map; [apply (sameGame_seats _ _ Hsg) | exact Hb].
  - rewrite Hst. intros H. eapply sameGame_chipless; eauto.
  - rewrite Hst. intros H p' s Hp' Hcur Hs.
    destruct (Forall2_In_r _ _ _ _ Hsg Hp') as (p & Hp & Hps & _ & _ & _ & Hf).
    rewrite Hf. apply (Hact H p s); congruence.
  - rewrite Hst. unfold cardsOf. rewrite Hd, Hc, Hh. exact Hcards.
  - rewrite Hst, Hc, Hsta, Hh. exact Hboard.
Qed.

(** A room with the same players, state and cards. *)
Lemma RoomInv_ext room room' :
  players room' = players room -> sameTable room room' ->
  RoomInv room -> RoomInv room'.
Proof.
  intros Hp. apply RoomInv_sameGame. rewrite Hp.
  apply Forall2_same, sameGame_refl.
Qed.

(** ** The showdown keeps the seats *)

Section ShowdownFrame.

Variable strength : list Card -> nat.

Lemma applyPayout_frame room e :
  map seat (players (applyPayout room e)) = map seat (players room) /\
  state (applyPayout room e) = state room.
Proof.
  unfold applyPayout. destruct (findById room e.1); [| auto]. rsimpl.
  split; [now apply map_alter_same | reflexivity].
Qed.

Lemma payouts_frame l room :
  map seat (players (fold_left applyPayout l room)) = map seat (players room) /\
  state (fold_left applyPayout l room) = state room.
Proof.
  revert room. induction l as [| e l IH]; intros room; [auto |].
  simpl. destruct (IH (applyPayout room e)) as [-> ->].
  apply applyPayout_frame.
Qed.

Lemma shows_frame (l : list Player) room :
  players (fold_left (fun r p => if folded p then r
                                 else addLog r (MsgShows (name p) (hole p)))
                     l room) = players room /\
  state (fold_left (fun r p => if folded p then r
                               else addLog r (MsgShows (name p) (hole p)))
                   l room) = state room.
Proof.
  revert room. induction l as [| p l IH]; intros room; [auto |].
  simpl. destruct (folded p); [apply IH |].
  destruct (IH (addLog room (MsgShows (name p) (hole p)))) as [-> ->]. auto.
Qed.

Lemma notes_frame (l : list LogMsg) room :
  players (fold_left addLog l room) = players room /\
  state (fold_left addLog l room) = state room.
Proof.
  revert room. induction l as [| m l IH]; intros room; [auto |].
  simpl. destruct (IH (addLog room m)) as [-> ->]. auto.
Qed.

Lemma resolveShowdown_frame room :
  map seat (players (resolveShowdown strength room)) = map seat (players room)
  /\ state (resolveShowdown strength room) = state room.
Proof.
  unfold resolveShowdown.
  set (t := fold_left _ (buildSidePots _) _).
  set (r1 := fold_left applyPayout (payouts t) room).
  destruct (payouts_frame (payouts t) room) as [H1 H2]. fold r1 in H1, H2.
  set (r2 := fold_left _ (players r1) r1).
  destruct (shows_frame (players r1) r1) as [H3 H4]. fold r2 in H3, H4.
  destruct (notes_frame (notes t) r2) as [H5 H6].
  destruct (firstWin t); rsimpl; rewrite H5, H6, H3, H4; auto.
Qed.

Lemma resolveShowdown_seatsOk room :
  seatsOk room -> seatsOk (resolveShowdown strength room).
Proof.
  intros [Hnd Hb]. destruct (resolveShowdown_frame room) as [Hs _].
  split; [now rewrite Hs | eapply seat_bound_map; eauto].
Qed.

End ShowdownFrame.

(** ** Every event keeps the invariants *)

Lemma seatsOk_join room s pl :
  seatsOk room -> assignSeat room = Some s -> seat pl = s ->
  seatsOk (set_players (players room ++ [pl]) room).
Proof.
  intros [Hnd Hb] Has Hs. apply assignSeat_Some in Has as [Hlt Hfree].
  unfold seatsOk. rsimpl. rewrite map_app. simpl. split.
  - apply NoDup_app. split; [exact Hnd |]. split.
    + intros x Hx Hx'. apply list_elem_of_In in Hx'. destruct Hx' as [<- | []].
      rewrite Hs in Hx. contradiction.
    + apply NoDup_singleton.
  - apply Forall_app_2; [exact Hb |]. constructor; [| constructor].
    now rewrite Hs.
Qed.

Lemma createLobby_inv c sock nm : RoomInv (createLobby c sock nm).
Proof.
  apply RoomInv_outside; try discriminate.
  unfold seatsOk. simpl. split.
  - apply NoDup_singleton.
  - constructor; [| constructor]. cbn. unfold MAX_PLAYERS. lia.
Qed.

Lemma joinLobby_inv room sock nm :
  RoomInv room -> RoomInv (joinLobby room sock nm).
Proof.
  intros Hinv. unfold joinLobby.
  destruct (_ <=? _)%nat; [exact Hinv |].
  destruct (bool_decide_reflect (state room = Lobby)) as [Hst | Hst];
    cbn [negb]; [| exact Hinv].
  destruct (assignSeat room) as [s |] eqn:Has; [| exact Hinv].
  apply RoomInv_outside; rsimpl; try congruence.
  eapply (seatsOk_join room s); [apply Hinv | exact Has | reflexivity].
Qed.

Lemma setBlinds_inv room sock sb bb :
  RoomInv room -> RoomInv (setBlinds room sock sb bb).
Proof.
  intros Hinv. unfold setBlinds. destruct (negb _); [exact Hinv |].
  eapply RoomInv_ext; [| | exact Hinv]; [reflexivity | repeat split].
Qed.

Lemma chat_inv room sock message :
  RoomInv room -> RoomInv (chat room sock message).
Proof.
  intros Hinv. unfold chat.
  destruct (findById room sock); [| exact Hinv].
  destruct (players room !! _) as [p |]; [| exact Hinv].
  destruct (_ <=? _); [exact Hinv |].
  destruct (String.eqb _ _); [exact Hinv |].
  eapply RoomInv_ext; [| | exact Hinv]; [reflexivity | repeat split].
Qed.

Lemma addBot_inv room sock botId botName :
  RoomInv room -> RoomInv (addBot room sock botId botName).
Proof.
  intros Hinv. unfold addBot. destruct (negb _); [exact Hinv |].
  destruct (assignSeat room) as [s |] eqn:Has; [| exact Hinv].
  destruct Hinv as [Hseats Hch Hact Hcards Hboard].
  assert (Hh : flat_map hole (players room ++ [newPlayer botId botName s true])
               = holeCards room).
  { rewrite flat_map_app. simpl. now rewrite app_nil_r. }
  constructor; rsimpl.
  - eapply (seatsOk_join room s); [exact Hseats | exact Has | reflexivity].
  - intros Hst. apply Forall_app_2; [auto |].
    constructor; [| constructor]. intros Hle. simpl in Hle.
    unfold STARTING_STACK in Hle. lia.
  - intros Hst p s0 Hp Hcur Hs. rsimpl. apply in_app_iff in Hp as [Hp | Hp].
    + eapply Hact; eauto.
    + destruct Hp as [<- | []]. reflexivity.
  - intros Hst. unfold cardsOf, holeCards. rsimpl. rewrite Hh. auto.
  - intros Hst. unfold holeCards. rsimpl. rewrite Hh. auto.
Qed.

Lemma startGame_inv rnd room sock room' :
  RoomInv room -> startGame rnd room sock = Some room' -> RoomInv room'.
Proof.
  intros Hinv. unfold startGame.
  destruct (negb _); [now intros [= <-] |].
  destruct (_ && _); [now intros [= <-] |].
  intros H. eapply beginHand_spec; [| exact H]. apply Hinv.
Qed.

Lemma playerAction_inv room sock action amount room' armed :
  RoomInv room -> playerAction room sock action amount = Some (room', armed) ->
  RoomInv room'.
Proof.
  intros Hinv. unfold playerAction.
  destruct (findById room sock); [| now intros [= <- <-]].
  now apply handlePlayerAction_inv.
Qed.

Lemma botTurn_inv room r1 r2 room' armed :
  RoomInv room -> botTurn room r1 r2 = Some (room', armed) -> RoomInv room'.
Proof.
  intros Hinv. unfold botTurn.
  destruct (findBySeat _ _); [| now intros [= <- <-]].
  destruct (players room !! _) as [b |]; [| now intros [= <- <-]].
  destruct (_ || _); [now intros [= <- <-] |].
  destruct (_ =? 0); [destruct (_ && _) |];
    [| | destruct (_ || _)]; now apply handlePlayerAction_inv.
Qed.

Section ServerInv.

Variable strength : list Card -> nat.

Lemma resetRoom_seatsOk room (f : Player -> Player) :
  (forall p, seat (f p) = seat p) ->
  seatsOk room -> seatsOk (set_players (map f (players room)) room).
Proof.
  intros Hf [Hnd Hb]. unfold seatsOk. rsimpl.
  assert (E : map seat (map f (players room)) = map seat (players room)).
  { rewrite map_map. apply map_ext. exact Hf. }
  split; [now rewrite E | eapply seat_bound_map; eauto].
Qed.

Lemma nextHandTimer_inv d rnd room room' :
  RoomInv room -> nextHandTimer d rnd room = Some room' -> RoomInv room'.
Proof.
  intros Hinv. unfold nextHandTimer.
  set (r1 := set_players _ _).
  assert (Hs1 : seatsOk r1).
  { unfold r1. apply (resetRoom_seatsOk (set_stage Preflop (set_state Lobby room))).
    - intros p. now destruct d.
    - apply Hinv. }
  destruct (_ <=? _)%nat.
  - intros H. eapply beginHand_spec; [| exact H]. exact Hs1.
  - intros [= <-]. apply RoomInv_outside; [exact Hs1 | |]; discriminate.
Qed.

Lemma showdownTimer_inv room :
  RoomInv room -> RoomInv (showdownTimer strength room).
Proof.
  intros Hinv. unfold showdownTimer.
  apply RoomInv_outside; rsimpl; try discriminate.
  apply (resolveShowdown_seatsOk strength room), Hinv.
Qed.

Lemma fold_inv room idx (f : Player -> Player) msg :
  (forall p, seat (f p) = seat p /\ pid (f p) = pid p /\ hole (f p) = hole p
             /\ stack (f p) = stack p /\ allIn (f p) = allIn p
             /\ (folded p = true -> folded (f p) = true)) ->
  TableInv room -> TableInv (addLog (updPlayer room idx f) msg).
Proof.
  intros Hf. apply acts_TableInv; [| repeat split]. rsimpl.
  apply Forall2_alter_step; [apply acts_refl |]. intros x _.
  destruct (Hf x) as (? & ? & ? & ? & ? & ?). now apply acts_flags.
Qed.

Lemma disconnect_inv room sock idx p out armed :
  RoomInv room -> disconnect strength room sock idx p = Some (out, armed) ->
  forall room', out = Some room' -> RoomInv room'.
Proof.
  intros Hinv. unfold disconnect.
  set (r0 := addLog (updPlayer room idx (set_connected false)) _).
  assert (H0 : RoomInv r0).
  { eapply RoomInv_sameGame; [| | exact Hinv]; [| repeat split].
    unfold r0. rsimpl. apply Forall2_alter_step; [apply sameGame_refl |].
    intros x _. repeat split. }
  match goal with
  | |- context [mbind _ ?m] => destruct m as [[r1 ts] |] eqn:Hmid
  end; [| discriminate].
  cbn [mbind option_bind].
  assert (H1 : RoomInv r1).
  { destruct (bool_decide_reflect (state r0 = Lobby)) as [Hl | Hl].
    { injection Hmid as <- <-. apply RoomInv_outside; rsimpl; try congruence.
      destruct H0 as [[Hnd Hb] _ _ _ _]. unfold seatsOk. rsimpl. split.
      - change (map seat (delete idx (players r0)))
          with (seat <$> delete idx (players r0)).
        rewrite list_fmap_delete.
        eapply sublist_NoDup; [exact Hnd | apply sublist_delete].
      - now apply Forall_delete. }
    destruct (_ && _) eqn:Hact; [| injection Hmid as <- <-; exact H0].
    apply andb_true_iff in Hact as [Hact _].
    apply andb_true_iff in Hact as [Hact _].
    apply andb_true_iff in Hact as [Hst _].
    apply bool_decide_eq_true in Hst.
    set (r2 := addLog (updPlayer r0 idx _) _) in Hmid.
    assert (H2 : TableInv r2).
    { apply fold_inv; [| now apply RoomInv_TableInv].
      intros x. repeat split. }
    assert (Hst2 : state r2 = Hand) by exact Hst.
    destruct (loneSurvivor r2) as [s |]; [eapply awardPotTo_inv; eauto |].
    destruct (shouldEndBettingRound r2).
    - destruct (advanceStage r2) as [r3 ts3] eqn:Hadv.
      pose proof (advanceStage_inv _ _ _ H2 Hst2 Hadv) as H3.
      destruct (bool_decide (state r3 = Reveal));
        [injection Hmid as <- <-; exact H3 |].
      destruct (bool_decide_reflect (state r3 = Showdown)) as [Hsd | Hsd];
        injection Hmid as <- <-; [| exact H3].
      destruct (resolveShowdown_frame strength r3) as [_ Hsr].
      apply RoomInv_outside; [| congruence | congruence].
      apply resolveShowdown_seatsOk, H3.
    - injection Hmid as <- <-. apply TableInv_RoomInv.
      + destruct H2. constructor; auto.
      + unfold moveToNextActor. apply actorOk_next; [reflexivity |].
        apply H2. }
  set (r4 := if String.eqb (hostId r1) sock then _ else r1).
  assert (H4 : RoomInv r4).
  { unfold r4. destruct (String.eqb _ _); [| exact H1].
    destruct (players r1); [exact H1 |].
    eapply RoomInv_ext; [| | exact H1]; [reflexivity | repeat split]. }
  destruct (_ =? 0)%nat; intros [= <- <-] room'; [discriminate |].
  now intros [= <-].
Qed.

Lemma fire_inv w k rnd w' :
  WorldInv w -> fire strength w k rnd = Some w' -> WorldInv w'.
Proof.
  intros Hinv. unfold fire.
  destruct (pending w !! k) as [t |]; [| now intros [= <-]].
  destruct (rooms w) as [room |] eqn:Hr;
    [| intros [= <-] r; discriminate].
  specialize (Hinv room Hr).
  destruct t as [d | d].
  - intros [= <-] r [= <-]. now apply showdownTimer_inv.
  - destruct (nextHandTimer d rnd room) as [r1 |] eqn:Hn; [| discriminate].
    simpl. intros [= <-] r [= <-]. eapply nextHandTimer_inv; eauto.
Qed.

Lemma step_inv w e w' :
  WorldInv w -> step strength w e = Some w' -> WorldInv w'.
Proof.
  intros Hinv. unfold step.
  destruct e as [c sock nm | sock nm | sock sb bb | sock rnd
                | sock botId botName | sock message | sock action amt
                | r1 r2 | sock | k rnd];
    try apply (fire_inv _ _ _ _ Hinv);
    destruct (rooms w) as [room |] eqn:Hr;
    try (intros [= <-]; exact Hinv);
    try specialize (Hinv room Hr).
  - intros [= <-] r [= <-]. apply createLobby_inv.
  - intros [= <-] r [= <-]. now apply joinLobby_inv.
  - intros [= <-] r [= <-]. now apply setBlinds_inv.
  - destruct (startGame rnd room sock) as [r1 |] eqn:Hs; [| discriminate].
    simpl. intros [= <-] r [= <-]. eapply startGame_inv; eauto.
  - intros [= <-] r [= <-]. now apply addBot_inv.
  - intros [= <-] r [= <-]. now apply chat_inv.
  - destruct (playerAction room sock action amt) as [[r1 ts] |] eqn:Hs;
      [| discriminate].
    simpl. intros [= <-] r [= <-]. eapply playerAction_inv; eauto.
  - destruct (botTurn room r1 r2) as [[r3 ts] |] eqn:Hs; [| discriminate].
    simpl. intros [= <-] r [= <-]. eapply botTurn_inv; eauto.
  - destruct (findById room sock) as [idx |];
      [| intros [= <-] r Hr'; rewrite Hr in Hr'; injection Hr' as <-; exact Hinv].
    destruct (players room !! idx) as [p |]; [| discriminate]. simpl.
    destruct (disconnect strength room sock idx p) as [[out ts] |] eqn:Hs;
      [| discriminate].
    simpl. intros [= <-] r Hr'. simpl in Hr'.
    eapply disconnect_inv; eauto.
Qed.

(** The invariants hold in every reachable world. *)
Lemma reachable_inv w : reachable strength w -> WorldInv w.
Proof.
  induction 1 as [| w e w' _ IH Hstep].
  - intros room. discriminate.
  - eapply step_inv; eauto.
Qed.

End ServerInv.

(** ** Reachable rooms *)

Lemma run_reachable strength es w0 w :
  reachable strength w0 -> run strength w0 es = Some w -> reachable strength w.
Proof.
  revert w0. induction es as [| e es IH]; intros w0 H0; simpl.
  - now intros [= <-].
  - destruct (step strength w0 e) as [w1 |] eqn:Hs; [| discriminate].
    simpl. apply IH. eapply reach_step; eauto.
Qed.

Lemma bustWorld_reachable : reachable rankSum bustWorld.
Proof.
  apply (run_reachable rankSum threeWayBust initialWorld);
    [apply reach_init | vm_compute; reflexivity].
Qed.

Lemma headsUpWorld_reachable strength : reachable strength headsUpWorld.
Proof.
  apply (run_reachable strength headsUpStart initialWorld);
    [apply reach_init | vm_compute; reflexivity].
Qed.

(** C8, as stated, fails: after Bob has lost his chips the next hand starts
    with Bob holding no chips and not all-in. *)
Lemma broke_player_not_allIn : ~ brokeMeansAllIn rankSum.
Proof.
  intros H.
  assert (E : allIn (newPlayer "b" "Bob" 1 false) = true); [| discriminate].
  change (allIn (newPlayer "b" "Bob" 1 false))
    with (allIn (set_folded true (set_stack 0 (newPlayer "b" "Bob" 1 false)))).
  eapply (H bustWorld); [apply bustWorld_reachable | reflexivity | | reflexivity].
  vm_compute. right. left. reflexivity.
Qed.

(** C8, amended: in every reachable room in which a hand is being played, a
    player with no chips is all-in or folded. *)
Theorem broke_player_allIn_or_folded (strength : list Card -> nat)
        (w : World) (room : Room) (p : Player) :
  reachable strength w -> rooms w = Some room -> state room = Hand ->
  In p (players room) -> stack p = 0 ->
  allIn p = true \/ folded p = true.
Proof.
  intros Hreach Hroom Hst Hp Hs.
  pose proof (reachable_inv strength w Hreach room Hroom) as Hinv.
  pose proof (inv_chipless _ Hinv Hst) as Hall.
  rewrite List.Forall_forall in Hall.
  destruct (Hall p Hp) as [? | [? _]]; [lia | auto | auto].
Qed.

Lemma broke_player_allIn_or_folded_witness :
  exists room p,
    rooms bustWorld = Some room /\ state room = Hand /\
    In p (players room) /\ stack p = 0 /\
    (allIn p = true \/ folded p = true).
Proof.
  eexists. eexists.
  split; [reflexivity |]. split; [reflexivity |].
  split; [right; left; reflexivity |]. split; [reflexivity |].
  eapply (broke_player_allIn_or_folded rankSum bustWorld);
    [apply bustWorld_reachable | reflexivity | reflexivity
     | right; left; reflexivity | reflexivity].
Defined.

(** C9: while a hand is played (betting or reveal), the deck, the hole
    cards and the board hold 52 cards between them and no card twice. *)
Theorem deck_integrity (strength : list Card -> nat) (w : World) (room : Room) :
  reachable strength w -> rooms w = Some room ->
  state room = Hand \/ state room = Reveal ->
  (length (deck room) + length (holeCards room) + length (community room)
   = 52)%nat
  /\ List.NoDup (deck room ++ holeCards room ++ community room)
  /\ ~ In Undefined (deck room ++ holeCards room ++ community room).
Proof.
  intros Hreach Hroom Hst.
  pose proof (reachable_inv strength w Hreach room Hroom) as Hinv.
  pose proof (inv_cards _ Hinv Hst) as Hperm. unfold cardsOf in Hperm.
  split; [| split].
  - apply Permutation_length in Hperm.
    rewrite !length_app, orderedDeck_length in Hperm. lia.
  - apply NoDup_ListNoDup. rewrite Hperm. apply orderedDeck_NoDup.
  - rewrite <- list_elem_of_In, Hperm. apply orderedDeck_defined.
Qed.

Lemma deck_integrity_witness :
  (length (deck headsUpHand) + length (holeCards headsUpHand)
   + length (community headsUpHand) = 52)%nat.
Proof.
  apply (deck_integrity rankSum headsUpWorld headsUpHand);
    [apply headsUpWorld_reachable | reflexivity | left; reflexivity].
Defined.

(** ** Players without chips *)

Lemma Forall2_lookup_left {A B} (R : A -> B -> Prop) l k i x :
  Forall2 R l k -> l !! i = Some x -> exists y, k !! i = Some y /\ R x y.
Proof.
  intros H. revert i. induction H as [| a b l k Hab _ IH]; intros i Hi.
  - destruct i; discriminate.
  - destruct i as [| i]; simpl in *; [injection Hi as <-; eauto | auto].
Qed.

(** C10: [resetForNewHand] folds exactly the players whose stack is not
    positive; a player without chips therefore starts every hand folded,
    keeps the seat, receives no hole cards and is not on the current seat,
    at the start of the hand and for as long as it is played. *)
Theorem busted_player_sits_out :
  (forall rnd room i p,
     players room !! i = Some p ->
     exists p', players (resetForNewHand rnd room) !! i = Some p' /\
       folded p' = (stack p <=? 0) /\ stack p' = stack p /\
       seat p' = seat p /\ pid p' = pid p)
  /\ (forall rnd room room' i p,
        seatsOk room -> beginHand rnd room = Some room' ->
        state room' = Hand ->
        players room !! i = Some p -> stack p <= 0 ->
        exists p', players room' !! i = Some p' /\
          pid p' = pid p /\ seat p' = seat p /\ stack p' = stack p /\
          folded p' = true /\ allIn p' = false /\ hole p' = [] /\
          currentSeat room' <> Some (seat p))
  /\ (forall strength w room p,
        reachable strength w -> rooms w = Some room -> state room = Hand ->
        In p (players room) -> stack p <= 0 -> allIn p = false ->
        folded p = true /\ hole p = [] /\ currentSeat room <> Some (seat p)).
Proof.
  split; [| split].
  - intros rnd room i p Hp. exists (resetPlayer p). split.
    + change (players (resetForNewHand rnd room))
        with (map resetPlayer (players room)).
      rewrite lookup_map, Hp. reflexivity.
    + repeat split.
  - intros rnd room room' i p Hseats Hbegin Hst Hp Hle.
    destruct (beginHand_spec _ _ _ Hseats Hbegin) as [Hinv Hbeg].
    destruct (Forall2_lookup_left _ _ _ _ _ (Hbeg Hst) Hp)
      as (p' & Hp' & Hs & Hi & Hf & Hb & _).
    destruct (Hb Hle) as (Hstack & Hallin & Hhole).
    assert (Hfolded : folded p' = true) by (rewrite Hf; now apply Z.leb_le).
    exists p'. repeat split; auto.
    intros Hcur.
    assert (Hin : In p' (players room'))
      by (apply list_elem_of_In, list_elem_of_lookup; eauto).
    rewrite (inv_actor _ Hinv Hst p' (seat p) Hin Hcur Hs) in Hfolded.
    discriminate.
  - intros strength w room p Hreach Hroom Hst Hp Hle Hai.
    pose proof (reachable_inv strength w Hreach room Hroom) as Hinv.
    pose proof (inv_chipless _ Hinv Hst) as Hall.
    rewrite List.Forall_forall in Hall.
    destruct (Hall p Hp Hle) as [? | [Hf Hh]]; [congruence |].
    repeat split; auto. intros Hcur.
    rewrite (inv_actor _ Hinv Hst p (seat p) Hp Hcur eq_refl) in Hf.
    discriminate.
Qed.

Lemma bustRoom_seatsOk : seatsOk bustRoom.
Proof.
  split; apply (bool_decide_unpack _); vm_compute; exact I.
Qed.

Lemma busted_player_sits_out_witness :
  (exists p', players afterBustHand !! 1%nat = Some p' /\
     folded p' = true /\ hole p' = [] /\
     currentSeat afterBustHand <> Some 1%nat)
  /\ (exists p, In p (players bustRoom) /\ stack p <= 0 /\ folded p = true).
Proof.
  destruct busted_player_sits_out as (_ & Hstart & Hduring). split.
  - destruct (Hstart noShuffle bustRoom afterBustHand 1%nat
                (set_folded true (set_stack 0 (newPlayer "b" "Bob" 1 false))))
      as (p' & Hp' & _ & _ & _ & Hf & _ & Hh & Hc);
      [apply bustRoom_seatsOk | reflexivity | reflexivity | reflexivity
       | simpl; lia |].
    exists p'. auto.
  - exists (set_folded true (set_stack 0 (newPlayer "b" "Bob" 1 false))).
    split; [right; left; reflexivity |]. split; [simpl; lia |].
    apply (Hduring rankSum bustWorld bustRoom);
      [apply bustWorld_reachable | reflexivity | reflexivity
       | right; left; reflexivity | simpl; lia | reflexivity].
Defined.

(** ** Chips *)

Lemma sumZ_alter {A} (g : A -> Z) (f : A -> A) (i : nat) (l : list A) (x : A) :
  l !! i = Some x ->
  sumZ (map g (alter f i l)) = sumZ (map g l) - g x + g (f x).
Proof.
  unfold sumZ. revert i.
  induction l as [| y l IH]; intros i Hi; [destruct i; discriminate |].
  destruct i as [| i]; cbn in *.
  - injection Hi as <-. lia.
  - rewrite (IH i Hi). lia.
Qed.

Lemma payChips_stack pay p : stack (payChips pay p) = stack p - pay.
Proof. unfold payChips. simpl. now destruct (_ =? _). Qed.

(** Committing chips moves them from the stack to the pot. *)
Lemma commitChips_conserves room i w room' pay :
  commitChips room i w = Some (room', pay) ->
  chipsInPlay room' = chipsInPlay room.
Proof.
  intros H. apply commitChips_inv in H as (p & Hp & _ & ->).
  unfold chipsInPlay, totalStacks. rsimpl.
  rewrite (sumZ_alter _ _ _ _ _ Hp), payChips_stack. lia.
Qed.

Lemma updPlayer_conserves room i f :
  (forall x, stack (f x) = stack x) ->
  chipsInPlay (updPlayer room i f) = chipsInPlay room.
Proof.
  intros H. unfold chipsInPlay, totalStacks. rsimpl.
  now rewrite map_alter_same.
Qed.

Lemma raiseTo_conserves room p total prevBet :
  chipsInPlay (raiseTo room p total prevBet) = chipsInPlay room.
Proof.
  unfold chipsInPlay, totalStacks. rewrite raiseTo_pot, raiseTo_players.
  destruct (_ <? _); [| reflexivity]. unfold resetOthers. rsimpl.
  rewrite map_map. f_equal. f_equal. apply map_ext. intros x.
  destruct (String.eqb _ _); [reflexivity |]. now destruct (_ || _).
Qed.

(** The betting branches conserve the chips in play. *)
Lemma applyAction_conserves room i p word amount room' :
  applyAction room i p word amount = Some (Some room') ->
  chipsInPlay room' = chipsInPlay room.
Proof.
  assert (Hlog : forall r m, chipsInPlay (addLog r m) = chipsInPlay r)
    by reflexivity.
  assert (Hfold : chipsInPlay (actFold room i p) = chipsInPlay room).
  { unfold actFold. rewrite Hlog. now apply updPlayer_conserves. }
  assert (Hcheck : chipsInPlay (actCheck room i p) = chipsInPlay room).
  { unfold actCheck. rewrite Hlog. now apply updPlayer_conserves. }
  assert (Hbet : forall isRaise,
            actBetRaise room i p isRaise amount = Some (Some room') ->
            chipsInPlay room' = chipsInPlay room).
  { intros isRaise. unfold actBetRaise. destruct (_ <=? 0); [discriminate |].
    destruct (_ && _); [discriminate |]. destruct (_ <=? 0); [discriminate |].
    destruct (commitChips room i _) as [[r1 paid] |] eqn:Hc; [| discriminate].
    simpl. destruct (players _ !! i); [| discriminate]. simpl.
    intros [= <-]. rewrite Hlog, updPlayer_conserves by reflexivity.
    rewrite raiseTo_conserves. eapply commitChips_conserves, Hc. }
  unfold applyAction.
  destruct (String.eqb word "fold"); [now intros [= <-] |].
  destruct (String.eqb word "check").
  { destruct (negb _); [discriminate |]. now intros [= <-]. }
  destruct (String.eqb word "call").
  { unfold actCall. destruct (_ =? 0); [now intros [= <-] |].
    destruct (commitChips room i _) as [[r1 paid] |] eqn:Hc; [| discriminate].
    simpl. destruct (players r1 !! i); [| discriminate]. simpl.
    intros [= <-]. rewrite Hlog, updPlayer_conserves by reflexivity.
    eapply commitChips_conserves, Hc. }
  destruct (String.eqb word "all-in").
  { unfold actAllIn. destruct (_ <=? 0); [discriminate |].
    destruct (_ <=? 0); [discriminate |].
    destruct (commitChips room i _) as [[r1 paid] |] eqn:Hc; [| discriminate].
    simpl. intros [= <-]. rewrite Hlog, updPlayer_conserves by reflexivity.
    rewrite raiseTo_conserves. eapply commitChips_conserves, Hc. }
  destruct (String.eqb word "bet"); [apply Hbet |].
  destruct (String.eqb word "raise"); [apply Hbet |].
  discriminate.
Qed.

Lemma runOutStreet_chips room :
  chipsInPlay (runOutStreet room) = chipsInPlay room.
Proof. unfold runOutStreet. destruct (stage room); reflexivity. Qed.

Lemma runOut_chips n room : chipsInPlay (runOut n room) = chipsInPlay room.
Proof.
  revert room. induction n as [| n IH]; intros room; [reflexivity |].
  cbn [runOut]. destruct (bool_decide _); [| reflexivity].
  destruct (stillCanAct room); [reflexivity |].
  destruct (bool_decide _); [apply runOutStreet_chips |].
  rewrite IH. apply runOutStreet_chips.
Qed.

Lemma startBettingRound_chips room :
  chipsInPlay (startBettingRound room) = chipsInPlay room.
Proof.
  unfold chipsInPlay, totalStacks, startBettingRound. rsimpl.
  rewrite map_map. f_equal. f_equal. apply map_ext. intros x.
  now destruct (canAct x).
Qed.

Lemma advanceStage_chips room :
  chipsInPlay (advanceStage room).1 = chipsInPlay room.
Proof.
  unfold advanceStage. destruct (stage room); cbn [pop fst];
    rewrite ?startBettingRound_chips; reflexivity.
Qed.

(** The award to a lone survivor adds the pot to a stack and leaves the
    pot as it is. *)
Lemma awardPotTo_chips room i room' armed :
  awardPotTo room i = Some (room', armed) ->
  chipsInPlay room' = chipsInPlay room + pot room /\
  pot room' = pot room /\ state room' = Reveal /\
  armed = [ShowdownTimer false].
Proof.
  unfold awardPotTo. destruct (players room !! i) as [p |] eqn:Hp;
    [| discriminate].
  simpl. intros [= <- <-]. repeat split.
  unfold chipsInPlay, totalStacks. rsimpl.
  rewrite (sumZ_alter _ _ _ _ _ Hp). simpl. lia.
Qed.

(** X7: an action conserves the chips in play up to the payout: the stacks
    and the pot add up as before, unless the action leaves a lone survivor,
    who is paid the pot while the pot stays in place. *)
Lemma handlePlayerAction_chips room i action amount room' armed :
  handlePlayerAction room i action amount = Some (room', armed) ->
  chipsInPlay room' = chipsInPlay room
  \/ (state room' = Reveal /\ armed = [ShowdownTimer false] /\
      chipsInPlay room' = chipsInPlay room + pot room').
Proof.
  unfold handlePlayerAction.
  destruct (players room !! i) as [p |]; [| intros [= <- <-]; now left].
  destruct (negb _); [intros [= <- <-]; now left |].
  destruct (currentSeat room) as [cs |]; [| intros [= <- <-]; now left].
  destruct (negb _); [intros [= <- <-]; now left |].
  destruct (_ || _); [intros [= <- <-]; now left |].
  destruct (actionWord action) as [word |]; [| discriminate]. simpl.
  destruct (applyAction room i p word amount) as [[r1 |] |] eqn:Happ;
    [| intros [= <- <-]; now left | discriminate].
  simpl. rewrite <- (applyAction_conserves _ _ _ _ _ _ Happ).
  unfold afterAction. destruct (loneSurvivor r1) as [s |].
  - intros Haward. right.
    destruct (awardPotTo_chips _ _ _ _ Haward) as (Hc & Hp & Hst & Ha).
    rewrite Hp. auto.
  - intros Hres. left. destruct (shouldEndBettingRound r1).
    + destruct (bool_decide (state (runOut 4 r1) = Hand)).
      * pose proof (advanceStage_chips (runOut 4 r1)) as Hadv.
        destruct (advanceStage (runOut 4 r1)) as [r2 ts]. cbn [fst] in Hadv.
        rewrite runOut_chips in Hadv.
        destruct (bool_decide _); injection Hres as <- <-; exact Hadv.
      * destruct (bool_decide _); injection Hres as <- <-;
          exact (runOut_chips 4 r1).
    + injection Hres as <- <-. reflexivity.
Qed.

(** ** The lone survivor *)

Lemma handWins_single strength h : handWins strength [h] h = true.
Proof.
  unfold handWins, bestStrength. simpl. rewrite Nat.max_0_r.
  apply Nat.eqb_refl.
Qed.

(** A pot with at most one eligible player is settled without regard to
    the evaluator. *)
Lemma settlePot_lone s1 s2 room solved t pot :
  (length (eligible pot) <= 1)%nat ->
  settlePot s1 room solved t pot = settlePot s2 room solved t pot.
Proof.
  intros Hlen. unfold settlePot.
  destruct (eligible pot) as [| i [| j l]]; [reflexivity | | simpl in Hlen; lia].
  cbn [List.filter]. destruct (bool_decide _); [| reflexivity].
  cbn [length Nat.eqb map snd fst List.filter].
  now rewrite !handWins_single.
Qed.

Lemma resolveShowdown_lone s1 s2 room :
  Forall (fun pot => (length (eligible pot) <= 1)%nat)
         (buildSidePots (players room)) ->
  resolveShowdown s1 room = resolveShowdown s2 room.
Proof.
  intros Hall. unfold resolveShowdown.
  assert (E : forall t,
             fold_left (settlePot s1 room (solveHands room))
                       (buildSidePots (players room)) t
             = fold_left (settlePot s2 room (solveHands room))
                         (buildSidePots (players room)) t).
  { induction Hall as [| pot pots Hpot _ IH]; intros t; [reflexivity |].
    simpl. rewrite (settlePot_lone s1 s2) by exact Hpot. apply IH. }
  now rewrite E.
Qed.

Lemma fire_showdownTimer strength w room d rest rnd :
  rooms w = Some room -> pending w = ShowdownTimer d :: rest ->
  step strength w (Fire 0 rnd)
  = Some (mkWorld (Some (showdownTimer strength room))
                  (rest ++ [NextHandTimer d])).
Proof. intros Hr Hp. unfold step, fire. rewrite Hp, Hr. reflexivity. Qed.

(** C1 at a failing input: heads-up with blinds 10/20, the button folds.
    The hand starts with 4000 chips in play; the survivor is paid the pot
    of 30 at once, and is paid the same 30 again when the showdown timer
    fires, so that the stacks then add up to 4030. This holds for every
    evaluator. *)
Theorem fold_creates_chips (strength : list Card -> nat) :
  run strength initialWorld headsUpStart = Some headsUpWorld /\
  chipsInPlay headsUpHand = 2 * STARTING_STACK /\
  step strength headsUpWorld (PlayerAction "b" (ActString "fold") 0)
  = Some foldedWorld /\
  state (roomOf foldedWorld) = Reveal /\
  pending foldedWorld = [ShowdownTimer false] /\
  totalStacks (roomOf foldedWorld) = 2 * STARTING_STACK /\
  pot (roomOf foldedWorld) = 30 /\
  step strength foldedWorld (Fire 0 noShuffle) = Some foldedShowdownWorld /\
  state (roomOf foldedShowdownWorld) = Showdown /\
  totalStacks (roomOf foldedShowdownWorld) = 2 * STARTING_STACK + 30.
Proof.
  split; [vm_compute; reflexivity |]. split; [reflexivity |].
  split; [vm_compute; reflexivity |].
  split; [reflexivity |]. split; [reflexivity |].
  split; [reflexivity |]. split; [reflexivity |].
  split; [| split; reflexivity].
  rewrite (fire_showdownTimer strength foldedWorld (roomOf foldedWorld)
             false [] noShuffle) by reflexivity.
  unfold showdownTimer.
  rewrite (resolveShowdown_lone strength rankSum)
    by (vm_compute; repeat constructor).
  vm_compute. reflexivity.
Qed.

(** C5 at a failing input: heads-up, Ann bets 100 on the flop and Bob
    folds. Ann's stack of 1880 grows by the pot of 140 when Bob folds, and
    by another 140 when the showdown timer fires: [resolveShowdown] solves
    her cards and pays her the side pots built from the commitments. This
    holds for every evaluator. *)
Theorem survivor_paid_by_showdown_too (strength : list Card -> nat) :
  run strength headsUpWorld betOnFlop = Some betWorld /\
  stackAt betWorld 0 = Some 1880 /\
  pot (roomOf betWorld) = 140 /\
  step strength betWorld (PlayerAction "b" (ActString "fold") 0)
  = Some betFoldedWorld /\
  loneSurvivor (roomOf betFoldedWorld) = Some 0%nat /\
  stackAt betFoldedWorld 0 = Some (1880 + 140) /\
  pending betFoldedWorld = [ShowdownTimer false] /\
  step strength betFoldedWorld (Fire 0 noShuffle) = Some betShowdownWorld /\
  stackAt betShowdownWorld 0 = Some (1880 + 140 + 140).
Proof.
  split; [vm_compute; reflexivity |].
  split; [reflexivity |]. split; [reflexivity |].
  split; [vm_compute; reflexivity |].
  split; [reflexivity |]. split; [reflexivity |]. split; [reflexivity |].
  split; [| reflexivity].
  rewrite (fire_showdownTimer strength betFoldedWorld (roomOf betFoldedWorld)
             false [] noShuffle) by reflexivity.
  unfold showdownTimer.
  rewrite (resolveShowdown_lone strength rankSum)
    by (vm_compute; repeat constructor).
  vm_compute. reflexivity.
Qed.

(** ** The seat resolver, completely *)

Lemma find_map_fmap {A B} (f : B -> bool) (g : A -> B) (l : list A) :
  List.find f (map g l) = g <$> List.find (fun x => f (g x)) l.
Proof.
  induction l as [| x l IH]; simpl; [reflexivity |].
  destruct (f (g x)); [reflexivity | exact IH].
Qed.

Lemma find_ext' {A} (f g : A -> bool) (l : list A) :
  (forall x, f x = g x) -> List.find f l = List.find g l.
Proof.
  intros H. induction l as [| x l IH]; simpl; [reflexivity |].
  rewrite H, IH. reflexivity.
Qed.

(** The scan is a search for the first step that reaches a passing seat. *)
Lemma scanSeats_find ps opts from n :
  scanSeats ps opts from n
  = (fun k => ((from + k) mod MAX_PLAYERS)%nat)
    <$> List.find (fun k => passesAt ps opts ((from + k) mod MAX_PLAYERS)%nat)
                  (seq 1 n).
Proof.
  revert from. induction n as [| n IH]; intros from; [reflexivity |].
  cbn [scanSeats seq List.find].
  set (s := ((from + 1) mod MAX_PLAYERS)%nat).
  assert (Hrec : scanSeats ps opts s n
    = (fun k => ((from + k) mod MAX_PLAYERS)%nat)
      <$> List.find
            (fun k => passesAt ps opts ((from + k) mod MAX_PLAYERS)%nat)
            (seq 2 n)).
  { rewrite IH, <- (seq_shift n 1), find_map_fmap.
    assert (Hs : forall k,
      ((s + k) mod MAX_PLAYERS = (from + S k) mod MAX_PLAYERS)%nat).
    { intros k. unfold s.
      rewrite Nat.Div0.add_mod_idemp_l. f_equal. lia. }
    rewrite (find_ext'
               (fun k => passesAt ps opts ((s + k) mod MAX_PLAYERS)%nat)
               (fun k => passesAt ps opts ((from + S k) mod MAX_PLAYERS)%nat))
      by (intros k; now rewrite Hs).
    destruct (List.find _ (seq 1 n)) as [k |]; [| reflexivity].
    exact (f_equal Some (Hs k)). }
  unfold passesAt at 1. fold s.
  destruct (List.find (fun x => (seat x =? s)%nat) ps) as [p |];
    [| exact Hrec].
  unfold passes.
  destruct (negb (includeFolded opts) && folded p); [exact Hrec |].
  destruct (negb (includeAllIn opts) && allIn p); [exact Hrec |].
  destruct (requireStack opts && (stack p <=? 0)); [exact Hrec |].
  reflexivity.
Qed.

Lemma find_seq_first (f : nat -> bool) (a n k : nat) :
  List.find f (seq a n) = Some k <->
  (a <= k < a + n)%nat /\ f k = true /\
  forall j, (a <= j < k)%nat -> f j = false.
Proof.
  revert a. induction n as [| n IH]; intros a; simpl.
  - split; [discriminate | lia].
  - destruct (f a) eqn:Ha.
    + split.
      * intros [= <-]. repeat split; [lia | lia | exact Ha | lia].
      * intros (Hk & Hf & Hmin). f_equal.
        destruct (Nat.eq_dec a k) as [-> | Hne]; [reflexivity |].
        rewrite (Hmin a) in Ha; [discriminate | lia].
    + rewrite IH. split.
      * intros (Hk & Hf & Hmin). repeat split; [lia | lia | exact Hf |].
        intros j Hj. destruct (Nat.eq_dec j a) as [-> | Hne]; [exact Ha |].
        apply Hmin. lia.
      * intros (Hk & Hf & Hmin).
        assert (a <> k) by (intros ->; congruence).
        repeat split; [lia | lia | exact Hf |].
        intros j Hj. apply Hmin. lia.
Qed.

Lemma find_seq_none (f : nat -> bool) (a n : nat) :
  List.find f (seq a n) = None <->
  forall j, (a <= j < a + n)%nat -> f j = false.
Proof.
  split.
  - intros H j Hj. apply (find_none _ _ H). apply in_seq. exact Hj.
  - intros H. destruct (List.find f (seq a n)) as [k |] eqn:E; [| reflexivity].
    apply find_seq_first in E as (Hk & Hf & _). rewrite H in Hf; [discriminate | lia].
Qed.

Lemma players_empty_length room :
  (length (players room) =? 0)%nat = true <-> players room = [].
Proof.
  rewrite Nat.eqb_eq. destruct (players room); simpl; split; congruence.
Qed.

Lemma nextActiveSeat_Some_iff (room : Room) (from : option nat) (opts : Opts)
    (s : nat) :
  nextActiveSeat room from opts = Some s <->
  players room <> [] /\
  exists k, (1 <= k <= MAX_PLAYERS)%nat /\ s = seatAfter from k /\
    seatPasses room opts s = true /\
    forall j, (1 <= j < k)%nat ->
      seatPasses room opts (seatAfter from j) = false.
Proof.
  unfold nextActiveSeat, seatPasses, seatAfter.
  destruct (length (players room) =? 0)%nat eqn:E.
  - apply players_empty_length in E. split; [discriminate |].
    intros [H _]. contradiction.
  - assert (Hne : players room <> []).
    { intros H. apply players_empty_length in H. congruence. }
    rewrite scanSeats_find. split.
    + destruct (List.find _ (seq 1 MAX_PLAYERS)) as [k |] eqn:Hf;
        [| discriminate].
      intros [= <-]. split; [exact Hne |].
      apply find_seq_first in Hf as (Hk & Hp & Hmin).
      exists k. repeat split; [lia | lia | exact Hp | exact Hmin].
    + intros (_ & k & Hk & -> & Hp & Hmin).
      replace (List.find _ (seq 1 MAX_PLAYERS)) with (Some k); [reflexivity |].
      symmetry. apply find_seq_first. repeat split; [lia | lia | exact Hp | exact Hmin].
Qed.

(** X14: [nextActiveSeat] returns the first seat, going clockwise from
    [fromSeat] (a [null] seat counting as seat 0) for at most [MAX_PLAYERS]
    steps, on which a player sits and the first such player of
    [room.players] passes the filters of [opts]. *)
Theorem nextActiveSeat_first (room : Room) (from : option nat) (opts : Opts)
    (s : nat) :
  nextActiveSeat room from opts = Some s <->
  players room <> [] /\
  exists k, (1 <= k <= MAX_PLAYERS)%nat /\ s = seatAfter from k /\
    seatPasses room opts s = true /\
    forall j, (1 <= j < k)%nat ->
      seatPasses room opts (seatAfter from j) = false.
Proof. apply nextActiveSeat_Some_iff. Qed.

Lemma mod_seat_reached (from s : nat) :
  (s < MAX_PLAYERS)%nat ->
  exists k, (1 <= k <= MAX_PLAYERS)%nat /\ ((from + k) mod MAX_PLAYERS)%nat = s.
Proof.
  intros Hs. unfold MAX_PLAYERS in *.
  pose proof (Nat.mod_upper_bound from 8 ltac:(lia)) as Hm.
  destruct (le_lt_dec s (from mod 8)) as [Hle | Hlt].
  - exists (8 + s - from mod 8)%nat. split; [lia |].
    rewrite (Nat.div_mod_eq from 8) at 1.
    replace (8 * (from / 8) + from mod 8 + (8 + s - from mod 8))%nat
      with (s + (from / 8 + 1) * 8)%nat by lia.
    rewrite Nat.Div0.mod_add. apply Nat.mod_small. lia.
  - exists (s - from mod 8)%nat. split; [lia |].
    rewrite (Nat.div_mod_eq from 8) at 1.
    replace (8 * (from / 8) + from mod 8 + (s - from mod 8))%nat
      with (s + (from / 8) * 8)%nat by lia.
    rewrite Nat.Div0.mod_add. apply Nat.mod_small. lia.
Qed.

Lemma nextActiveSeat_None_iff (room : Room) (from : option nat) (opts : Opts) :
  nextActiveSeat room from opts = None <->
  players room = [] \/
  forall s, (s < MAX_PLAYERS)%nat -> seatPasses room opts s = false.
Proof.
  unfold nextActiveSeat, seatPasses.
  destruct (length (players room) =? 0)%nat eqn:E.
  - apply players_empty_length in E. split; [now left | reflexivity].
  - assert (Hne : players room <> []).
    { intros H. apply players_empty_length in H. congruence. }
    rewrite scanSeats_find. split.
    + destruct (List.find _ (seq 1 MAX_PLAYERS)) as [k |] eqn:Hf;
        [discriminate |].
      intros _. right. intros s Hs.
      destruct (mod_seat_reached (default O from) s Hs) as (k & Hk & <-).
      apply (proj1 (find_seq_none _ _ _) Hf). lia.
    + intros [H | H]; [contradiction |].
      replace (List.find _ (seq 1 MAX_PLAYERS)) with (@None nat); [reflexivity |].
      symmetry. apply find_seq_none. intros j _. apply H.
      apply Nat.mod_upper_bound. discriminate.
Qed.

(** X15: [nextActiveSeat] returns [null] exactly when the room is empty or no
    seat of the table passes the filters: a full turn from any seat reaches
    every seat. *)
Theorem nextActiveSeat_null (room : Room) (from : option nat) (opts : Opts) :
  nextActiveSeat room from opts = None <->
  players room = [] \/
  forall s, (s < MAX_PLAYERS)%nat -> seatPasses room opts s = false.
Proof. apply nextActiveSeat_None_iff. Qed.

Lemma existsb_Permutation {A} (f : A -> bool) (l l' : list A) :
  l ≡ₚ l' -> existsb f l = existsb f l'.
Proof.
  intros H. apply eq_true_iff_eq. rewrite !existsb_exists.
  split; intros (x & Hx & Hf); exists x; split; try exact Hf;
    apply list_elem_of_In; [rewrite <- H | rewrite H]; now apply list_elem_of_In.
Qed.

Lemma existsb_seat_find (ps : list Player) (s : nat) :
  existsb (Nat.eqb s) (map seat ps)
  = match List.find (fun x => (seat x =? s)%nat) ps with
    | Some _ => true
    | None => false
    end.
Proof.
  induction ps as [| p ps IH]; simpl; [reflexivity |].
  rewrite (Nat.eqb_sym s). destruct (seat p =? s)%nat; simpl;
    [reflexivity | exact IH].
Qed.

Lemma scanTaken_scanSeats (ps : list Player) (from n : nat) :
  scanTaken (merge_sort Nat.le (map seat ps)) from n
  = scanSeats ps anyOpts from n.
Proof.
  revert from. induction n as [| n IH]; intros from; [reflexivity |].
  cbn [scanTaken scanSeats].
  rewrite (existsb_Permutation _ _ _ (merge_sort_Permutation Nat.le (map seat ps))).
  rewrite existsb_seat_find.
  destruct (List.find _ ps) as [p |]; simpl.
  - reflexivity.
  - apply IH.
Qed.

(** X16: [nextSeat] is [nextActiveSeat] with every filter switched off
    ([includeFolded] and [includeAllIn] set, no [requireStack]). *)
Theorem nextSeat_nextActiveSeat (room : Room) (from : option nat) :
  nextSeat room from = nextActiveSeat room from anyOpts.
Proof.
  unfold nextSeat, nextActiveSeat.
  rewrite (Permutation_length (merge_sort_Permutation Nat.le _)), length_map.
  destruct (length (players room) =? 0)%nat; [reflexivity |].
  apply scanTaken_scanSeats.
Qed.

(** ** Free seats *)

Lemma find_seq_least (f : nat -> bool) (n s : nat) :
  List.find f (seq 0 n) = Some s ->
  (s < n)%nat /\ f s = true /\ forall j, (j < s)%nat -> f j = false.
Proof.
  intros H. apply find_seq_first in H as (Hk & Hf & Hmin).
  repeat split; [lia | exact Hf |]. intros j Hj. apply Hmin. lia.
Qed.

Lemma seat_taken room s :
  existsb (Nat.eqb s) (map seat (players room)) = true
  <-> In s (map seat (players room)).
Proof.
  rewrite existsb_exists. split.
  - intros (x & Hx & Hs). apply Nat.eqb_eq in Hs. now subst.
  - intros H. exists s. split; [exact H | apply Nat.eqb_refl].
Qed.

Lemma assignSeat_spec (room : Room) :
  match assignSeat room with
  | Some s =>
      (s < MAX_PLAYERS)%nat /\ ~ In s (map seat (players room)) /\
      forall s', (s' < s)%nat -> In s' (map seat (players room))
  | None =>
      forall s, (s < MAX_PLAYERS)%nat -> In s (map seat (players room))
  end.
Proof.
  unfold assignSeat.
  destruct (List.find _ (seq 0 MAX_PLAYERS)) as [s |] eqn:E.
  - apply find_seq_least in E as (Hs & Hfree & Hmin). repeat split.
    + exact Hs.
    + intros Hin. apply seat_taken in Hin. rewrite Hin in Hfree. discriminate.
    + intros s' Hs'. apply seat_taken. specialize (Hmin s' Hs').
      now apply negb_false_iff in Hmin.
  - intros s Hs. apply seat_taken.
    pose proof (proj1 (find_seq_none _ _ _) E s ltac:(lia)) as H.
    now apply negb_false_iff in H.
Qed.

(** X17: [assignSeat] returns the lowest seat of the table that no player
    occupies, and [null] exactly when every seat is occupied. *)
Theorem assignSeat_lowest_free (room : Room) (s : nat) :
  (assignSeat room = Some s <->
   (s < MAX_PLAYERS)%nat /\ ~ In s (map seat (players room)) /\
   forall s', (s' < s)%nat -> In s' (map seat (players room)))
  /\
  (assignSeat room = None <->
   forall s', (s' < MAX_PLAYERS)%nat -> In s' (map seat (players room))).
Proof.
  pose proof (assignSeat_spec room) as H.
  destruct (assignSeat room) as [s0 |].
  - destruct H as (Hs0 & Hfree & Hmin). split; split.
    + intros [= <-]. auto.
    + intros (Hs & Hf & Hm). f_equal.
      destruct (lt_eq_lt_dec s0 s) as [[Hlt | Heq] | Hgt].
      * exfalso. apply Hfree, Hm, Hlt.
      * exact Heq.
      * exfalso. apply Hf, Hmin, Hgt.
    + discriminate.
    + intros Hall. exfalso. apply Hfree, Hall, Hs0.
  - split; split.
    + discriminate.
    + intros (Hs & Hf & _). exfalso. apply Hf, H, Hs.
    + intros _. exact H.
    + reflexivity.
Qed.

Lemma assignSeat_exists (room : Room) :
  (length (players room) < MAX_PLAYERS)%nat ->
  exists s, assignSeat room = Some s.
Proof.
  intros Hlen. destruct (assignSeat room) as [s |] eqn:E; [eauto |].
  exfalso. pose proof (assignSeat_spec room) as H. rewrite E in H.
  assert (Hincl : seq 0 MAX_PLAYERS ⊆ map seat (players room)).
  { intros s Hs. apply list_elem_of_In. apply H.
    apply list_elem_of_In, in_seq in Hs. lia. }
  assert (Hsub : seq 0 MAX_PLAYERS ⊆+ map seat (players room)).
  { apply NoDup_submseteq; [apply NoDup_ListNoDup, seq_NoDup | exact Hincl]. }
  apply submseteq_length in Hsub. rewrite length_seq, length_map in Hsub. lia.
Qed.

(** X18: with fewer than [MAX_PLAYERS] players a seat is free, whatever the
    seats of those players are: after the length test of [joinLobby] the
    answer "No seats available" cannot occur. *)
Theorem assignSeat_available (room : Room) :
  (length (players room) < MAX_PLAYERS)%nat ->
  exists s, assignSeat room = Some s.
Proof. apply assignSeat_exists. Qed.

Lemma assignSeat_available_witness :
  exists s, assignSeat headsUpHand = Some s.
Proof. apply assignSeat_available. vm_compute. lia. Defined.

(** ** Dealing two cards to every player with chips *)

Lemma passOk_all :
  forallb (fun m => forallb (passOk m) startSeats) (masks MAX_PLAYERS) = true.
Proof. vm_compute. reflexivity. Qed.

Lemma masks_complete (m : list bool) : In m (masks (length m)).
Proof.
  induction m as [| b m IH]; simpl; [now left |].
  apply in_flat_map. exists m. split; [exact IH |].
  destruct b; simpl; auto.
Qed.

Lemma seatMask_length ps opts : length (seatMask ps opts) = MAX_PLAYERS.
Proof. unfold seatMask. now rewrite length_map, length_seq. Qed.

Lemma seatMask_nth ps opts s :
  (s < MAX_PLAYERS)%nat -> nth s (seatMask ps opts) false = passesAt ps opts s.
Proof.
  intros Hs. unfold seatMask.
  rewrite (nth_indep _ false (passesAt ps opts O))
    by (now rewrite length_map, length_seq).
  rewrite map_nth, seq_nth by exact Hs. reflexivity.
Qed.

Lemma nextOn_mod m d :
  nextOn m (Some d) = nextOn m (Some (d mod MAX_PLAYERS)%nat).
Proof.
  unfold nextOn. cbn [default].
  assert (H : forall k, ((d mod MAX_PLAYERS + k) mod MAX_PLAYERS
                         = (d + k) mod MAX_PLAYERS)%nat).
  { intros k. apply Nat.Div0.add_mod_idemp_l. }
  rewrite (find_ext'
             (fun k => nth ((d mod MAX_PLAYERS + k) mod MAX_PLAYERS)%nat m false)
             (fun k => nth ((d + k) mod MAX_PLAYERS)%nat m false))
    by (intros k; now rewrite H).
  destruct (List.find _ _) as [k |]; [| reflexivity].
  exact (f_equal Some (eq_sym (H k))).
Qed.

Lemma passOk_seatMask ps opts from : passOk (seatMask ps opts) from = true.
Proof.
  pose proof passOk_all as H. rewrite forallb_forall in H.
  specialize (H (seatMask ps opts)).
  rewrite <- (seatMask_length ps opts) in H at 1.
  specialize (H (masks_complete _)). rewrite forallb_forall in H.
  destruct from as [d |].
  - replace (passOk (seatMask ps opts) (Some d))
      with (passOk (seatMask ps opts) (Some (d mod MAX_PLAYERS)%nat)).
    + apply H. right. apply in_map, in_seq.
      pose proof (Nat.mod_upper_bound d MAX_PLAYERS). unfold MAX_PLAYERS in *. lia.
    + unfold passOk. now rewrite <- nextOn_mod.
  - apply H. now left.
Qed.

(** The resolver reads the mask. *)
Lemma nextActiveSeat_nextOn room from opts :
  players room <> [] ->
  nextActiveSeat room from opts = nextOn (seatMask (players room) opts) from.
Proof.
  intros Hne. unfold nextActiveSeat, nextOn.
  destruct (length (players room) =? 0)%nat eqn:E.
  { apply players_empty_length in E. contradiction. }
  rewrite scanSeats_find. f_equal. apply find_ext'. intros k.
  symmetry. apply seatMask_nth, Nat.mod_upper_bound. discriminate.
Qed.

Lemma nextOn_passing m from v :
  nextOn m from = Some v -> (v < MAX_PLAYERS)%nat /\ nth v m false = true.
Proof.
  unfold nextOn. destruct (List.find _ _) as [k |] eqn:E; [| discriminate].
  intros H.
  assert (Hv : v = ((default O from + k) mod MAX_PLAYERS)%nat)
    by (injection H as <-; reflexivity).
  subst v. apply find_some in E as [_ E]. split; [| exact E].
  apply Nat.mod_upper_bound. discriminate.
Qed.

(** Dealing leaves seats and stacks alone, and with them the mask. *)
Lemma passesAt_dealt ps qs s :
  Forall2 dealt ps qs -> passesAt qs dealOpts s = passesAt ps dealOpts s.
Proof.
  intros H. unfold passesAt. pose proof (find_seat_dealt _ _ s H) as Hf.
  inversion Hf as [p q Hpq Hp Hq |]; [| reflexivity].
  destruct Hpq as (_ & _ & _ & Hst & _). unfold passes. cbn. now rewrite Hst.
Qed.

Lemma seatMask_dealt ps qs :
  Forall2 dealt ps qs -> seatMask qs dealOpts = seatMask ps dealOpts.
Proof.
  intros H. unfold seatMask. apply map_ext. intros s. now apply passesAt_dealt.
Qed.

Lemma set_hole_same (p : Player) : set_hole (hole p ++ []) p = p.
Proof. rewrite app_nil_r. now destruct p. Qed.


Lemma findIndex_find {A} (f : A -> bool) (l : list A) (x : A) :
  List.find f l = Some x ->
  exists i, findIndex f l = Some i /\ l !! i = Some x.
Proof.
  induction l as [| y l IH]; simpl; [discriminate |].
  destruct (f y).
  - intros [= <-]. exists O. auto.
  - intros H. destruct (IH H) as (i & -> & Hi). exists (S i). auto.
Qed.

Lemma Forall2_compose {A} (R1 R2 R3 : A -> A -> Prop) (l1 l2 l3 : list A) :
  (forall a b c, R1 a b -> R2 b c -> R3 a c) ->
  Forall2 R1 l1 l2 -> Forall2 R2 l2 l3 -> Forall2 R3 l1 l3.
Proof.
  intros H H1. revert l3. induction H1; intros l3 H2; inversion H2; subst;
    constructor; eauto.
Qed.

Lemma dealtCards_seat k p p' : dealtCards k p p' -> seat p' = seat p.
Proof. intros (cs & _ & ->). reflexivity. Qed.

Lemma dealtCards_plus a b p q r :
  dealtCards a p q -> dealtCards b q r -> dealtCards (a + b) p r.
Proof.
  intros (cs & Ha & ->) (ds & Hb & ->). exists (cs ++ ds). split.
  - rewrite length_app. lia.
  - cbn. now rewrite app_assoc.
Qed.

Lemma dealtCards_seats (k : Player -> nat) ps qs :
  Forall2 (fun p p' => dealtCards (k p) p p') ps qs ->
  map seat qs = map seat ps.
Proof.
  induction 1 as [| p q ps qs H _ IH]; simpl; [reflexivity |].
  now rewrite (dealtCards_seat _ _ _ H), IH.
Qed.

(** Hole cards play no part in the filters. *)
Lemma passesAt_dealtCards (k : Player -> nat) ps qs opts s :
  Forall2 (fun p p' => dealtCards (k p) p p') ps qs ->
  passesAt qs opts s = passesAt ps opts s.
Proof.
  unfold passesAt.
  induction 1 as [| p q ps qs (cs & _ & ->) _ IH]; simpl; [reflexivity |].
  destruct (seat p =? s)%nat; [reflexivity | exact IH].
Qed.

Lemma seatMask_dealtCards (k : Player -> nat) ps qs opts :
  Forall2 (fun p p' => dealtCards (k p) p p') ps qs ->
  seatMask qs opts = seatMask ps opts.
Proof.
  intros H. unfold seatMask. apply map_ext. intros s.
  eapply passesAt_dealtCards, H.
Qed.

(** With distinct seats, an update at the position of the player on seat
    [v] is an update of whoever sits on seat [v]. *)
Lemma alter_on_seat (f : Player -> Player) (ps : list Player) (i : nat)
    (p : Player) :
  NoDup (map seat ps) -> ps !! i = Some p ->
  Forall2 (fun q q' => q' = if (seat q =? seat p)%nat then f q else q)
          ps (alter f i ps).
Proof.
  revert i. induction ps as [| a ps IH]; intros i Hnd Hi;
    [destruct i; discriminate |].
  apply NoDup_cons in Hnd as [Hna Hnd]. destruct i as [| i]; cbn in *.
  - injection Hi as ->. constructor; [now rewrite Nat.eqb_refl |].
    clear IH. induction ps as [| b ps IH]; constructor.
    + destruct (Nat.eqb_spec (seat b) (seat p)) as [E | _]; [| reflexivity].
      exfalso. apply Hna. rewrite <- E. left.
    + apply IH.
      * intros H. apply Hna. now right.
      * now apply NoDup_cons in Hnd as [_ ?].
  - constructor; [| now apply IH].
    destruct (Nat.eqb_spec (seat a) (seat p)) as [E | _]; [| reflexivity].
    exfalso. apply Hna. rewrite E.
    apply list_elem_of_In, in_map, list_elem_of_In.
    eapply list_elem_of_lookup_2, Hi.
Qed.

(** One turn of the dealing loop on a passing seat. *)
Lemma dealOne_passing room v :
  NoDup (map seat (players room)) ->
  passesAt (players room) dealOpts v = true ->
  Forall2 (fun p p' => dealtCards (if (seat p =? v)%nat then 1 else 0) p p')
          (players room) (players (dealOne room (Some v))) /\
  length (deck (dealOne room (Some v))) = (length (deck room) - 1)%nat.
Proof.
  intros Hnd Hpass. unfold passesAt in Hpass.
  destruct (List.find _ (players room)) as [p |] eqn:Hfind; [| discriminate].
  destruct (findIndex_find _ _ _ Hfind) as (i & Hi & Hp).
  apply find_some in Hfind as [_ Hv]. apply Nat.eqb_eq in Hv.
  unfold passes in Hpass. cbn in Hpass.
  unfold dealOne, findBySeat. rewrite Hi, Hp.
  destruct (0 <=? stack p) eqn:Hst; [| destruct (stack p <=? 0) eqn:E; lia].
  cbn [pop]. rsimpl. split.
  - eapply Forall2_impl; [apply (alter_on_seat _ _ _ _ Hnd Hp) |].
    intros q q' ->. rewrite Hv.
    destruct (seat q =? v)%nat.
    + exists [List.last (deck room) Undefined]. auto.
    + exists []. split; [reflexivity | now rewrite set_hole_same].
  - clear. induction (deck room) as [| c d IH]; [reflexivity |].
    destruct d; [reflexivity |]. cbn [removelast length] in *. lia.
Qed.

Lemma timesDealt_cons (l : list (option nat)) (s x : option nat) :
  timesDealt (s :: l) x
  = ((if bool_decide (s = x) then 1 else 0) + timesDealt l x)%nat.
Proof. unfold timesDealt. simpl. now destruct (bool_decide (s = x)). Qed.

Lemma walk_S m s n :
  walk m s (S n)
  = (s :: (walk m (nextOn m s) n).1, (walk m (nextOn m s) n).2).
Proof. cbn [walk]. now destruct (walk m (nextOn m s) n). Qed.

Lemma walk_length m s n : length (walk m s n).1 = n.
Proof.
  revert s. induction n as [| n IH]; intros s; [reflexivity |].
  rewrite walk_S. simpl. now rewrite IH.
Qed.

(** The dealing loop follows the walk on the mask. *)
Lemma dealPass_walk m n room s :
  NoDup (map seat (players room)) -> players room <> [] ->
  seatMask (players room) dealOpts = m ->
  (forall v, s = Some v -> nth v m false = true /\ (v < MAX_PLAYERS)%nat) ->
  (dealPass n room s).2 = (walk m s n).2 /\
  Forall2 (fun p p' =>
             dealtCards (timesDealt (walk m s n).1 (Some (seat p))) p p')
          (players room) (players (dealPass n room s).1) /\
  length (deck (dealPass n room s).1)
  = (length (deck room) - (n - timesDealt (walk m s n).1 None))%nat.
Proof.
  revert room s. induction n as [| n IH]; intros room s Hnd Hne Hm Hs.
  - cbn. repeat split; [| lia].
    apply Forall2_same. intros p. exists []. split; [reflexivity |].
    now rewrite set_hole_same.
  - rewrite walk_S. cbn [dealPass fst snd]. rewrite timesDealt_cons.
    set (room1 := dealOne room s).
    assert (H1 : Forall2 (fun p p' =>
                   dealtCards (if bool_decide (s = Some (seat p)) then 1 else 0)
                              p p')
                   (players room) (players room1) /\
                 length (deck room1)
                 = (length (deck room)
                    - (if bool_decide (s = None) then 0 else 1))%nat).
    { destruct s as [v |].
      - destruct (Hs v eq_refl) as [Hv Hlt].
        rewrite <- Hm, seatMask_nth in Hv by exact Hlt.
        destruct (dealOne_passing room v Hnd Hv) as [HF Hd]. split.
        + eapply Forall2_impl; [exact HF |]. intros p p' H. cbn in H.
          destruct (Nat.eqb_spec (seat p) v) as [E | E].
          * rewrite bool_decide_eq_true_2 by congruence. exact H.
          * rewrite bool_decide_eq_false_2 by congruence. exact H.
        + unfold room1. rewrite Hd. reflexivity.
      - split; [| cbn; lia].
        apply Forall2_same. intros p. exists []. split; [reflexivity |].
        now rewrite set_hole_same. }
    destruct H1 as [HF1 Hd1].
    assert (Hseat1 : map seat (players room1) = map seat (players room))
      by apply (dealtCards_seats _ _ _ HF1).
    assert (Hne1 : players room1 <> []).
    { intros E. apply Forall2_length in HF1. rewrite E in HF1.
      destruct (players room); [contradiction | discriminate]. }
    assert (Hm1 : seatMask (players room1) dealOpts = m).
    { rewrite <- Hm. eapply seatMask_dealtCards, HF1. }
    assert (Hnext : nextActiveSeat room1 s dealOpts = nextOn m s).
    { rewrite nextActiveSeat_nextOn by exact Hne1. now rewrite Hm1. }
    rewrite Hnext.
    destruct (IH room1 (nextOn m s)) as (He & HF & Hd).
    + now rewrite Hseat1.
    + exact Hne1.
    + exact Hm1.
    + intros v Hv. apply nextOn_passing in Hv. tauto.
    + split; [exact He |]. split.
      * eapply Forall2_compose; [| exact HF1 | exact HF].
        intros a b c Ha Hb. cbn beta in *.
        rewrite (dealtCards_seat _ _ _ Ha) in Hb.
        rewrite timesDealt_cons. eapply dealtCards_plus; eauto.
      * rewrite ?timesDealt_cons, Hd, Hd1.
        pose proof (walk_length m (nextOn m s) n) as Hl.
        assert (Hc : (timesDealt (walk m (nextOn m s) n).1 None <= n)%nat).
        { unfold timesDealt. rewrite <- Hl at 2. apply filter_length_le. }
        destruct s as [v |];
          [rewrite !bool_decide_eq_false_2 by discriminate
          | rewrite !bool_decide_eq_true_2 by reflexivity]; lia.
Qed.

Lemma filter_length_Permutation {A} (f : A -> bool) (l l' : list A) :
  l ≡ₚ l' -> length (List.filter f l) = length (List.filter f l').
Proof.
  induction 1 as [| x l l' _ IH | x y l | l l' l'' _ IH1 _ IH2]; simpl.
  - reflexivity.
  - destruct (f x); simpl; congruence.
  - destruct (f x), (f y); reflexivity.
  - congruence.
Qed.

Lemma countTrue_map {A} (f : A -> bool) (l : list A) :
  countTrue (map f l) = length (List.filter f l).
Proof.
  unfold countTrue. induction l as [| x l IH]; simpl; [reflexivity |].
  change (id (f x)) with (f x). destruct (f x); simpl; now rewrite IH.
Qed.

Lemma passes_dealOpts p : passes dealOpts p = (0 <? stack p).
Proof.
  unfold passes. cbn. destruct (Z.leb_spec (stack p) 0), (Z.ltb_spec 0 (stack p));
    try reflexivity; lia.
Qed.

(** With distinct seats, a seat passes exactly when its player has chips. *)
Lemma passesAt_funded ps p :
  NoDup (map seat ps) -> In p ps ->
  passesAt ps dealOpts (seat p) = (0 <? stack p).
Proof.
  intros Hnd Hp. unfold passesAt.
  destruct (List.find _ ps) as [q |] eqn:E.
  - rewrite (seat_unique _ _ _ _ Hnd E Hp eq_refl). apply passes_dealOpts.
  - exfalso. apply (find_none _ _ E) in Hp. now rewrite Nat.eqb_refl in Hp.
Qed.

Lemma length_activeSeats room :
  length (activeSeats room)
  = length (List.filter (fun p => 0 <? stack p) (players room)).
Proof.
  unfold activeSeats. rewrite length_map.
  apply filter_length_Permutation, seatedPlayers_Permutation.
Qed.

Lemma NoDup_map_filter {A B} `{EqDecision B} (g : A -> B) (f : A -> bool)
    (l : list A) :
  NoDup (map g l) -> NoDup (map g (List.filter f l)).
Proof.
  induction l as [| x l IH]; simpl; [auto |].
  intros H. apply NoDup_cons in H as [Hx Hl].
  destruct (f x); simpl; [| auto]. apply NoDup_cons. split; [| auto].
  intros Hin. apply Hx. apply list_elem_of_In, in_map_iff in Hin
    as (y & Hy & Hin). apply filter_In in Hin as [Hin _].
  apply list_elem_of_In, in_map_iff. eauto.
Qed.

(** With distinct seats within the table, the passing seats are as many as
    the players with chips. *)
Lemma countTrue_activeSeats room :
  seatsOk room ->
  countTrue (seatMask (players room) dealOpts) = length (activeSeats room).
Proof.
  intros [Hnd Hb]. rewrite length_activeSeats.
  unfold seatMask. rewrite countTrue_map.
  rewrite <- (length_map seat (List.filter _ (players room))).
  apply Permutation_length, NoDup_Permutation.
  - apply NoDup_ListNoDup, List.NoDup_filter, seq_NoDup.
  - apply NoDup_map_filter, Hnd.
  - intros s. rewrite !list_elem_of_In, filter_In, in_seq, in_map_iff.
    setoid_rewrite filter_In. rewrite List.Forall_forall in Hb. split.
    + intros [_ Hp]. unfold passesAt in Hp.
      destruct (List.find _ (players room)) as [p |] eqn:E; [| discriminate].
      apply find_some in E as [Hin Hs]. apply Nat.eqb_eq in Hs.
      rewrite passes_dealOpts in Hp. eauto.
    + intros (p & <- & Hin & Hpos). split.
      * specialize (Hb p Hin). lia.
      * now rewrite passesAt_funded.
Qed.

Lemma Forall2_impl_In {A B} (R R' : A -> B -> Prop) (l : list A) (k : list B) :
  Forall2 R l k -> (forall x y, In x l -> R x y -> R' x y) -> Forall2 R' l k.
Proof.
  induction 1 as [| x y l k H _ IH]; intros HR; constructor.
  - apply HR; [now left | exact H].
  - apply IH. intros a b Ha. apply HR. now right.
Qed.

Lemma dealHoleCards_cards (room : Room) :
  seatsOk room -> (2 <= length (activeSeats room))%nat ->
  Forall2 (fun p p' => dealtCards (if 0 <? stack p then 2 else 0) p p')
          (players room) (players (dealHoleCards room)) /\
  length (deck (dealHoleCards room))
  = (length (deck room) - 2 * length (activeSeats room))%nat.
Proof.
  intros Hok Htwo. pose proof Hok as [Hnd Hb].
  set (m := seatMask (players room) dealOpts).
  set (n := length (activeSeats room)) in *.
  assert (Hne : players room <> []).
  { intros E. unfold n in Htwo. rewrite length_activeSeats, E in Htwo.
    simpl in Htwo. lia. }
  pose proof (passOk_seatMask (players room) dealOpts (dealerSeat room)) as Hpass.
  unfold passOk in Hpass.
  rewrite (countTrue_activeSeats room Hok) in Hpass. fold m n in Hpass.
  set (s0 := nextOn m (dealerSeat room)) in *.
  destruct (walk m s0 n) as [l e] eqn:Hwalk.
  apply andb_prop in Hpass as [Hpass Hseats].
  apply andb_prop in Hpass as [He Hnone].
  apply bool_decide_eq_true in He. subst e.
  apply Nat.eqb_eq in Hnone. rewrite forallb_forall in Hseats.
  assert (Hs0 : forall v, s0 = Some v ->
                          nth v m false = true /\ (v < MAX_PLAYERS)%nat).
  { intros v Hv. apply nextOn_passing in Hv. tauto. }
  destruct (dealPass_walk m n room s0 Hnd Hne eq_refl Hs0) as (He1 & HF1 & Hd1).
  rewrite Hwalk in He1, HF1, Hd1. cbn [fst snd] in He1, HF1, Hd1.
  set (r1 := dealPass n room s0) in *.
  destruct (dealPass_walk m n r1.1 s0) as (_ & HF2 & Hd2).
  { rewrite (dealtCards_seats _ _ _ HF1). exact Hnd. }
  { intros E. apply Forall2_length in HF1. rewrite E in HF1.
    destruct (players room); [contradiction | discriminate]. }
  { eapply seatMask_dealtCards, HF1. }
  { exact Hs0. }
  rewrite Hwalk in HF2, Hd2. cbn [fst snd] in HF2, Hd2.
  assert (Hres : dealHoleCards room = (dealPass n r1.1 s0).1).
  { unfold dealHoleCards. fold n.
    destruct (n <? 2)%nat eqn:E; [apply Nat.ltb_lt in E; lia |].
    rewrite (nextActiveSeat_nextOn room _ _ Hne). fold m s0 r1.
    rewrite <- He1. destruct r1 as [ra sa]. cbn [fst snd].
    now destruct (dealPass n ra sa). }
  rewrite Hres. split.
  - eapply Forall2_impl_In;
      [eapply (Forall2_compose _ _
                 (fun p p' =>
                    dealtCards (timesDealt l (Some (seat p))
                                + timesDealt l (Some (seat p))) p p'));
       [| exact HF1 | exact HF2] |].
    + intros a b c Ha Hbc. cbn beta in *.
      rewrite (dealtCards_seat _ _ _ Ha) in Hbc.
      exact (dealtCards_plus _ _ _ _ _ Ha Hbc).
    + intros p p' Hp H. cbn beta in H.
      rewrite List.Forall_forall in Hb.
      specialize (Hseats (seat p)). rewrite in_seq in Hseats.
      specialize (Hseats ltac:(specialize (Hb p Hp); lia)).
      apply Nat.eqb_eq in Hseats. rewrite Hseats in H.
      unfold m in H. rewrite seatMask_nth in H by (apply Hb, Hp).
      rewrite (passesAt_funded _ _ Hnd Hp) in H.
      destruct (0 <? stack p); exact H.
  - rewrite Hd2, Hd1, Hnone. lia.
Qed.



Lemma Forall2_In_right {A B} (R : A -> B -> Prop) (l : list A) (k : list B)
    (y : B) :
  Forall2 R l k -> In y k -> exists x, In x l /\ R x y.
Proof.
  induction 1 as [| a b l k H _ IH]; simpl; [contradiction |].
  intros [<- | Hy]; [eauto |]. destruct (IH Hy) as (x & ? & ?). eauto.
Qed.

Lemma activeSeats_dealtCards (k : Player -> nat) room room' :
  Forall2 (fun p p' => dealtCards (k p) p p') (players room) (players room') ->
  length (activeSeats room') = length (activeSeats room).
Proof.
  intros H. rewrite !length_activeSeats.
  induction H as [| p q ps qs (cs & _ & ->) _ IH]; simpl; [reflexivity |].
  destruct (0 <? stack p); simpl; congruence.
Qed.

(** X9: a hand that [beginHand] starts (from a room whose seats are distinct
    and within the table) has dealt after the blinds were posted: if then
    at least two players have chips left, every player with chips holds
    exactly two cards and the others none; if the blinds left fewer than two
    players with chips, nobody holds a card. *)
Theorem beginHand_hole_cards (rnd : nat -> nat) (room room' : Room)
    (p' : Player) :
  seatsOk room -> beginHand rnd room = Some room' -> state room' = Hand ->
  In p' (players room') ->
  length (hole p')
  = if (2 <=? length (activeSeats room'))%nat && (0 <? stack p')
    then 2%nat else 0%nat.
Proof.
  intros Hseats. unfold beginHand.
  destruct (_ <? 2)%nat; [intros [= <-]; discriminate |].
  set (d' := match dealerSeat room with
             | None => head (activeSeats room)
             | Some d =>
                 if existsb (Nat.eqb d) (activeSeats room)
                 then nextActiveSeat room (Some d) dealOpts
                 else head (activeSeats room)
             end).
  replace (match dealerSeat room with
           | None => set_dealerSeat (head (activeSeats room)) room
           | Some d =>
               if existsb (Nat.eqb d) (activeSeats room)
               then set_dealerSeat (nextActiveSeat room (Some d) dealOpts) room
               else set_dealerSeat (head (activeSeats room)) room
           end) with (set_dealerSeat d' room).
  2:{ unfold d'. destruct (dealerSeat room); [| reflexivity].
      now destruct (existsb _ _). }
  set (room_r := resetForNewHand rnd (set_dealerSeat d' room)).
  assert (Hpr : players room_r = map resetPlayer (players room)) by reflexivity.
  assert (Hfr : fundedSeat room_r (dealerSeat room_r)).
  { intros s0 x Hs0 Hx. apply find_some in Hx as [Hx Hsx].
    rewrite Hpr in Hx. apply in_map_iff in Hx as (p & <- & Hp).
    apply Nat.eqb_eq in Hsx. simpl.
    eapply (new_dealer_funded room s0 p Hseats); eauto. }
  destruct (postBlinds room_r) as [[room_b [blinds |]] |] eqn:Hpb;
    [| discriminate | discriminate].
  destruct blinds as [sbSeat bbSeat]. cbn [mbind option_bind].
  destruct (postBlinds_spec _ _ _ (fun _ => Hfr) Hpb) as [Hbl _].
  intros [= <-] _. rsimpl. intros Hp'.
  assert (Hok : seatsOk room_b).
  { assert (Hs : map seat (players room_b) = map seat (players room)).
    { rewrite <- (resetPlayer_seats (players room)), <- Hpr.
      clear -Hbl. induction Hbl as [| ? ? ? ? [[E _] _] _ IH]; simpl;
        congruence. }
    destruct Hseats as [Hnd Hb]. split; [now rewrite Hs |].
    eapply seat_bound_map; eauto. }
  assert (Hholes : Forall (fun q => hole q = []) (players room_b)).
  { assert (H0 : Forall (fun q => hole q = []) (players room_r)).
    { rewrite Hpr. apply List.Forall_forall. intros q Hq.
      apply in_map_iff in Hq as (q0 & <- & _). reflexivity. }
    clear -Hbl H0. induction Hbl as [| a b l k [(_ & _ & E & _) _] _ IH];
      [constructor |].
    inversion H0; subst. constructor; [congruence | auto]. }
  rewrite (activeSeats_ext (dealHoleCards room_b)) by reflexivity.
  destruct (le_lt_dec 2 (length (activeSeats room_b))) as [Htwo | Hfew].
  - destruct (dealHoleCards_cards room_b Hok Htwo) as [HF _].
    rewrite (activeSeats_dealtCards _ _ _ HF).
    rewrite (proj2 (Nat.leb_le _ _) Htwo).
    destruct (Forall2_In_right _ _ _ _ HF Hp') as (q & Hq & cs & Hcs & ->).
    rewrite List.Forall_forall in Hholes.
    cbn [hole set_hole stack andb]. rewrite (Hholes q Hq). exact Hcs.
  - assert (E : dealHoleCards room_b = room_b).
    { unfold dealHoleCards. now rewrite (proj2 (Nat.ltb_lt _ _) Hfew). }
    rewrite E in *.
    rewrite (proj2 (Nat.leb_gt _ _) Hfew). simpl.
    rewrite List.Forall_forall in Hholes. now rewrite (Hholes p' Hp').
Qed.

Lemma beginHand_hole_cards_witness :
  Forall (fun p' =>
            length (hole p')
            = if (2 <=? length (activeSeats afterBustHand))%nat
                 && (0 <? stack p')
              then 2%nat else 0%nat)
         (players afterBustHand).
Proof.
  apply List.Forall_forall. intros p' Hp'.
  apply (beginHand_hole_cards noShuffle bustRoom afterBustHand p');
    [apply bustRoom_seatsOk | reflexivity | reflexivity | exact Hp'].
Defined.

(** ** What the showdown pays *)

Lemma mapGet_mapSet_same {V} (k : string) (v : V) (m : list (string * V)) :
  mapGet k (mapSet k v m) = Some v.
Proof.
  induction m as [| [k' v'] m IH]; simpl.
  - now rewrite String.eqb_refl.
  - destruct (String.eqb k' k) eqn:E; simpl.
    + now rewrite String.eqb_refl.
    + now rewrite E.
Qed.

Lemma mapGet_mapSet_other {V} (k k' : string) (v : V) (m : list (string * V)) :
  k' <> k -> mapGet k (mapSet k' v m) = mapGet k m.
Proof.
  intros Hne. induction m as [| [k0 v0] m IH]; simpl.
  - destruct (String.eqb_spec k' k); [contradiction | reflexivity].
  - destruct (String.eqb_spec k0 k') as [-> | Hk0]; simpl.
    + destruct (String.eqb_spec k' k); [contradiction | reflexivity].
    + destruct (String.eqb k0 k); [reflexivity | exact IH].
Qed.

Lemma mapGet_mapSet_keeps {V} (k k' : string) (v : V) (m : list (string * V)) :
  is_Some (mapGet k m) -> is_Some (mapGet k (mapSet k' v m)).
Proof.
  intros H. destruct (String.eqb_spec k' k) as [-> | Hne].
  - rewrite mapGet_mapSet_same. eauto.
  - now rewrite mapGet_mapSet_other.
Qed.

Lemma mapGet_In {V} (k : string) (m : list (string * V)) :
  is_Some (mapGet k m) <-> In k (map fst m).
Proof.
  induction m as [| [k' v'] m IH]; simpl.
  - split; [intros [? ?]; discriminate | contradiction].
  - destruct (String.eqb_spec k' k) as [-> | Hne].
    + split; [auto | eauto].
    + rewrite IH. split; [auto | intros [? | ?]; [contradiction | auto]].
Qed.

Lemma mapSum_mapSet (k : string) (v : Z) (m : list (string * Z)) :
  mapSum (mapSet k v m) = mapSum m - default 0 (mapGet k m) + v.
Proof.
  unfold mapSum. induction m as [| [k' v'] m IH]; simpl; [lia |].
  destruct (String.eqb k' k); simpl; [lia | rewrite IH; lia].
Qed.

Lemma mapSum_mapAdd (k : string) (x : Z) (m : list (string * Z)) :
  mapSum (mapAdd k x m) = mapSum m + x.
Proof. unfold mapAdd. rewrite mapSum_mapSet. lia. Qed.

Lemma mapAdd_keys (k : string) (x : Z) (m : list (string * Z)) (j : string) :
  In j (map fst (mapAdd k x m)) -> j = k \/ In j (map fst m).
Proof.
  unfold mapAdd. generalize (default 0 (mapGet k m) + x). intros v.
  induction m as [| [k' v'] m IH]; simpl.
  - intros [<- | []]. now left.
  - destruct (String.eqb_spec k' k) as [-> | Hne]; simpl.
    + intros [<- | H]; auto.
    + intros [<- | H]; [auto |]. destruct (IH H); auto.
Qed.

Lemma shares_sum (ws : list string) (share : Z) (m : list (string * Z)) :
  mapSum (fold_left (fun m wid => mapAdd wid share m) ws m)
  = mapSum m + share * Z.of_nat (length ws).
Proof.
  revert m. induction ws as [| w ws IH]; intros m; [simpl; lia |].
  cbn [fold_left length]. rewrite IH, mapSum_mapAdd. lia.
Qed.

Lemma shares_keys (ws : list string) (share : Z) (m : list (string * Z))
    (j : string) :
  In j (map fst (fold_left (fun m wid => mapAdd wid share m) ws m)) ->
  In j ws \/ In j (map fst m).
Proof.
  revert m. induction ws as [| w ws IH]; intros m; [auto |].
  cbn [fold_left]. intros H. destruct (IH _ H) as [? | H'].
  - left. now right.
  - destruct (mapAdd_keys _ _ _ _ H'); [left; now left | auto].
Qed.

Section ShowdownPays.

Variable strength : list Card -> nat.

(** Some hand of a non-empty list is a best hand. *)
Lemma best_hand_exists (hands : list (list Card)) :
  hands <> [] -> exists h, In h hands /\ handWins strength hands h = true.
Proof.
  unfold handWins, bestStrength.
  induction hands as [| h hands IH]; [contradiction |]. intros _.
  destruct hands as [| h' hands].
  - exists h. split; [now left |]. simpl. rewrite Nat.max_0_r.
    apply Nat.eqb_refl.
  - destruct (IH ltac:(discriminate)) as (b & Hb & Hbest).
    apply Nat.eqb_eq in Hbest.
    cbn [map fold_right] in *.
    destruct (le_lt_dec (strength h) (strength b)) as [Hle | Hlt].
    + exists b. split; [now right |]. apply Nat.eqb_eq. lia.
    + exists h. split; [now left |]. apply Nat.eqb_eq. lia.
Qed.

(** Every player still in the hand has a solved hand. *)
Lemma solveHands_keys room p :
  In p (players room) -> folded p = false ->
  is_Some (mapGet (pid p) (solveHands room)).
Proof.
  unfold solveHands. generalize (@nil (string * list Card)).
  induction (players room) as [| q ps IH]; intros m Hin Hf; [contradiction |].
  cbn [fold_left]. destruct Hin as [-> | Hin].
  - rewrite Hf.
    assert (Hkeep : forall l m',
      is_Some (mapGet (pid p) m') ->
      is_Some (mapGet (pid p)
        (fold_left (fun m p0 => if folded p0 then m
                                else mapSet (pid p0) (community room ++ hole p0) m)
                   l m'))).
    { induction l as [| x l IHl]; intros m' H; [exact H |].
      cbn [fold_left]. apply IHl. destruct (folded x); [exact H |].
      now apply mapGet_mapSet_keeps. }
    apply Hkeep. rewrite mapGet_mapSet_same. eauto.
  - now apply IH.
Qed.

(** The eligible players of a side pot are players that have not folded. *)
Lemma potsFrom_eligible contrib prev levels pot i :
  In pot (potsFrom contrib prev levels) -> In i (eligible pot) ->
  exists p, In p contrib /\ pid p = i /\ folded p = false.
Proof.
  revert prev. induction levels as [| L levels IH]; intros prev; simpl;
    [contradiction |].
  intros [<- | Hin]; [| eauto]. cbn [eligible].
  rewrite in_map_iff. intros (p & <- & Hp).
  apply filter_In in Hp as [Hp Hf]. apply filter_In in Hp as [Hp _].
  exists p. repeat split; [exact Hp |]. now apply negb_true_iff.
Qed.

Lemma buildSidePots_eligible ps pot i :
  In pot (buildSidePots ps) -> In i (eligible pot) ->
  exists p, In p ps /\ pid p = i /\ folded p = false.
Proof.
  unfold buildSidePots. destruct (_ =? _)%nat; [contradiction |].
  intros Hpot Hi. destruct (potsFrom_eligible _ _ _ _ _ Hpot Hi)
    as (p & Hp & ? & ?).
  apply filter_In in Hp as [Hp _]. eauto.
Qed.

Lemma filter_all {A} (f : A -> bool) (l : list A) :
  (forall x, In x l -> f x = true) -> List.filter f l = l.
Proof.
  induction l as [| x l IH]; intros H; simpl; [reflexivity |].
  rewrite (H x) by now left. f_equal. apply IH. intros y Hy. apply H. now right.
Qed.

(** Settling a pot moves its amount into the payouts when somebody is
    eligible, and nothing otherwise. *)
Lemma settlePot_sum room solved t pot :
  (forall i, In i (eligible pot) -> is_Some (mapGet i solved)) ->
  mapSum (payouts (settlePot strength room solved t pot))
  = mapSum (payouts t) + (if contested pot then amount pot else 0)
  /\ forall j, In j (map fst (payouts (settlePot strength room solved t pot))) ->
               In j (eligible pot) \/ In j (map fst (payouts t)).
Proof.
  intros Hsolved. unfold settlePot, contested.
  rewrite (filter_all _ (eligible pot)).
  2:{ intros i Hi. apply bool_decide_eq_true, Hsolved, Hi. }
  destruct (eligible pot) as [| i0 others] eqn:Helig.
  { simpl. split; [lia | auto]. }
  rewrite <- Helig. replace (length (eligible pot) =? 0)%nat with false
    by (rewrite Helig; reflexivity).
  set (entries := map (fun i => (i, default [] (mapGet i solved))) (eligible pot)).
  set (hands := map snd entries).
  set (potWinners := map fst (List.filter (fun e => handWins strength hands e.2) entries)).
  assert (Hsub : forall j, In j potWinners -> In j (eligible pot)).
  { unfold potWinners. intros j Hj. apply in_map_iff in Hj as ([j' h] & <- & Hj).
    apply filter_In in Hj as [Hj _]. unfold entries in Hj.
    apply in_map_iff in Hj as (i & [= <- <-] & Hi). exact Hi. }
  assert (Hne : potWinners <> []).
  { destruct (best_hand_exists hands) as (h & Hh & Hbest).
    - unfold hands, entries. rewrite Helig. discriminate.
    - unfold hands in Hh. apply in_map_iff in Hh as (e & <- & He).
      intros E. assert (Hin : In e.1 potWinners).
      { unfold potWinners. apply in_map, filter_In. auto. }
      rewrite E in Hin. contradiction. }
  set (n := Z.of_nat (length potWinners)).
  assert (Hn : 0 < n).
  { unfold n. destruct potWinners; [contradiction | simpl; lia]. }
  set (share := amount pot / n).
  set (paid := fold_left (fun m wid => mapAdd wid share m) potWinners (payouts t)).
  assert (Hpaid : mapSum paid = mapSum (payouts t) + share * n)
    by apply shares_sum.
  assert (Hrem : 0 <= amount pot - share * n).
  { unfold share. pose proof (Z.mul_div_le (amount pot) n Hn). lia. }
  cbn [payouts]. destruct potWinners as [| w0 ws] eqn:Hw; [contradiction |].
  split.
  - clearbody paid share n.
    destruct (Z.ltb_spec 0 (amount pot - share * n)).
    + rewrite mapSum_mapAdd, Hpaid. lia.
    + rewrite Hpaid. lia.
  - intros j Hj.
    assert (Hj' : In j (w0 :: ws) \/ In j (map fst (payouts t))).
    { destruct (0 <? amount pot - share * n).
      - apply mapAdd_keys in Hj as [-> | Hj].
        + left. now left.
        + now apply shares_keys in Hj.
      - now apply shares_keys in Hj. }
    destruct Hj' as [Hj' | Hj']; [left; now apply Hsub | now right].
Qed.

Lemma settlePots_sum room solved pots t :
  (forall pot i, In pot pots -> In i (eligible pot) ->
                 is_Some (mapGet i solved)) ->
  mapSum (payouts (fold_left (settlePot strength room solved) pots t))
  = mapSum (payouts t) + sumZ (map amount (List.filter contested pots))
  /\ forall j,
       In j (map fst (payouts (fold_left (settlePot strength room solved) pots t))) ->
       (exists pot, In pot pots /\ In j (eligible pot))
       \/ In j (map fst (payouts t)).
Proof.
  revert t. induction pots as [| pot pots IH]; intros t Hsolved.
  - simpl. split; [lia | auto].
  - cbn [fold_left List.filter].
    destruct (settlePot_sum room solved t pot) as [Hs Hk].
    { intros i Hi. apply (Hsolved pot); [now left | exact Hi]. }
    destruct (IH (settlePot strength room solved t pot)) as [Hs' Hk'].
    { intros pot' i Hp. apply Hsolved. now right. }
    split.
    + rewrite Hs', Hs. destruct (contested pot); simpl; lia.
    + intros j Hj. destruct (Hk' j Hj) as [(pot' & Hp & Hi) | Hj'].
      * left. exists pot'. split; [now right | exact Hi].
      * destruct (Hk j Hj') as [Hi | Hold]; [| now right].
        left. exists pot. split; [now left | exact Hi].
Qed.

Lemma findIndex_In {A} (f : A -> bool) (l : list A) (x : A) :
  In x l -> f x = true -> exists i y, findIndex f l = Some i /\ l !! i = Some y.
Proof.
  induction l as [| a l IH]; simpl; [contradiction |]. intros Hin Hf.
  destruct (f a) eqn:E; [exists O, a; auto |].
  destruct Hin as [-> | Hin]; [congruence |].
  destruct (IH Hin Hf) as (i & y & -> & Hy). exists (S i), y. auto.
Qed.

(** A payout goes to a player of the room. *)
Lemma applyPayout_total room k v :
  In k (map pid (players room)) ->
  totalStacks (applyPayout room (k, v)) = totalStacks room + v
  /\ map pid (players (applyPayout room (k, v))) = map pid (players room).
Proof.
  intros Hk. apply in_map_iff in Hk as (p & Hp & Hin).
  unfold applyPayout, findById. cbn [fst snd].
  destruct (findIndex_In (fun x => String.eqb (pid x) k) _ p Hin)
    as (i & y & -> & Hy); [rewrite Hp; apply String.eqb_refl |].
  unfold totalStacks. rsimpl. split.
  - rewrite (sumZ_alter _ _ _ _ _ Hy). simpl. lia.
  - now apply map_alter_same.
Qed.

Lemma applyPayouts_total l room :
  (forall k, In k (map fst l) -> In k (map pid (players room))) ->
  totalStacks (fold_left applyPayout l room) = totalStacks room + mapSum l.
Proof.
  revert room. induction l as [| [k v] l IH]; intros room Hk.
  - unfold mapSum. simpl. lia.
  - cbn [fold_left]. destruct (applyPayout_total room k v) as [Ht Hp].
    { apply Hk. now left. }
    rewrite IH.
    + rewrite Ht. unfold mapSum. simpl. lia.
    + intros k' Hk'. rewrite Hp. apply Hk. now right.
Qed.

Lemma resolveShowdown_total (room : Room) :
  totalStacks (resolveShowdown strength room)
  = totalStacks room + sumZ (map amount (contestedPots (players room))).
Proof.
  unfold resolveShowdown, contestedPots.
  set (pots := buildSidePots (players room)).
  set (t := fold_left _ pots _).
  destruct (settlePots_sum room (solveHands room) pots (mkTally [] [] None))
    as [Hsum Hkeys].
  { intros pot i Hpot Hi.
    destruct (buildSidePots_eligible _ _ _ Hpot Hi) as (p & Hp & <- & Hf).
    now apply solveHands_keys. }
  fold t in Hsum, Hkeys.
  set (r1 := fold_left applyPayout (payouts t) room).
  assert (H1 : totalStacks r1 = totalStacks room + mapSum (payouts t)).
  { apply applyPayouts_total. intros k Hk.
    destruct (Hkeys k Hk) as [(pot & Hpot & Hi) | []].
    destruct (buildSidePots_eligible _ _ _ Hpot Hi) as (p & Hp & <- & _).
    now apply in_map. }
  set (r2 := fold_left _ (players r1) r1).
  destruct (shows_frame (players r1) r1) as [H2 _]. fold r2 in H2.
  destruct (notes_frame (notes t) r2) as [H3 _].
  assert (H4 : totalStacks (fold_left addLog (notes t) r2) = totalStacks r1).
  { unfold totalStacks. now rewrite H3, H2. }
  replace (totalStacks _) with (totalStacks (fold_left addLog (notes t) r2)).
  - rewrite H4, H1, Hsum. unfold mapSum. simpl. lia.
  - now destruct (firstWin t).
Qed.

(** X5: [resolveShowdown] raises the total of the stacks by exactly the
    amounts of the side pots that have an eligible player, whoever wins
    them (odd chips included); a pot all of whose contributors have folded
    is paid to nobody. *)
Theorem resolveShowdown_pays (room : Room) :
  totalStacks (resolveShowdown strength room)
  = totalStacks room + sumZ (map amount (contestedPots (players room))).
Proof. apply resolveShowdown_total. Qed.

End ShowdownPays.

(** ** Bookkeeping: what the engine keeps *)

Lemma keeps_refl room : keeps room room.
Proof. unfold keeps. split_and!; auto. Qed.

Lemma keeps_trans r1 r2 r3 : keeps r1 r2 -> keeps r2 r3 -> keeps r1 r3.
Proof.
  intros (? & ? & ? & ? & ? & ? & ?) (? & ? & ? & ? & ? & ? & ?).
  unfold keeps. split_and!; try congruence; auto.
Qed.

(** Changes outside the players, the host, the blinds, the pot and the
    log. *)
Lemma keeps_same room room' :
  players room' = players room -> hostId room' = hostId room ->
  smallBlind room' = smallBlind room -> bigBlind room' = bigBlind room ->
  pot room' = pot room -> log room' = log room -> keeps room room'.
Proof.
  intros Hp Hh Hs Hb Hpot Hl. unfold keeps, committedTotal, chipsOk, logOk.
  rewrite Hp, Hh, Hs, Hb, Hpot, Hl. split_and!; auto.
Qed.

Lemma addLog_length room msg :
  logOk room -> logOk (addLog room msg).
Proof.
  unfold logOk, addLog. rsimpl. intros H.
  destruct (Nat.ltb_spec 200 (length (log room ++ [msg]))) as [Hlt | Hge].
  - rewrite length_app in Hlt. simpl in Hlt.
    destruct (log room ++ [msg]) eqn:E.
    + simpl. lia.
    + apply (f_equal (@length _)) in E. rewrite length_app in E.
      simpl in *. lia.
  - exact Hge.
Qed.

Lemma addLog_keeps room msg : keeps room (addLog room msg).
Proof.
  unfold keeps, committedTotal, chipsOk. split_and!; auto.
  apply addLog_length.
Qed.

(** An update of one player that leaves id, stack and commitment alone. *)
Lemma updPlayer_keeps room i f :
  (forall x, pid (f x) = pid x /\ stack (f x) = stack x
             /\ committed (f x) = committed x) ->
  keeps room (updPlayer room i f).
Proof.
  intros Hf. unfold keeps, committedTotal, chipsOk, logOk. rsimpl.
  rewrite !map_alter_same by apply Hf. split_and!; auto.
  intros [H Hpot]. split; [| exact Hpot].
  apply Forall_alter_same; [| exact H].
  intros x Hx. destruct (Hf x) as (_ & -> & ->). exact Hx.
Qed.

(** The same, for an update of every player. *)
Lemma mapPlayers_keeps room f :
  (forall x, pid (f x) = pid x /\ stack (f x) = stack x
             /\ committed (f x) = committed x) ->
  keeps room (set_players (map f (players room)) room).
Proof.
  intros Hf. unfold keeps, committedTotal, chipsOk, logOk. rsimpl.
  rewrite !map_map.
  rewrite (map_ext (fun x => pid (f x)) pid) by apply Hf.
  rewrite (map_ext (fun x => committed (f x)) committed) by apply Hf.
  split_and!; auto.
  intros [H Hpot]. split; [| exact Hpot].
  rewrite List.Forall_forall in *.
  intros y Hy. apply in_map_iff in Hy as (x & <- & Hx).
  destruct (Hf x) as (_ & -> & ->). auto.
Qed.

Lemma payChips_committed pay p :
  committed (payChips pay p) = committed p + pay.
Proof. unfold payChips. simpl. now destruct (_ =? _). Qed.

Lemma commitChips_keeps room i w room' pay :
  commitChips room i w = Some (room', pay) -> keeps room room'.
Proof.
  intros H. apply commitChips_inv in H as (p & Hp & Hpay & ->).
  unfold keeps, committedTotal, chipsOk, logOk. rsimpl.
  rewrite (map_alter_same pid) by apply payChips_pid.
  rewrite (sumZ_alter _ _ _ _ _ Hp), payChips_committed.
  split_and!; auto; try lia.
  intros [H Hpot]. split; [| lia].
  apply Forall_alter; [exact H |].
  intros x Hx [Hs Hc]. rewrite Hp in Hx. injection Hx as <-.
  rewrite payChips_stack, payChips_committed. lia.
Qed.

Lemma resetOthers_keeps room p : keeps room (resetOthers room p).
Proof.
  unfold resetOthers. apply mapPlayers_keeps. intros x.
  destruct (String.eqb _ _); [auto |]. destruct (_ || _); auto.
Qed.

Lemma raiseTo_keeps room p total prevBet :
  keeps room (raiseTo room p total prevBet).
Proof.
  unfold raiseTo. destruct (_ <? _); [| apply keeps_refl].
  eapply keeps_trans; [| apply resetOthers_keeps].
  destruct (_ <=? _); now apply keeps_same.
Qed.

Lemma actFold_keeps room i p : keeps room (actFold room i p).
Proof.
  unfold actFold. eapply keeps_trans; [| apply addLog_keeps].
  apply updPlayer_keeps. auto.
Qed.

Lemma actCheck_keeps room i p : keeps room (actCheck room i p).
Proof.
  unfold actCheck. eapply keeps_trans; [| apply addLog_keeps].
  apply updPlayer_keeps. auto.
Qed.

Lemma actCall_keeps room i p c room' :
  actCall room i p c = Some room' -> keeps room room'.
Proof.
  unfold actCall. destruct (c =? 0).
  - intros [= <-]. apply actCheck_keeps.
  - destruct (commitChips room i c) as [[r1 paid] |] eqn:Hc; [| discriminate].
    simpl. destruct (players r1 !! i) as [p' |]; [| discriminate]. simpl.
    intros [= <-].
    eapply keeps_trans; [eapply commitChips_keeps, Hc |].
    eapply keeps_trans; [| apply addLog_keeps].
    apply updPlayer_keeps. auto.
Qed.

Lemma actAllIn_keeps room i p room' :
  actAllIn room i p = Some (Some room') -> keeps room room'.
Proof.
  unfold actAllIn. destruct (_ <=? 0); [discriminate |].
  destruct (_ <=? 0); [discriminate |].
  destruct (commitChips room i _) as [[r1 paid] |] eqn:Hc; [| discriminate].
  simpl. intros [= <-].
  eapply keeps_trans; [eapply commitChips_keeps, Hc |].
  eapply keeps_trans; [apply raiseTo_keeps |].
  eapply keeps_trans; [| apply addLog_keeps].
  apply updPlayer_keeps. auto.
Qed.

Lemma actBetRaise_keeps room i p isRaise amt room' :
  actBetRaise room i p isRaise amt = Some (Some room') -> keeps room room'.
Proof.
  unfold actBetRaise. destruct (_ <=? 0); [discriminate |].
  destruct (_ && _); [discriminate |].
  destruct (_ <=? 0); [discriminate |].
  destruct (commitChips room i _) as [[r1 paid] |] eqn:Hc; [| discriminate].
  simpl. destruct (players _ !! i) as [p' |]; [| discriminate]. simpl.
  intros [= <-].
  eapply keeps_trans; [eapply commitChips_keeps, Hc |].
  eapply keeps_trans; [apply raiseTo_keeps |].
  eapply keeps_trans; [| apply addLog_keeps].
  apply updPlayer_keeps. auto.
Qed.

Lemma applyAction_keeps room i p word amt room' :
  applyAction room i p word amt = Some (Some room') -> keeps room room'.
Proof.
  unfold applyAction.
  destruct (String.eqb word "fold"); [intros [= <-]; apply actFold_keeps |].
  destruct (String.eqb word "check").
  { destruct (negb _); [discriminate |]. intros [= <-]. apply actCheck_keeps. }
  destruct (String.eqb word "call").
  { destruct (actCall _ _ _ _) as [r |] eqn:E; [| discriminate].
    simpl. intros [= <-]. eapply actCall_keeps, E. }
  destruct (String.eqb word "all-in"); [apply actAllIn_keeps |].
  destruct (String.eqb word "bet"); [apply actBetRaise_keeps |].
  destruct (String.eqb word "raise"); [apply actBetRaise_keeps |].
  discriminate.
Qed.

Lemma startBettingRound_keeps room : keeps room (startBettingRound room).
Proof.
  unfold startBettingRound.
  eapply keeps_trans; [| apply addLog_keeps].
  eapply keeps_trans; [| now apply keeps_same].
  eapply keeps_trans; [| apply mapPlayers_keeps].
  - now apply keeps_same.
  - intros x. destruct (canAct x); auto.
Qed.

Lemma advanceStage_keeps room : keeps room (advanceStage room).1.
Proof.
  unfold advanceStage. destruct (stage room); cbn [pop fst].
  1-3: eapply keeps_trans; [| apply startBettingRound_keeps];
       eapply keeps_trans; [| apply addLog_keeps]; now apply keeps_same.
  eapply keeps_trans; [| apply addLog_keeps]. now apply keeps_same.
Qed.

Lemma runOutStreet_keeps room : keeps room (runOutStreet room).
Proof.
  unfold runOutStreet. destruct (stage room); cbn [pop].
  1-3: eapply keeps_trans; [| now apply keeps_same];
       eapply keeps_trans; [| apply addLog_keeps]; now apply keeps_same.
  eapply keeps_trans; [| apply addLog_keeps]. now apply keeps_same.
Qed.

Lemma runOut_keeps n room : keeps room (runOut n room).
Proof.
  revert room. induction n as [| n IH]; intros room; [apply keeps_refl |].
  cbn [runOut]. destruct (bool_decide _); [| apply keeps_refl].
  destruct (stillCanAct room); [apply keeps_refl |].
  destruct (bool_decide _); [apply runOutStreet_keeps |].
  eapply keeps_trans; [apply runOutStreet_keeps | apply IH].
Qed.

Lemma awardPotTo_keeps room i room' armed :
  awardPotTo room i = Some (room', armed) -> keeps room room'.
Proof.
  unfold awardPotTo. destruct (players room !! i) as [p |] eqn:Hp;
    [| discriminate].
  simpl. intros [= <- <-].
  unfold keeps, committedTotal, chipsOk, logOk. rsimpl.
  rewrite !map_alter_same by reflexivity. split_and!; auto.
  - intros [H Hpot]. split; [| exact Hpot].
    apply Forall_alter_same; [| exact H]. intros x [Hs Hc]. simpl. lia.
  - apply (addLog_length (updPlayer room i (fun p0 => set_stack (stack p0 + pot room) p0))).
Qed.

Lemma moveToNextActor_keeps room : keeps room (moveToNextActor room).
Proof. now apply keeps_same. Qed.

Lemma afterAction_keeps room room' armed :
  afterAction room = Some (room', armed) -> keeps room room'.
Proof.
  unfold afterAction. destruct (loneSurvivor room) as [s |];
    [apply awardPotTo_keeps |].
  destruct (shouldEndBettingRound room).
  - destruct (bool_decide (state (runOut 4 room) = Hand)).
    + pose proof (advanceStage_keeps (runOut 4 room)) as Hadv.
      destruct (advanceStage (runOut 4 room)) as [r2 ts]. cbn [fst] in Hadv.
      intros H.
      assert (room' = r2) by (destruct (bool_decide _); now injection H).
      subst. eapply keeps_trans; [apply runOut_keeps | exact Hadv].
    + intros H.
      assert (room' = runOut 4 room) by (destruct (bool_decide _); now injection H).
      subst. apply runOut_keeps.
  - intros [= <- <-]. apply moveToNextActor_keeps.
Qed.

(** The handler leaves a room alone unless a hand is being played. *)
Lemma handlePlayerAction_keeps room i action amt room' armed :
  handlePlayerAction room i action amt = Some (room', armed) ->
  room' = room \/ (state room = Hand /\ keeps room room').
Proof.
  unfold handlePlayerAction.
  destruct (players room !! i) as [p |]; [| intros [= <- <-]; now left].
  destruct (bool_decide_reflect (state room = Hand)) as [Hst | Hst];
    cbn [negb]; [| intros [= <- <-]; now left].
  destruct (currentSeat room) as [cs |]; [| intros [= <- <-]; now left].
  destruct (negb _); [intros [= <- <-]; now left |].
  destruct (_ || _); [intros [= <- <-]; now left |].
  destruct (actionWord action) as [word |]; [| discriminate]. simpl.
  destruct (applyAction room i p word amt) as [[r1 |] |] eqn:Happ;
    [| intros [= <- <-]; now left | discriminate].
  simpl. intros H. right. split; [exact Hst |].
  eapply keeps_trans; [eapply applyAction_keeps, Happ |].
  eapply afterAction_keeps, H.
Qed.

(** ** Side pots are never empty of chips *)

Lemma potsFrom_positive contrib prev levels pot :
  StronglySorted Z.lt (prev :: levels) ->
  (forall L, In L levels -> exists p, In p contrib /\ committed p = L) ->
  In pot (potsFrom contrib prev levels) -> 0 < amount pot.
Proof.
  revert prev. induction levels as [| L levels IH]; intros prev Hs Hex;
    simpl; [contradiction |].
  inversion Hs as [| ? ? Hs' Hall]; subst.
  assert (HpL : prev < L) by (inversion Hall; assumption).
  intros [<- | Hin].
  - cbn [amount]. destruct (Hex L (or_introl eq_refl)) as (p & Hp & Hc).
    assert (Hcount : In p (List.filter (fun q => L <=? committed q) contrib)).
    { apply filter_In. split; [exact Hp | apply Z.leb_le; lia]. }
    destruct (List.filter _ contrib); [contradiction |]. simpl length. nia.
  - apply (IH L); [exact Hs' | | exact Hin].
    intros L' HL'. apply Hex. now right.
Qed.

Lemma buildSidePots_amount_pos ps pot :
  In pot (buildSidePots ps) -> 0 < amount pot.
Proof.
  unfold buildSidePots. destruct (_ =? _)%nat; [contradiction |].
  destruct (levels_levelsOf ps) as [Hsort Hlev].
  apply potsFrom_positive.
  - constructor; [exact Hsort |]. apply List.Forall_forall.
    intros x Hx. now apply Hlev in Hx.
  - intros L HL. apply Hlev in HL as (Hpos & p & Hp & Hc).
    exists p. split; [| exact Hc]. apply filter_In. split; [exact Hp |].
    apply Z.ltb_lt. lia.
Qed.

(** ** The showdown keeps the books *)

Lemma mapAdd_nonneg (k : string) (x : Z) (m : list (string * Z)) :
  0 <= x -> Forall (fun e => 0 <= e.2) m ->
  Forall (fun e => 0 <= e.2) (mapAdd k x m).
Proof.
  intros Hx Hm. unfold mapAdd.
  assert (Hv : 0 <= default 0 (mapGet k m) + x).
  { assert (0 <= default 0 (mapGet k m)); [| lia].
    clear -Hm. induction Hm as [| [k' v'] m Hv _ IH]; simpl; [lia |].
    destruct (String.eqb k' k); [exact Hv | exact IH]. }
  revert Hv. generalize (default 0 (mapGet k m) + x). intros v Hv.
  induction Hm as [| [k' v'] m Hv' Hm IH]; simpl.
  - constructor; [exact Hv | constructor].
  - destruct (String.eqb k' k); constructor; auto.
Qed.

Lemma shares_nonneg (ws : list string) (share : Z) (m : list (string * Z)) :
  0 <= share -> Forall (fun e => 0 <= e.2) m ->
  Forall (fun e => 0 <= e.2)
         (fold_left (fun m wid => mapAdd wid share m) ws m).
Proof.
  intros Hs. revert m. induction ws as [| w ws IH]; intros m Hm; [exact Hm |].
  cbn [fold_left]. apply IH. now apply mapAdd_nonneg.
Qed.

Lemma settlePot_nonneg strength room solved t pot :
  0 <= amount pot -> Forall (fun e => 0 <= e.2) (payouts t) ->
  Forall (fun e => 0 <= e.2) (payouts (settlePot strength room solved t pot)).
Proof.
  intros Hpot Ht. unfold settlePot.
  destruct (_ =? _)%nat; [exact Ht |]. cbn [payouts].
  match goal with
  | |- context [fold_left _ ?ws _] => set (potWinners := ws)
  end.
  assert (Hshare : 0 <= amount pot / Z.of_nat (length potWinners)).
  { apply Z_div_nonneg_nonneg; lia. }
  pose proof (shares_nonneg potWinners _ _ Hshare Ht) as Hpaid.
  destruct potWinners as [| w0 ws]; [exact Hpaid |].
  destruct (Z.ltb_spec 0 (amount pot
              - amount pot / Z.of_nat (length (w0 :: ws))
                * Z.of_nat (length (w0 :: ws)))); [| exact Hpaid].
  apply mapAdd_nonneg; [lia | exact Hpaid].
Qed.

Lemma settlePots_nonneg strength room solved pots t :
  Forall (fun pot => 0 <= amount pot) pots ->
  Forall (fun e => 0 <= e.2) (payouts t) ->
  Forall (fun e => 0 <= e.2)
         (payouts (fold_left (settlePot strength room solved) pots t)).
Proof.
  intros Hpots. revert t. induction Hpots as [| pot pots Hpot _ IH];
    intros t Ht; [exact Ht |].
  cbn [fold_left]. apply IH. now apply settlePot_nonneg.
Qed.

Lemma applyPayout_keeps room k v :
  0 <= v -> keeps room (applyPayout room (k, v)).
Proof.
  intros Hv. unfold applyPayout. cbn [fst snd].
  destruct (findById room k) as [i |]; [| apply keeps_refl].
  unfold keeps, committedTotal, chipsOk, logOk. rsimpl.
  rewrite !map_alter_same by reflexivity. split_and!; auto.
  intros [H Hpot]. split; [| exact Hpot].
  apply Forall_alter_same; [| exact H]. intros x [Hs Hc]. simpl. lia.
Qed.

Lemma applyPayouts_keeps l room :
  Forall (fun e => 0 <= e.2) l -> keeps room (fold_left applyPayout l room).
Proof.
  intros Hl. revert room. induction Hl as [| [k v] l Hv _ IH]; intros room;
    [apply keeps_refl |].
  cbn [fold_left]. eapply keeps_trans; [apply applyPayout_keeps, Hv | apply IH].
Qed.

Lemma shows_keeps (l : list Player) room :
  keeps room
    (fold_left (fun r p => if folded p then r
                           else addLog r (MsgShows (name p) (hole p)))
               l room).
Proof.
  revert room. induction l as [| p l IH]; intros room; [apply keeps_refl |].
  cbn [fold_left]. destruct (folded p); [apply IH |].
  eapply keeps_trans; [apply addLog_keeps | apply IH].
Qed.

Lemma notes_keeps (l : list LogMsg) room :
  keeps room (fold_left addLog l room).
Proof.
  revert room. induction l as [| m l IH]; intros room; [apply keeps_refl |].
  cbn [fold_left]. eapply keeps_trans; [apply addLog_keeps | apply IH].
Qed.

Lemma resolveShowdown_keeps strength room :
  keeps room (resolveShowdown strength room).
Proof.
  unfold resolveShowdown.
  set (t := fold_left _ (buildSidePots _) _).
  assert (Ht : Forall (fun e => 0 <= e.2) (payouts t)).
  { apply settlePots_nonneg; [| constructor].
    apply List.Forall_forall. intros pot Hpot.
    apply buildSidePots_amount_pos in Hpot. lia. }
  eapply keeps_trans; [apply (applyPayouts_keeps _ _ Ht) |].
  eapply keeps_trans; [apply shows_keeps |].
  eapply keeps_trans; [apply notes_keeps |].
  destruct (firstWin t); [now apply keeps_same | apply keeps_refl].
Qed.

(** ** Starting a hand keeps the books *)

Lemma dealOne_keeps room s : keeps room (dealOne room s).
Proof.
  unfold dealOne. destruct (findBySeat room s) as [i |]; [| apply keeps_refl].
  destruct (players room !! i) as [p |]; [| apply keeps_refl].
  destruct (0 <=? stack p); [| apply keeps_refl]. cbn [pop].
  eapply keeps_trans; [| now apply keeps_same].
  apply updPlayer_keeps. auto.
Qed.

Lemma dealPass_keeps n room s : keeps room (dealPass n room s).1.
Proof.
  revert room s. induction n as [| n IH]; intros room s; [apply keeps_refl |].
  cbn [dealPass]. eapply keeps_trans; [apply dealOne_keeps | apply IH].
Qed.

Lemma dealHoleCards_keeps room : keeps room (dealHoleCards room).
Proof.
  unfold dealHoleCards. destruct (_ <? 2)%nat; [apply keeps_refl |].
  pose proof (dealPass_keeps (length (activeSeats room)) room
                (nextActiveSeat room (dealerSeat room) dealOpts)) as H1.
  destruct (dealPass _ room _) as [r1 s1]. cbn [fst] in H1.
  pose proof (dealPass_keeps (length (activeSeats room)) r1 s1) as H2.
  destruct (dealPass _ r1 s1) as [r2 s2]. cbn [fst] in H2.
  eapply keeps_trans; eauto.
Qed.

Lemma postBlinds_keeps room room' blinds :
  postBlinds room = Some (room', blinds) -> keeps room room'.
Proof.
  unfold postBlinds.
  destruct (_ <? 2)%nat;
    [intros H; replace room' with room by congruence; apply keeps_refl |].
  set (sbSeat := if (_ =? 2)%nat then _ else _).
  set (bbSeat := nextActiveSeat room sbSeat dealOpts).
  destruct (findBySeat room sbSeat) as [sb |]; [| discriminate].
  destruct (findBySeat room bbSeat) as [bb |]; [| discriminate].
  cbn [mbind option_bind].
  destruct (commitChips room sb _) as [[r1 p1] |] eqn:H1; [| discriminate].
  cbn [mbind option_bind].
  destruct (commitChips r1 bb _) as [[r2 p2] |] eqn:H2; [| discriminate].
  cbn [mbind option_bind].
  destruct (players r2 !! sb) as [sbP |]; [| discriminate]. cbn [mbind option_bind].
  destruct (players r2 !! bb) as [bbP |]; [| discriminate]. cbn [mbind option_bind].
  intros [= <- _].
  eapply keeps_trans; [eapply commitChips_keeps, H1 |].
  eapply keeps_trans; [eapply commitChips_keeps, H2 |].
  eapply keeps_trans; [| apply addLog_keeps].
  eapply keeps_trans;
    [| apply (mapPlayers_keeps
                (set_lastAggressorSeat bbSeat
                   (set_minRaise (bigBlind r2)
                      (set_currentBet
                         (Z.max (betThisRound sbP) (betThisRound bbP)) r2))))].
  - now apply keeps_same.
  - intros x. destruct (canAct x); auto.
Qed.

Lemma Sound_keeps room room' :
  Sound room -> keeps room room' -> (inPlay room' -> inPlay room) ->
  Sound room'.
Proof.
  intros [Hc Hp Hb Hh Hl] (Kp & Kh & Ks & Kb & Kg & Kc & Kl) Hst.
  constructor; auto.
  - intros H. specialize (Hp (Hst H)). lia.
  - unfold blindsOk in *. lia.
  - unfold hostOk in *. now rewrite Kp, Kh.
Qed.

(** The same from a room whose pot is what its players committed. *)
Lemma Sound_keeps_even room room' :
  chipsOk room -> blindsOk room -> hostOk room -> logOk room ->
  pot room = committedTotal room -> keeps room room' -> Sound room'.
Proof.
  intros Hc Hb Hh Hl Hp (Kp & Kh & Ks & Kb & Kg & Kc & Kl).
  constructor; auto.
  - intros _. lia.
  - unfold blindsOk in *. lia.
  - unfold hostOk in *. now rewrite Kp, Kh.
Qed.

Lemma resetPlayers_chipsOk room room' (f : Player -> Player) :
  (forall p, stack (f p) = stack p /\ committed (f p) = 0) ->
  players room' = map f (players room) -> 0 <= pot room' ->
  chipsOk room -> chipsOk room'.
Proof.
  intros Hf Hp Hpot [H _]. split; [| exact Hpot]. rewrite Hp.
  rewrite List.Forall_forall in *. intros y Hy.
  apply in_map_iff in Hy as (x & <- & Hx). destruct (Hf x) as [-> ->].
  destruct (H x Hx). lia.
Qed.

Lemma committedTotal_reset (f : Player -> Player) (ps : list Player) :
  (forall p, committed (f p) = 0) -> sumZ (map committed (map f ps)) = 0.
Proof.
  intros Hf. induction ps as [| p ps IH]; simpl; [reflexivity |].
  rewrite Hf, IH. reflexivity.
Qed.

Lemma beginHand_sound rnd room room' :
  chipsOk room -> blindsOk room -> hostOk room -> logOk room ->
  beginHand rnd room = Some room' -> Sound room'.
Proof.
  intros Hc Hb Hh Hl. unfold beginHand.
  destruct (_ <? 2)%nat.
  { intros [= <-]. constructor; rsimpl; auto.
    - intros [? | ?]; discriminate.
    - now apply (addLog_length (set_state Lobby room)). }
  set (room_d := match dealerSeat room with
                 | None => _
                 | Some d => _
                 end).
  assert (Hd : players room_d = players room /\ hostId room_d = hostId room
               /\ smallBlind room_d = smallBlind room
               /\ bigBlind room_d = bigBlind room /\ log room_d = log room).
  { unfold room_d. destruct (dealerSeat room); [destruct (existsb _ _) |];
      repeat split. }
  destruct Hd as (Dp & Dh & Ds & Db & Dl).
  set (room_r := resetForNewHand rnd room_d).
  assert (Hr : Sound room_r /\ pot room_r = committedTotal room_r).
  { assert (Hpot : pot room_r = committedTotal room_r).
    { unfold committedTotal. cbn. symmetry. now apply committedTotal_reset. }
    split; [| exact Hpot]. constructor.
    - apply (resetPlayers_chipsOk room room_r resetPlayer); auto.
      + cbn. now rewrite Dp.
      + cbn. lia.
    - intros _. exact Hpot.
    - unfold blindsOk in *. cbn. now rewrite Ds, Db.
    - unfold hostOk in *. cbn. rewrite Dh, Dp, map_map. cbn.
      exact Hh.
    - unfold logOk in *. cbn. now rewrite Dl. }
  destruct Hr as [[Rc _ Rb Rh Rl] Rp].
  destruct (postBlinds room_r) as [[room_b blinds] |] eqn:Hpb; [| discriminate].
  cbn [mbind option_bind].
  destruct blinds as [[sbSeat bbSeat] |]; [| discriminate].
  cbn [mbind option_bind]. intros [= <-].
  apply (Sound_keeps_even room_r); auto.
  eapply keeps_trans; [eapply postBlinds_keeps, Hpb |].
  eapply keeps_trans; [apply dealHoleCards_keeps |].
  eapply keeps_trans; [| apply addLog_keeps]. now apply keeps_same.
Qed.

(** ** Every event keeps the books *)

Lemma Sound_steady room :
  Sound room -> chipsOk room /\ blindsOk room /\ hostOk room /\ logOk room.
Proof. intros []. auto. Qed.

Lemma createLobby_sound c sock nm : Sound (createLobby c sock nm).
Proof.
  constructor.
  - split; [| cbn; lia]. constructor; [| constructor]. cbn.
    unfold STARTING_STACK. lia.
  - intros [? | ?]; discriminate.
  - unfold blindsOk. cbn. lia.
  - unfold hostOk. cbn. now left.
  - unfold logOk. cbn. lia.
Qed.

(** A new player with the starting stack takes a seat. *)
Lemma seated_sound room pl msg :
  0 <= stack pl -> committed pl = 0 -> Sound room ->
  Sound (addLog (set_players (players room ++ [pl]) room) msg).
Proof.
  intros Hs Hc [[Hch Hpot] Hp Hb Hh Hl]. constructor.
  - split; [| exact Hpot]. rsimpl. apply Forall_app_2; [exact Hch |].
    constructor; [lia | constructor].
  - intros Hst. unfold committedTotal. rsimpl.
    rewrite map_app, sumZ_app. simpl. rewrite Hc.
    unfold committedTotal in Hp. rewrite (Hp Hst). lia.
  - exact Hb.
  - unfold hostOk in *. rsimpl. rewrite map_app. apply in_or_app. now left.
  - apply (addLog_length (set_players _ room)). exact Hl.
Qed.

Lemma joinLobby_sound room sock nm :
  Sound room -> Sound (joinLobby room sock nm).
Proof.
  intros Hs. unfold joinLobby.
  destruct (_ <=? _)%nat; [exact Hs |].
  destruct (negb _); [exact Hs |].
  destruct (assignSeat room) as [s |]; [| exact Hs].
  apply seated_sound; [cbn; unfold STARTING_STACK; lia | reflexivity | exact Hs].
Qed.

Lemma addBot_sound room sock botId botName :
  Sound room -> Sound (addBot room sock botId botName).
Proof.
  intros Hs. unfold addBot.
  destruct (negb _); [exact Hs |].
  destruct (assignSeat room) as [s |]; [| exact Hs].
  apply seated_sound; [cbn; unfold STARTING_STACK; lia | reflexivity | exact Hs].
Qed.

Lemma setBlinds_sound room sock sb bb :
  Sound room -> Sound (setBlinds room sock sb bb).
Proof.
  intros Hs. unfold setBlinds. destruct (negb _); [exact Hs |].
  destruct Hs as [Hc Hp Hb Hh Hl]. constructor; auto.
  - unfold blindsOk. rsimpl. lia.
  - apply (addLog_length (set_bigBlind _ (set_smallBlind _ room))). exact Hl.
Qed.

Lemma chat_sound room sock message :
  Sound room -> Sound (chat room sock message).
Proof.
  intros Hs. unfold chat.
  destruct (findById room sock); [| exact Hs].
  destruct (players room !! _) as [p |]; [| exact Hs].
  destruct (_ <=? _); [exact Hs |].
  destruct (String.eqb _ _); [exact Hs |].
  eapply Sound_keeps; [exact Hs | apply addLog_keeps | auto].
Qed.

Lemma startGame_sound rnd room sock room' :
  Sound room -> startGame rnd room sock = Some room' -> Sound room'.
Proof.
  intros Hs. unfold startGame.
  destruct (negb _); [now intros [= <-] |].
  destruct (_ && _); [now intros [= <-] |].
  destruct Hs as [Hc Hp Hb Hh Hl].
  apply beginHand_sound; auto. now apply addLog_length.
Qed.

Lemma handlePlayerAction_sound room i action amt room' armed :
  Sound room -> handlePlayerAction room i action amt = Some (room', armed) ->
  Sound room'.
Proof.
  intros Hs H. apply handlePlayerAction_keeps in H as [-> | [Hst Hk]];
    [exact Hs |].
  eapply Sound_keeps; [exact Hs | exact Hk |]. intros _. now left.
Qed.

Lemma playerAction_sound room sock action amt room' armed :
  Sound room -> playerAction room sock action amt = Some (room', armed) ->
  Sound room'.
Proof.
  intros Hs. unfold playerAction.
  destruct (findById room sock); [| now intros [= <- <-]].
  now apply handlePlayerAction_sound.
Qed.

Lemma botTurn_sound room r1 r2 room' armed :
  Sound room -> botTurn room r1 r2 = Some (room', armed) -> Sound room'.
Proof.
  intros Hs. unfold botTurn.
  destruct (findBySeat _ _); [| now intros [= <- <-]].
  destruct (players room !! _) as [b |]; [| now intros [= <- <-]].
  destruct (_ || _); [now intros [= <- <-] |].
  destruct (_ =? 0); [destruct (_ && _) |];
    [| | destruct (_ || _)]; now apply handlePlayerAction_sound.
Qed.

Lemma nextHandTimer_sound d rnd room room' :
  Sound room -> nextHandTimer d rnd room = Some room' -> Sound room'.
Proof.
  intros [Hc Hp Hb Hh Hl]. unfold nextHandTimer.
  set (r1 := set_players _ _).
  assert (H1 : chipsOk r1 /\ blindsOk r1 /\ hostOk r1 /\ logOk r1).
  { split_and!; auto.
    - eapply (resetPlayers_chipsOk room r1); [| reflexivity | apply Hc | exact Hc].
      intros p. now destruct d.
    - unfold hostOk in *. unfold r1. rsimpl. rewrite map_map.
      rewrite (map_ext _ pid); [exact Hh |]. intros p. now destruct d. }
  destruct H1 as (C1 & B1 & O1 & L1).
  destruct (_ <=? _)%nat.
  - apply beginHand_sound; auto.
  - intros [= <-]. constructor; auto.
    + intros [? | ?]; discriminate.
    + now apply addLog_length.
Qed.

Lemma showdownTimer_sound strength room :
  Sound room -> Sound (showdownTimer strength room).
Proof.
  intros Hs. unfold showdownTimer.
  eapply Sound_keeps; [exact Hs | |].
  - eapply keeps_trans; [apply (resolveShowdown_keeps strength) |].
    now apply keeps_same.
  - intros [? | ?]; discriminate.
Qed.

Lemma In_delete_other {A} (l : list A) (i : nat) (x y : A) :
  l !! i = Some y -> x <> y -> In x l -> In x (delete i l).
Proof.
  revert i. induction l as [| a l IH]; intros i Hi Hne Hin; [contradiction |].
  destruct i as [| i]; cbn in *.
  - injection Hi as ->. destruct Hin; [congruence | assumption].
  - destruct Hin as [-> | Hin]; [now left | right; eauto].
Qed.

Lemma disconnect_sound strength room sock idx p out armed :
  Sound room -> players room !! idx = Some p -> pid p = sock ->
  disconnect strength room sock idx p = Some (out, armed) ->
  forall room', out = Some room' -> Sound room'.
Proof.
  intros Hs Hidx Hpid. unfold disconnect.
  set (r0 := addLog (updPlayer room idx (set_connected false)) _).
  assert (K0 : keeps room r0).
  { eapply keeps_trans; [| apply addLog_keeps]. apply updPlayer_keeps. auto. }
  assert (H0 : Sound r0) by (eapply Sound_keeps; eauto).
  assert (Hidx0 : players r0 !! idx = Some (set_connected false p)).
  { unfold r0. rsimpl. rewrite list_lookup_alter, Hidx.
    now rewrite decide_True by reflexivity. }
  match goal with
  | |- context [mbind _ ?m] => destruct m as [[r1 ts] |] eqn:Hmid
  end; [| discriminate].
  cbn [mbind option_bind].
  assert (H1 : chipsOk r1 /\ (inPlay r1 -> pot r1 = committedTotal r1)
               /\ blindsOk r1 /\ logOk r1
               /\ (hostId r1 <> sock -> hostOk r1)).
  { destruct (bool_decide_reflect (state r0 = Lobby)) as [Hl | Hl].
    { injection Hmid as <- <-. destruct H0 as [[Hch Hpot] Hp Hb Hh Hlog].
      split_and!.
      - split; [| exact Hpot]. rsimpl. now apply Forall_delete.
      - intros [H | H]; rsimpl; congruence.
      - exact Hb.
      - apply (addLog_length (set_players _ r0)). exact Hlog.
      - rsimpl. intros Hne. unfold hostOk in *. rsimpl.
        change (map pid (delete idx (players r0)))
          with (pid <$> delete idx (players r0)).
        rewrite list_fmap_delete.
        apply In_delete_other with (y := pid (set_connected false p)).
        + change (alter (set_connected false) idx (players room))
            with (players r0).
          rewrite list_lookup_fmap, Hidx0. reflexivity.
        + intros E. apply Hne. rewrite E. exact Hpid.
        + exact Hh. }
    assert (Hfrom : forall r, keeps r0 r -> (inPlay r -> inPlay r0) ->
                chipsOk r /\ (inPlay r -> pot r = committedTotal r)
                /\ blindsOk r /\ logOk r /\ (hostId r <> sock -> hostOk r)).
    { intros r Hk Hst. destruct (Sound_keeps _ _ H0 Hk Hst). auto. }
    destruct (_ && _) eqn:Hact;
      [| injection Hmid as <- <-; apply Hfrom; [apply keeps_refl | auto]].
    apply andb_true_iff in Hact as [Hact _].
    apply andb_true_iff in Hact as [Hact _].
    apply andb_true_iff in Hact as [Hst _].
    apply bool_decide_eq_true in Hst.
    set (r2 := addLog (updPlayer r0 idx _) _) in Hmid.
    assert (K2 : keeps r0 r2).
    { eapply keeps_trans; [| apply addLog_keeps]. apply updPlayer_keeps. auto. }
    apply Hfrom; [| intros _; now left].
    eapply keeps_trans; [exact K2 |].
    destruct (loneSurvivor r2) as [s |]; [eapply awardPotTo_keeps; eauto |].
    destruct (shouldEndBettingRound r2).
    - pose proof (advanceStage_keeps r2) as Hadv.
      destruct (advanceStage r2) as [r3 ts3]. cbn [fst] in Hadv.
      destruct (bool_decide (state r3 = Reveal));
        [injection Hmid as <- <-; exact Hadv |].
      destruct (bool_decide (state r3 = Showdown));
        injection Hmid as <- <-; [| exact Hadv].
      eapply keeps_trans; [exact Hadv | apply resolveShowdown_keeps].
    - injection Hmid as <- <-. apply moveToNextActor_keeps. }
  destruct H1 as (C1 & P1 & B1 & L1 & O1).
  set (r4 := if String.eqb (hostId r1) sock then _ else r1).
  assert (H4 : players r4 = players r1 /\ (players r1 <> [] -> Sound r4)).
  { unfold r4. destruct (String.eqb_spec (hostId r1) sock) as [E | E].
    - destruct (players r1) as [| h ps] eqn:Hps; [split; [auto | congruence] |].
      split; [rsimpl; auto |]. intros _. constructor.
      + exact C1.
      + exact P1.
      + exact B1.
      + unfold hostOk. rsimpl. rewrite Hps. now left.
      + apply (addLog_length (set_hostId _ r1)). exact L1.
    - split; [reflexivity |]. intros _. constructor; auto. }
  destruct H4 as [Hp4 H4].
  destruct (Nat.eqb_spec (length (players r4)) 0) as [E | E];
    intros [= <- <-] room'; [discriminate |].
  intros [= <-]. apply H4. rewrite <- Hp4. intros E'. now rewrite E' in E.
Qed.

Section ServerSound.

Variable strength : list Card -> nat.

Lemma fire_sound w k rnd w' :
  WorldSound w -> fire strength w k rnd = Some w' -> WorldSound w'.
Proof.
  intros Hs. unfold fire.
  destruct (pending w !! k) as [t |]; [| now intros [= <-]].
  destruct (rooms w) as [room |] eqn:Hr;
    [| intros [= <-] r; discriminate].
  specialize (Hs room Hr).
  destruct t as [d | d].
  - intros [= <-] r [= <-]. now apply showdownTimer_sound.
  - destruct (nextHandTimer d rnd room) as [r1 |] eqn:Hn; [| discriminate].
    simpl. intros [= <-] r [= <-]. eapply nextHandTimer_sound; eauto.
Qed.

Lemma step_sound w e w' :
  WorldSound w -> step strength w e = Some w' -> WorldSound w'.
Proof.
  intros Hs. unfold step.
  destruct e as [c sock nm | sock nm | sock sb bb | sock rnd
                | sock botId botName | sock message | sock action amt
                | r1 r2 | sock | k rnd];
    try apply (fire_sound _ _ _ _ Hs);
    destruct (rooms w) as [room |] eqn:Hr;
    try (intros [= <-]; exact Hs);
    try specialize (Hs room Hr).
  - intros [= <-] r [= <-]. apply createLobby_sound.
  - intros [= <-] r [= <-]. now apply joinLobby_sound.
  - intros [= <-] r [= <-]. now apply setBlinds_sound.
  - destruct (startGame rnd room sock) as [r1 |] eqn:Hst; [| discriminate].
    simpl. intros [= <-] r [= <-]. eapply startGame_sound; eauto.
  - intros [= <-] r [= <-]. now apply addBot_sound.
  - intros [= <-] r [= <-]. now apply chat_sound.
  - destruct (playerAction room sock action amt) as [[r1 ts] |] eqn:Hst;
      [| discriminate].
    simpl. intros [= <-] r [= <-]. eapply playerAction_sound; eauto.
  - destruct (botTurn room r1 r2) as [[r3 ts] |] eqn:Hst; [| discriminate].
    simpl. intros [= <-] r [= <-]. eapply botTurn_sound; eauto.
  - destruct (findById room sock) as [idx |] eqn:Hfind;
      [| intros [= <-] r Hr'; rewrite Hr in Hr'; injection Hr' as <-; exact Hs].
    destruct (players room !! idx) as [p |] eqn:Hp; [| discriminate]. simpl.
    destruct (disconnect strength room sock idx p) as [[out ts] |] eqn:Hd;
      [| discriminate].
    simpl. intros [= <-] r Hr'. simpl in Hr'.
    assert (Hpid : pid p = sock).
    { apply findIndex_Some in Hfind as (x & Hx & Hf & _).
      rewrite Hp in Hx. injection Hx as <-. now apply String.eqb_eq. }
    eapply (disconnect_sound strength room sock idx p out ts); eauto.
Qed.

Lemma reachable_sound w : reachable strength w -> WorldSound w.
Proof.
  induction 1 as [| w e w' _ IH Hstep].
  - intros room. discriminate.
  - eapply step_sound; eauto.
Qed.

End ServerSound.

(** ** The books of every reachable room *)

Lemma buildSidePots_total (ps : list Player) :
  Forall (fun p => 0 <= committed p) ps ->
  sumZ (map amount (buildSidePots ps)) = sumZ (map committed ps).
Proof.
  intros Hwf. destruct (levels_levelsOf ps) as [Hsorted Hmem].
  unfold buildSidePots.
  destruct (Nat.eqb_spec (length (List.filter (fun p => 0 <? committed p) ps)) 0)
    as [Hnil | Hne].
  - rewrite <- sum_contrib by exact Hwf.
    destruct (List.filter _ ps); [reflexivity | discriminate].
  - rewrite potsFrom_sum.
    + apply sum_contrib, Hwf.
    + constructor; [exact Hsorted |]. apply List.Forall_forall.
      intros L HL. now apply Hmem.
    + intros p Hp Hc. apply Hmem. split; [exact Hc |].
      exists p. split; [| reflexivity]. apply filter_In in Hp. tauto.
Qed.

(** X3: in every reachable room no stack and no commitment is negative,
    and neither is the pot. *)
Theorem stacks_never_negative (strength : list Card -> nat) (w : World)
    (room : Room) (p : Player) :
  reachable strength w -> rooms w = Some room -> In p (players room) ->
  0 <= stack p /\ 0 <= committed p /\ 0 <= pot room.
Proof.
  intros Hreach Hroom Hp.
  destruct (reachable_sound strength w Hreach room Hroom) as [[Hch Hpot] _ _ _ _].
  rewrite List.Forall_forall in Hch. destruct (Hch p Hp). auto.
Qed.

Lemma stacks_never_negative_witness :
  Forall (fun p => 0 <= stack p /\ 0 <= committed p /\ 0 <= pot bustRoom)
         (players bustRoom).
Proof.
  apply List.Forall_forall. intros p Hp.
  apply (stacks_never_negative rankSum bustWorld bustRoom p);
    [apply bustWorld_reachable | reflexivity | exact Hp].
Defined.

(** X4: while a hand is played or revealed in a reachable room, the pot is
    the sum of what the players have committed, and the side pots that
    [buildSidePots] makes of the commitments add up to the pot. *)
Theorem pot_is_committed (strength : list Card -> nat) (w : World)
    (room : Room) :
  reachable strength w -> rooms w = Some room ->
  state room = Hand \/ state room = Reveal ->
  pot room = committedTotal room /\
  sumZ (map amount (buildSidePots (players room))) = pot room.
Proof.
  intros Hreach Hroom Hst.
  destruct (reachable_sound strength w Hreach room Hroom) as [[Hch _] Hpot _ _ _].
  specialize (Hpot Hst). split; [exact Hpot |].
  rewrite Hpot. apply buildSidePots_total.
  eapply Forall_impl; [exact Hch |]. intros q [_ Hq]. exact Hq.
Qed.

Lemma pot_is_committed_witness :
  pot headsUpHand = committedTotal headsUpHand /\
  sumZ (map amount (buildSidePots (players headsUpHand))) = pot headsUpHand.
Proof.
  apply (pot_is_committed rankSum headsUpWorld headsUpHand);
    [apply headsUpWorld_reachable | reflexivity | left; reflexivity].
Defined.



(** X12: a reachable room is never empty and its host is one of its players:
    the room is deleted with its last player, and when the host leaves the
    first remaining player becomes the host. *)
Theorem host_is_a_player (strength : list Card -> nat) (w : World)
    (room : Room) :
  reachable strength w -> rooms w = Some room ->
  players room <> [] /\
  exists p, In p (players room) /\ pid p = hostId room.
Proof.
  intros Hreach Hroom.
  destruct (reachable_sound strength w Hreach room Hroom) as [_ _ _ Hh _].
  unfold hostOk in Hh. apply in_map_iff in Hh as (p & Hp & Hin).
  split; [| eauto]. intros E. rewrite E in Hin. contradiction.
Qed.

Lemma host_is_a_player_witness :
  players bustRoom <> [] /\
  exists p, In p (players bustRoom) /\ pid p = hostId bustRoom.
Proof.
  apply (host_is_a_player rankSum bustWorld bustRoom);
    [apply bustWorld_reachable | reflexivity].
Defined.

(** X13: the log of a reachable room never holds more than 200 lines. *)
Theorem log_is_bounded (strength : list Card -> nat) (w : World)
    (room : Room) :
  reachable strength w -> rooms w = Some room ->
  (length (log room) <= 200)%nat.
Proof.
  intros Hreach Hroom.
  apply (reachable_sound strength w Hreach room Hroom).
Qed.

Lemma log_is_bounded_witness : (length (log bustRoom) <= 200)%nat.
Proof.
  apply (log_is_bounded rankSum bustWorld bustRoom);
    [apply bustWorld_reachable | reflexivity].
Defined.

(** X10: in every reachable room the seats are distinct and within the
    table, so a room never holds more than [MAX_PLAYERS] players, although
    [addBot] checks neither the state nor the number of players. *)
Theorem seats_stay_distinct (strength : list Card -> nat) (w : World)
    (room : Room) :
  reachable strength w -> rooms w = Some room ->
  List.NoDup (map seat (players room)) /\
  (forall p, In p (players room) -> (seat p < MAX_PLAYERS)%nat) /\
  (length (players room) <= MAX_PLAYERS)%nat.
Proof.
  intros Hreach Hroom.
  pose proof (inv_seats _ (reachable_inv strength w Hreach room Hroom)) as Hs.
  pose proof (seatsOk_length _ Hs) as Hlen. destruct Hs as [Hnd Hb].
  split; [now apply NoDup_ListNoDup |]. split; [| exact Hlen].
  now apply List.Forall_forall.
Qed.

Lemma seats_stay_distinct_witness :
  List.NoDup (map seat (players bustRoom)) /\
  (forall p, In p (players bustRoom) -> (seat p < MAX_PLAYERS)%nat) /\
  (length (players bustRoom) <= MAX_PLAYERS)%nat.
Proof.
  apply (seats_stay_distinct rankSum bustWorld bustRoom);
    [apply bustWorld_reachable | reflexivity].
Defined.

(** ** The engine always completes *)











Lemma updPlayer_lookup room i f j :
  is_Some (players room !! j) -> is_Some (players (updPlayer room i f) !! j).
Proof.
  intros [x Hx]. rsimpl. rewrite list_lookup_alter.
  destruct (decide (i = j)) as [-> | _]; rewrite Hx; eauto.
Qed.



(** The players that the handler lets act. *)
Lemma handlePlayerAction_guards room i action amt :
  (exists p, players room !! i = Some p /\ state room = Hand /\
             currentSeat room = Some (seat p) /\
             folded p = false /\ allIn p = false /\
             handlePlayerAction room i action amt
             = (word ← actionWord action;
                acted ← applyAction room i p word amt;
                match acted with
                | None => Some (room, [])
                | Some room' => afterAction room'
                end))
  \/ ((forall p, players room !! i = Some p ->
         ~ (state room = Hand /\ currentSeat room = Some (seat p) /\
            folded p = false /\ allIn p = false))
      /\ handlePlayerAction room i action amt = Some (room, [])).
Proof.
  unfold handlePlayerAction.
  destruct (players room !! i) as [p |]; [| right; split; [discriminate | auto]].
  destruct (bool_decide_reflect (state room = Hand)) as [Hst | Hst];
    cbn [negb];
    [| right; split; [intros ? [= <-] (? & _); contradiction | auto]].
  destruct (currentSeat room) as [cs |];
    [| right; split; [intros ? [= <-] (_ & ? & _); discriminate | auto]].
  destruct (Nat.eqb_spec (seat p) cs) as [Hs | Hs]; cbn [negb];
    [| right; split; [intros ? [= <-] (_ & ? & _); congruence | auto]].
  destruct (folded p) eqn:Hf; cbn [orb];
    [right; split; [intros ? [= <-] (_ & _ & ? & _); congruence | auto] |].
  destruct (allIn p) eqn:Ha;
    [right; split; [intros ? [= <-] (_ & _ & _ & ?); congruence | auto] |].
  left. exists p. subst cs. auto 10.
Qed.


(** X2: a [playerAction] whose [action] is a truthy value that is not a
    string (one without [toLowerCase]) raises an exception exactly when it
    comes from the player whose turn it is; from anybody else, or outside
    a hand, it is ignored like any other action. *)
Theorem non_string_action_throws (room : Room) (i : nat) (amt : Z) :
  handlePlayerAction room i ActOther amt = None <->
  exists p, players room !! i = Some p /\ state room = Hand /\
            currentSeat room = Some (seat p) /\
            folded p = false /\ allIn p = false.
Proof.
  destruct (handlePlayerAction_guards room i ActOther amt)
    as [(p & Hp & Hst & Hcs & Hf & Ha & ->) | [Hno ->]].
  - split; [eauto 10 | reflexivity].
  - split; [discriminate |]. intros (p & Hp & H). exfalso. eapply Hno; eauto.
Qed.





(** ** The cards that remain *)

Lemma filter_Permutation' {A} (f : A -> bool) (l l' : list A) :
  l ≡ₚ l' -> List.filter f l ≡ₚ List.filter f l'.
Proof.
  induction 1 as [| x l l' _ IH | x y l | l l' l'' _ IH1 _ IH2]; simpl.
  - reflexivity.
  - destruct (f x); [now constructor | exact IH].
  - destruct (f x), (f y); try reflexivity. apply Permutation_swap.
  - now rewrite IH1.
Qed.

Lemma filter_none {A} (f : A -> bool) (l : list A) :
  (forall x, In x l -> f x = false) -> List.filter f l = [].
Proof.
  induction l as [| x l IH]; intros H; simpl; [reflexivity |].
  rewrite (H x) by now left. apply IH. intros y Hy. apply H. now right.
Qed.

Lemma used_card (used : list Card) (card : Card) :
  existsb (fun u => bool_decide (u = card)) used = true <-> In card used.
Proof.
  rewrite existsb_exists. split.
  - intros (u & Hu & E). apply bool_decide_eq_true in E. now subst.
  - intros H. exists card. split; [exact H | now apply bool_decide_eq_true].
Qed.

(** When the used cards and the rest make up the deck, the remaining cards
    are the rest. *)
Lemma remaining_rest (board : list Card) (ps : list Player) (rest : list Card) :
  (board ++ flat_map hole ps) ++ rest ≡ₚ orderedDeck ->
  getAllRemainingCards board ps ≡ₚ rest.
Proof.
  intros Hperm. unfold getAllRemainingCards.
  set (used := board ++ flat_map hole ps) in *.
  assert (Hnd : NoDup (used ++ rest)).
  { rewrite Hperm. apply orderedDeck_NoDup. }
  apply NoDup_app in Hnd as (_ & Hdisj & _).
  rewrite <- (filter_Permutation' _ _ _ Hperm), List.filter_app.
  rewrite filter_none, filter_all; [reflexivity | |].
  - intros c Hc. apply negb_true_iff.
    destruct (existsb _ used) eqn:E; [| reflexivity].
    apply used_card in E. exfalso.
    apply (Hdisj c); now apply list_elem_of_In.
  - intros c Hc. apply negb_false_iff. now apply used_card.
Qed.

Lemma flat_map_hole_split (ps : list Player) :
  flat_map hole ps
  ≡ₚ flat_map hole (List.filter (fun p => negb (folded p)) ps)
     ++ flat_map hole (List.filter folded ps).
Proof.
  induction ps as [| p ps IH]; simpl; [reflexivity |].
  destruct (folded p); simpl.
  - rewrite IH, !app_assoc. apply Permutation_app_tail.
    apply Permutation_app_comm.
  - now rewrite IH, app_assoc.
Qed.

Lemma perm_four {A} (a b c d : list A) :
  (a ++ b) ++ (c ++ d) ≡ₚ c ++ (b ++ d) ++ a.
Proof.
  rewrite (Permutation_app_comm (a ++ b) (c ++ d)). rewrite <- !app_assoc.
  apply Permutation_app_head. rewrite (app_assoc d a b).
  apply Permutation_app_comm.
Qed.

(** X24: while a hand is played or revealed in a reachable room, the cards
    that [getAllRemainingCards] finds for the board and all the players are
    the cards of the deck, and the cards it finds for the board and the
    players still in the hand (as [calculateHandEquity] calls it) are the
    deck together with the hole cards of the players that folded. *)
Theorem remaining_cards_are_the_deck (strength : list Card -> nat)
    (w : World) (room : Room) :
  reachable strength w -> rooms w = Some room ->
  state room = Hand \/ state room = Reveal ->
  getAllRemainingCards (community room) (players room) ≡ₚ deck room /\
  getAllRemainingCards (community room) (livePlayers room)
  ≡ₚ deck room ++ foldedCards room.
Proof.
  intros Hreach Hroom Hst.
  pose proof (inv_cards _ (reachable_inv strength w Hreach room Hroom) Hst)
    as Hperm.
  unfold cardsOf, holeCards in Hperm. split.
  - apply remaining_rest. rewrite <- Hperm.
    rewrite (Permutation_app_comm (deck room)).
    apply Permutation_app_tail, Permutation_app_comm.
  - apply remaining_rest. rewrite <- Hperm.
    rewrite (flat_map_hole_split (players room)).
    unfold livePlayers, foldedCards.
    apply perm_four.
Qed.

Lemma remaining_cards_are_the_deck_witness :
  getAllRemainingCards (community headsUpHand) (players headsUpHand)
  ≡ₚ deck headsUpHand /\
  getAllRemainingCards (community headsUpHand) (livePlayers headsUpHand)
  ≡ₚ deck headsUpHand ++ foldedCards headsUpHand.
Proof.
  apply (remaining_cards_are_the_deck rankSum headsUpWorld headsUpHand);
    [apply headsUpWorld_reachable | reflexivity | left; reflexivity].
Defined.

Lemma remaining_length (board : list Card) (ps : list Player) :
  (52 <= length (getAllRemainingCards board ps)
         + length (board ++ flat_map hole ps))%nat.
Proof.
  unfold getAllRemainingCards. set (used := board ++ flat_map hole ps).
  rewrite <- orderedDeck_length.
  pose proof (filter_length (fun card => negb (existsb (fun u => bool_decide (u = card)) used))
                orderedDeck) as Hsplit.
  rewrite <- Hsplit at 1. apply Nat.add_le_mono_l.
  (* the deck cards that are used are no more than the used cards *)
  set (hit := List.filter _ orderedDeck).
  assert (Hnd : NoDup hit).
  { apply NoDup_ListNoDup, List.NoDup_filter, NoDup_ListNoDup, orderedDeck_NoDup. }
  apply submseteq_length, NoDup_submseteq; [exact Hnd |].
  intros c Hc. apply list_elem_of_In, filter_In in Hc as [_ Hc].
  apply negb_false_iff, negb_false_iff in Hc. rewrite negb_involutive in Hc.
  now apply list_elem_of_In, used_card.
Qed.

(** ** Equity is by rank *)

Lemma live_holes_length room :
  (length (flat_map hole (livePlayers room)) <= length (holeCards room))%nat.
Proof.
  unfold livePlayers, holeCards.
  induction (players room) as [| p ps IH]; simpl; [lia |].
  destruct (negb (folded p)); simpl; rewrite !length_app; lia.
Qed.

Lemma remaining_many room :
  RoomInv room -> state room = Hand ->
  (31 <= length (getAllRemainingCards (community room) (livePlayers room)))%nat.
Proof.
  intros Hinv Hst. destruct (inv_board _ Hinv Hst) as [Hb Hh].
  pose proof (remaining_length (community room) (livePlayers room)) as Hrem.
  pose proof (live_holes_length room) as Hl.
  rewrite length_app, Hb in Hrem. unfold MAX_PLAYERS in Hh.
  destruct (stage room); simpl in Hrem; lia.
Qed.

(** X25: while a hand is played in a reachable room, at least 31 cards are
    neither on the board nor in a live hand, so [calculateHandEquity] never
    runs its Monte Carlo branch (which needs 1 to 5 remaining cards): the
    equity shown to spectators comes from the ranking rounds and does not
    depend on any random draw. *)
Theorem equity_is_by_rank (strength : list Card -> nat) (w : World)
    (room : Room) (rnd rnd' : nat -> nat -> nat) :
  reachable strength w -> rooms w = Some room -> state room = Hand ->
  (31 <= length (getAllRemainingCards (community room) (livePlayers room)))%nat
  /\ calculateHandEquity strength rnd room
     = calculateHandEquity strength rnd' room.
Proof.
  intros Hreach Hroom Hst.
  pose proof (remaining_many room (reachable_inv strength w Hreach room Hroom) Hst)
    as Hmany.
  split; [exact Hmany |]. unfold calculateHandEquity.
  destruct (_ <? 2)%nat; [reflexivity |].
  fold (livePlayers room).
  replace (5 <? length (getAllRemainingCards (community room) (livePlayers room)))%nat
    with true by (symmetry; apply Nat.ltb_lt; lia).
  now rewrite orb_true_r.
Qed.

Lemma equity_is_by_rank_witness :
  (31 <= length (getAllRemainingCards (community headsUpHand)
                                      (livePlayers headsUpHand)))%nat
  /\ calculateHandEquity rankSum (fun _ => noShuffle) headsUpHand
     = calculateHandEquity rankSum (fun _ _ => O) headsUpHand.
Proof.
  apply (equity_is_by_rank rankSum headsUpWorld headsUpHand);
    [apply headsUpWorld_reachable | reflexivity | reflexivity].
Defined.

(** Each ranking round takes at least the best hand away, so as many rounds
    as there are rows always suffice. *)
Lemma rankRounds_fuel strength (n m : nat) (remaining : list EquityRow) :
  (length remaining <= n)%nat -> (length remaining <= m)%nat ->
  rankRounds strength n remaining = rankRounds strength m remaining.
Proof.
  revert m remaining. induction n as [| n IH]; intros m remaining Hn Hm.
  - destruct remaining; [| simpl in Hn; lia]. now destruct m.
  - destruct m as [| m].
    { destruct remaining; [reflexivity | simpl in Hm; lia]. }
    cbn [rankRounds].
    destruct (Nat.eqb_spec (length remaining) 0) as [| Hpos]; [reflexivity |].
    set (hands := map eHand remaining).
    set (wins := fun r => handWins strength hands (eHand r)).
    set (losers := List.filter (fun r => negb (wins r)) remaining).
    assert (Hless : (length losers < length remaining)%nat).
    { destruct (best_hand_exists strength hands) as (h & Hh & Hbest).
      - unfold hands. destruct remaining; [contradiction | discriminate].
      - unfold hands in Hh. apply in_map_iff in Hh as (b & <- & Hb).
        pose proof (filter_length wins remaining) as Hsplit.
        assert (Hw : In b (List.filter wins remaining))
          by (apply filter_In; auto).
        fold losers in Hsplit.
        destruct (List.filter wins remaining); [contradiction |].
        simpl in Hsplit. lia. }
    unfold losers, wins in Hless. cbv beta in Hless.
    f_equal. apply IH; lia.
Qed.

(** ** What a player is shown *)

(** X26: a viewer that is not a spectator (one with chips, or one not in the
    room) is shown no card and no hand rank of another player before the
    reveal: in the [players] array that [sanitizeFor] builds, the entry of
    every other player holds no cards or two face-down cards, and a
    [null] hand rank. *)
Theorem other_hole_cards_hidden (room : Room) (viewerId : string)
    (v : PlayerView) :
  state room = Lobby \/ state room = Hand ->
  isSpectator room viewerId = false ->
  In v (sanitizedPlayers room viewerId) -> vId v <> viewerId ->
  (vHole v = [] \/ vHole v = [FaceDown; FaceDown]) /\ vHandRank v = None.
Proof.
  intros Hst Hspec Hv Hother. unfold sanitizedPlayers in Hv.
  apply in_map_iff in Hv as (p & <- & _). unfold viewOf in *. cbn in *.
  rewrite Hspec. cbn [andb orb].
  rewrite (bool_decide_eq_false_2 (state room = Showdown))
    by (destruct Hst; congruence).
  rewrite (bool_decide_eq_false_2 (state room = Reveal))
    by (destruct Hst; congruence).
  destruct (String.eqb_spec (pid p) viewerId) as [E | _]; [contradiction |].
  cbn [orb]. split; [| reflexivity].
  destruct (length (hole p) =? 0)%nat; auto.
Qed.

Lemma other_hole_cards_hidden_witness :
  Forall (fun v =>
            vId v <> "a" ->
            (vHole v = [] \/ vHole v = [FaceDown; FaceDown])
            /\ vHandRank v = None)
         (sanitizedPlayers headsUpHand "a").
Proof.
  apply List.Forall_forall. intros v Hv Hother.
  apply (other_hole_cards_hidden headsUpHand "a" v);
    [right; reflexivity | reflexivity | exact Hv | exact Hother].
Defined.

(** ** Room codes can be typed back *)

Lemma codeChars_ok :
  forallb codeCharOk (seq 0 (String.length ROOM_ALPHABET)) = true.
Proof. vm_compute. reflexivity. Qed.

Lemma codeChar_ok (b : nat) :
  let c := alphabetChar (b mod String.length ROOM_ALPHABET) in
  alphabetAt (b mod String.length ROOM_ALPHABET) = String c EmptyString
  /\ isCodeChar c = true /\ toUpperChar c = c
  /\ toUpperChar (toLowerChar c) = c.
Proof.
  pose proof codeChars_ok as H. rewrite forallb_forall in H.
  specialize (H (b mod String.length ROOM_ALPHABET)%nat).
  rewrite in_seq in H.
  assert (Hlt : (b mod String.length ROOM_ALPHABET < String.length ROOM_ALPHABET)%nat)
    by (apply Nat.mod_upper_bound; discriminate).
  specialize (H ltac:(lia)). unfold codeCharOk in H.
  apply andb_prop in H as [H H4]. apply andb_prop in H as [H H3].
  apply andb_prop in H as [H1 H2].
  apply String.eqb_eq in H1. apply bool_decide_eq_true in H3, H4. auto.
Qed.

Lemma append_cons (c : Ascii.ascii) (s t : string) :
  (String c s ++ t)%string = String c (s ++ t)%string.
Proof. reflexivity. Qed.

Lemma append_empty_r (s : string) : (s ++ "")%string = s.
Proof.
  induction s as [| c s IH]; [reflexivity |]. now rewrite append_cons, IH.
Qed.

Lemma append_assoc' (a b c : string) :
  ((a ++ b) ++ c)%string = (a ++ (b ++ c))%string.
Proof.
  induction a as [| x a IH]; [reflexivity |]. now rewrite !append_cons, IH.
Qed.

(** The characters of a code, one per byte. *)
Lemma makeRoomCode_chars (bytes : list nat) :
  makeRoomCode bytes
  = string_of_list_ascii
      (map (fun b => alphabetChar (b mod String.length ROOM_ALPHABET)) bytes).
Proof.
  unfold makeRoomCode.
  assert (H : forall acc,
    fold_left
      (fun out b =>
         (out ++ alphabetAt (b mod String.length ROOM_ALPHABET))%string)
      bytes acc
    = (acc ++ string_of_list_ascii
         (map (fun b => alphabetChar (b mod String.length ROOM_ALPHABET))
              bytes))%string).
  { induction bytes as [| b bytes IH]; intros acc; cbn [fold_left map].
    - symmetry. apply append_empty_r.
    - rewrite IH, append_assoc'. f_equal.
      destruct (codeChar_ok b) as (-> & _). reflexivity. }
  apply (H EmptyString).
Qed.

Lemma substring_all (s : string) (n : nat) :
  (String.length s <= n)%nat -> String.substring 0 n s = s.
Proof.
  revert n. induction s as [| c s IH]; intros n Hn.
  - now destruct n.
  - destruct n as [| n]; [simpl in Hn; lia |]. simpl. f_equal.
    apply IH. simpl in Hn. lia.
Qed.

(** X28: a code that [makeRoomCode] makes has one character of
    [ROOM_ALPHABET] per random byte, is already in upper case (as the
    lookups of [setBlinds], [startGame], [addBot], [chat] and [playerAction]
    need it), and, when of at most 10 characters, is what [joinLobby]
    makes of it and of its lower-case spelling: a code can be typed back
    in either case. *)
Theorem room_code_can_be_typed_back (bytes : list nat) :
  String.length (makeRoomCode bytes) = length bytes /\
  toUpperCase (makeRoomCode bytes) = makeRoomCode bytes /\
  ((length bytes <= 10)%nat ->
   joinCode (makeRoomCode bytes) = makeRoomCode bytes /\
   joinCode (toLowerCase (makeRoomCode bytes)) = makeRoomCode bytes).
Proof.
  rewrite makeRoomCode_chars.
  set (code := map _ bytes).
  assert (Hchars : Forall (fun c => isCodeChar c = true /\ toUpperChar c = c
                             /\ toUpperChar (toLowerChar c) = c) code).
  { unfold code. apply List.Forall_forall. intros c Hc.
    apply in_map_iff in Hc as (b & <- & _). apply (codeChar_ok b). }
  assert (Hlen : String.length (string_of_list_ascii code) = length bytes).
  { replace (length bytes) with (length code)
      by (unfold code; apply length_map).
    generalize code. intros l. induction l; simpl; congruence. }
  assert (Hup : toUpperCase (string_of_list_ascii code)
                = string_of_list_ascii code).
  { clear Hlen. induction Hchars as [| c l (_ & Hc & _) _ IH]; simpl;
      [reflexivity | now rewrite Hc, IH]. }
  assert (Hlow : toUpperCase (toLowerCase (string_of_list_ascii code))
                 = string_of_list_ascii code).
  { clear Hlen Hup. induction Hchars as [| c l (_ & _ & Hc) _ IH]; simpl;
      [reflexivity | now rewrite Hc, IH]. }
  assert (Hkeep : keepCodeChars (string_of_list_ascii code)
                  = string_of_list_ascii code).
  { clear Hlen Hup Hlow. induction Hchars as [| c l (Hc & _) _ IH]; simpl;
      [reflexivity | now rewrite Hc, IH]. }
  split; [exact Hlen |]. split; [exact Hup |]. intros Hten.
  unfold joinCode. rewrite Hup, Hlow, Hkeep.
  split; apply substring_all; lia.
Qed.

(** ** Spelling of actions *)





Lemma room_code_can_be_typed_back_witness :
  joinCode (toLowerCase (makeRoomCode [7; 40; 255; 0; 31; 100]%nat))
  = makeRoomCode [7; 40; 255; 0; 31; 100]%nat.
Proof.
  apply (proj2 (proj2 (room_code_can_be_typed_back
                         [7; 40; 255; 0; 31; 100]%nat))).
  simpl. lia.
Defined.


(** ** The shuffle *)

(** X23: the Fisher-Yates shuffle permutes its array whatever the random
    draws are: [shuffleInPlace] returns the same cards, and [freshDeck]
    the 52 cards of the deck, each once and none undefined. *)
Theorem shuffle_permutes (rnd : nat -> nat) (arr : list Card) :
  shuffleInPlace rnd arr ≡ₚ arr /\
  freshDeck rnd ≡ₚ orderedDeck /\
  length (freshDeck rnd) = 52%nat /\
  List.NoDup (freshDeck rnd) /\ ~ In Undefined (freshDeck rnd).
Proof.
  split; [apply shuffleFrom_Permutation |].
  pose proof (freshDeck_Permutation rnd) as H.
  split; [exact H |]. split; [| split].
  - rewrite (Permutation_length H). apply orderedDeck_length.
  - apply NoDup_ListNoDup. rewrite H. apply orderedDeck_NoDup.
  - rewrite <- list_elem_of_In, H. apply orderedDeck_defined.
Qed.

(** ** Running out the board when everybody is all-in *)

Lemma runOutStreet_board room :
  length (community room) = boardSize (stage room) ->
  length (community (runOutStreet room))
  = boardSize (stage (runOutStreet room)).
Proof.
  unfold runOutStreet. destruct (stage room) eqn:E; intros H; cbn [pop];
    rsimpl; rewrite ?length_app, ?E, H; reflexivity.
Qed.

Lemma runOutStreet_stage room :
  stage room = River -> stage (runOutStreet room) = River.
Proof. intros H. unfold runOutStreet. rewrite H. exact H. Qed.

Lemma runOut_river n room :
  state room = Hand -> stillCanAct room = false ->
  (streetsLeft (stage room) <= n)%nat ->
  length (community room) = boardSize (stage room) ->
  stage (runOut n room) = River /\ length (community (runOut n room)) = 5%nat.
Proof.
  revert room. induction n as [| n IH]; intros room Hst Hno Hn Hb.
  - destruct (stage room); simpl in Hn; lia.
  - cbn [runOut]. rewrite bool_decide_eq_true_2 by exact Hst. rewrite Hno.
    pose proof (runOutStreet_state room) as Hs.
    pose proof (runOutStreet_board room Hb) as Hb'.
    destruct (decide (stage room = River)) as [Hr | Hr].
    + rewrite Hr in Hs. rewrite bool_decide_eq_false_2 by congruence.
      rewrite runOut_idle by congruence.
      pose proof (runOutStreet_stage room Hr) as Hsg.
      split; [exact Hsg |]. now rewrite Hb', Hsg.
    + assert (Hs' : state (runOutStreet room) = Hand)
        by (rewrite Hs, <- Hst; now destruct (stage room)).
      rewrite bool_decide_eq_false_2 by congruence.
      apply IH; [exact Hs' | | | exact Hb'].
      * rewrite (stillCanAct_ext room); [exact Hno | apply runOutStreet_players].
      * pose proof (runOutStreet_left room Hr). lia.
Qed.

(** X21: when an action closes the betting and nobody is left who can act
    (every player still in the hand is all-in), the handler deals the rest
    of the board at once: the room is left in the reveal on the river with
    five board cards, the players and the pot untouched by the dealing, and
    exactly one showdown timer armed. *)
Theorem all_in_runs_out_the_board (room : Room) :
  state room = Hand -> loneSurvivor room = None ->
  shouldEndBettingRound room = true -> stillCanAct room = false ->
  length (community room) = boardSize (stage room) ->
  exists room',
    afterAction room = Some (room', [ShowdownTimer false]) /\
    state room' = Reveal /\ stage room' = River /\
    length (community room') = 5%nat /\
    players room' = players room /\ pot room' = pot room.
Proof.
  intros Hst Hlone Hend Hno Hb. unfold afterAction. rewrite Hlone, Hend.
  assert (Hfuel : (streetsLeft (stage room) <= 4)%nat)
    by (destruct (stage room); simpl; lia).
  pose proof (runOut_reveals 4 room Hst Hno Hfuel) as Hrev.
  destruct (runOut_river 4 room Hst Hno Hfuel Hb) as [Hsg Hlen].
  rewrite (bool_decide_eq_false_2 (state (runOut 4 room) = Hand))
    by congruence.
  rewrite bool_decide_eq_true_2 by exact Hrev.
  exists (runOut 4 room). split; [reflexivity |].
  split; [exact Hrev |]. split; [exact Hsg |]. split; [exact Hlen |].
  pose proof (runOut_players 4 room) as Hp. split; [exact Hp |].
  destruct (runOut_keeps 4 room) as (_ & _ & _ & _ & Hgap & _).
  unfold committedTotal in Hgap. rewrite Hp in Hgap. lia.
Qed.

Lemma all_in_runs_out_the_board_witness :
  exists room',
    afterAction allInRoom = Some (room', [ShowdownTimer false]) /\
    state room' = Reveal /\ stage room' = River /\
    length (community room') = 5%nat /\
    players room' = players allInRoom /\ pot room' = pot allInRoom.
Proof. apply all_in_runs_out_the_board; reflexivity. Defined.

(** ** Chips in an action *)

Lemma handlePlayerAction_chips_witness :
  chipsInPlay (roomOf foldedWorld) = chipsInPlay headsUpHand
  \/ (state (roomOf foldedWorld) = Reveal
      /\ pending foldedWorld = [ShowdownTimer false]
      /\ chipsInPlay (roomOf foldedWorld)
         = chipsInPlay headsUpHand + pot (roomOf foldedWorld)).
Proof.
  apply (handlePlayerAction_chips headsUpHand 1 (ActString "fold") 0).
  reflexivity.
Defined.

(** ** The showdown pays the pot *)

(** X6: while a hand is played or revealed in a reachable room,
    [resolveShowdown] raises the total of the stacks by exactly the pot,
    provided every side pot has an eligible player (nobody holds the top
    commitment alone after folding). *)
Theorem showdown_pays_the_pot (strength : list Card -> nat) (w : World)
    (room : Room) :
  reachable strength w -> rooms w = Some room ->
  state room = Hand \/ state room = Reveal ->
  Forall (fun pot => contested pot = true) (buildSidePots (players room)) ->
  totalStacks (resolveShowdown strength room) = totalStacks room + pot room.
Proof.
  intros Hreach Hroom Hst Hall.
  destruct (reachable_sound strength w Hreach room Hroom) as [[Hch _] Hpot _ _ _].
  rewrite resolveShowdown_total. f_equal. unfold contestedPots.
  rewrite filter_all by (now apply List.Forall_forall).
  rewrite (Hpot Hst). apply buildSidePots_total.
  eapply Forall_impl; [exact Hch |]. intros q [_ Hq]. exact Hq.
Qed.

Lemma showdown_pays_the_pot_witness :
  totalStacks (resolveShowdown rankSum headsUpHand)
  = totalStacks headsUpHand + pot headsUpHand.
Proof.
  apply (showdown_pays_the_pot rankSum headsUpWorld headsUpHand);
    [apply headsUpWorld_reachable | reflexivity | left; reflexivity |].
  vm_compute. repeat constructor.
Defined.

(** ** Joining *)

(** X19: [joinLobby] seats a player exactly when the room is in the lobby
    and holds fewer than [MAX_PLAYERS] players: the new player is appended
    with the starting stack on the seat that [assignSeat] gives and the
    other players are left as they are; otherwise the room does not
    change. *)
Theorem joinLobby_seats (room : Room) (sock nm : string) :
  (state room = Lobby /\ (length (players room) < MAX_PLAYERS)%nat ->
   exists s, assignSeat room = Some s /\
     players (joinLobby room sock nm)
     = players room ++ [newPlayer sock nm s false]) /\
  (state room <> Lobby \/ (MAX_PLAYERS <= length (players room))%nat ->
   joinLobby room sock nm = room).
Proof.
  unfold joinLobby. split.
  - intros [Hst Hlen]. destruct (assignSeat_exists room Hlen) as [s Hs].
    exists s. split; [exact Hs |].
    rewrite (proj2 (Nat.leb_gt _ _) Hlen).
    rewrite bool_decide_eq_true_2 by exact Hst. cbn [negb]. now rewrite Hs.
  - intros [Hst | Hlen].
    + destruct (_ <=? _)%nat; [reflexivity |].
      now rewrite bool_decide_eq_false_2 by exact Hst.
    + now rewrite (proj2 (Nat.leb_le _ _) Hlen).
Qed.

Lemma joinLobby_seats_witness :
  exists s, assignSeat annLobby = Some s /\
    players (joinLobby annLobby "b" "Bob")
    = players annLobby ++ [newPlayer "b" "Bob" s false].
Proof.
  apply (proj1 (joinLobby_seats annLobby "b" "Bob")).
  split; [reflexivity | vm_compute; lia].
Defined.

(** ** The next hand *)








(** ** The shape of the side pots *)

Lemma eligible_sublist (contrib : list Player) (L L' : Z) :
  L <= L' ->
  map pid (List.filter (fun p => negb (folded p))
             (List.filter (fun p => L' <=? committed p) contrib))
  `sublist_of`
  map pid (List.filter (fun p => negb (folded p))
             (List.filter (fun p => L <=? committed p) contrib)).
Proof.
  intros HL. induction contrib as [| p contrib IH]; simpl; [constructor |].
  destruct (Z.leb_spec L' (committed p)) as [H' | H'].
  - rewrite (proj2 (Z.leb_le L (committed p))) by lia. simpl.
    destruct (negb (folded p)); simpl; [now constructor | exact IH].
  - destruct (L <=? committed p); simpl; [| exact IH].
    destruct (negb (folded p)); simpl; [now apply sublist_cons | exact IH].
Qed.

Lemma potsFrom_nested contrib prev levels k pot pot' :
  StronglySorted Z.lt (prev :: levels) ->
  potsFrom contrib prev levels !! k = Some pot ->
  potsFrom contrib prev levels !! S k = Some pot' ->
  eligible pot' `sublist_of` eligible pot.
Proof.
  revert prev k. induction levels as [| L levels IH]; intros prev k Hs;
    [discriminate |].
  inversion Hs as [| ? ? Hs' _]; subst.
  destruct k as [| k]; cbn [potsFrom].
  - destruct levels as [| L' levels]; [discriminate |].
    cbn [potsFrom]. intros [= <-] [= <-]. cbn [eligible].
    apply eligible_sublist.
    inversion Hs' as [| ? ? _ Hall]; subst. inversion Hall; subst. lia.
  - intros Hk Hk'. apply (IH L k Hs' Hk Hk').
Qed.

Lemma buildSidePots_contributor ps pot i :
  In pot (buildSidePots ps) -> In i (eligible pot) ->
  exists p, In p ps /\ pid p = i /\ folded p = false /\ 0 < committed p.
Proof.
  unfold buildSidePots. destruct (_ =? _)%nat; [contradiction |].
  intros Hpot Hi. destruct (potsFrom_eligible _ _ _ _ _ Hpot Hi)
    as (p & Hp & ? & ?).
  apply filter_In in Hp as [Hp Hc]. apply Z.ltb_lt in Hc. eauto.
Qed.

(** X20: every side pot that [buildSidePots] returns holds a positive amount;
    its eligible players are players of the list that have committed chips
    and have not folded; and the eligible players of each pot are among
    those of the pot before it, in the same order. *)
Theorem side_pots_shape (ps : list Player) (k : nat) (pot : Pot) :
  buildSidePots ps !! k = Some pot ->
  0 < amount pot /\
  (forall i, In i (eligible pot) ->
     exists p, In p ps /\ pid p = i /\ folded p = false /\
               0 < committed p) /\
  (forall pot', buildSidePots ps !! S k = Some pot' ->
     eligible pot' `sublist_of` eligible pot).
Proof.
  intros Hk.
  assert (Hin : In pot (buildSidePots ps)).
  { apply list_elem_of_In. eapply list_elem_of_lookup_2, Hk. }
  split; [exact (buildSidePots_amount_pos ps pot Hin) |]. split.
  - intros i Hi. exact (buildSidePots_contributor ps pot i Hin Hi).
  - intros pot' Hk'. revert Hk Hk'. unfold buildSidePots.
    destruct (_ =? _)%nat; [discriminate |].
    destruct (levels_levelsOf ps) as [Hsort Hlev].
    apply potsFrom_nested. constructor; [exact Hsort |].
    apply List.Forall_forall. intros x Hx. now apply Hlev in Hx.
Qed.

Lemma side_pots_shape_witness :
  exists pot, buildSidePots committed_100_300_300 !! 0%nat = Some pot /\
              0 < amount pot.
Proof.
  eexists. split; [reflexivity |].
  apply (side_pots_shape committed_100_300_300 0). reflexivity.
Defined.

(** ** What a player without chips is shown *)

(** X27: a viewer whose stack is 0 or less, be it a player that has lost
    everything or one that is all-in, counts as a spectator: in the
    [players] array that [sanitizeFor] builds for it every entry shows the
    hole cards of its player face up, in every state of the room. *)
Theorem chipless_viewer_sees_all (room : Room) (viewerId : string)
    (me : Player) (v : PlayerView) :
  List.find (fun p => String.eqb (pid p) viewerId) (players room) = Some me ->
  stack me <= 0 ->
  In v (sanitizedPlayers room viewerId) ->
  exists p, In p (players room) /\ vId v = pid p /\
            vHole v = map FaceUp (hole p).
Proof.
  intros Hme Hstack Hv. unfold sanitizedPlayers in Hv.
  apply in_map_iff in Hv as (p & <- & Hp).
  exists p. split.
  - apply list_elem_of_In. rewrite <- (seatedPlayers_Permutation room).
    now apply list_elem_of_In.
  - split; [reflexivity |]. unfold viewOf, isSpectator. cbn.
    rewrite Hme, (proj2 (Z.leb_le _ _) Hstack).
    now rewrite !orb_true_r.
Qed.

Lemma chipless_viewer_sees_all_witness :
  Forall (fun v =>
            exists p, In p (players bustRoom) /\ vId v = pid p /\
                      vHole v = map FaceUp (hole p))
         (sanitizedPlayers bustRoom "b").
Proof.
  apply List.Forall_forall. intros v Hv.
  eapply (chipless_viewer_sees_all bustRoom "b");
    [reflexivity | vm_compute; discriminate | exact Hv].
Defined.

(** ** Whose turn it is *)

(** X30: in every state the server can reach, while a hand is played, the
    seat whose turn it is never belongs to a player that has folded:
    [startBettingRound], [moveToNextActor] and [beginHand] only hand the turn
    to players that are still in the hand. *)
Theorem actor_has_not_folded (strength : list Card -> nat) (w : World)
    (room : Room) (p : Player) :
  reachable strength w -> rooms w = Some room -> state room = Hand ->
  In p (players room) -> currentSeat room = Some (seat p) ->
  folded p = false.
Proof.
  intros Hreach Hroom Hst Hp Hcur.
  pose proof (reachable_inv strength w Hreach room Hroom) as Hinv.
  exact (inv_actor _ Hinv Hst p (seat p) Hp Hcur eq_refl).
Qed.

Lemma actor_has_not_folded_witness :
  exists p, players headsUpHand !! 1%nat = Some p /\
            currentSeat headsUpHand = Some (seat p) /\ folded p = false.
Proof.
  eexists. split; [reflexivity |]. split; [reflexivity |].
  eapply (actor_has_not_folded rankSum headsUpWorld headsUpHand);
    [apply headsUpWorld_reachable | reflexivity | reflexivity
    | right; left; reflexivity | reflexivity].
Defined.
